(** * FaceFix: the rewrite engine and the file selector

    A shallow embedding of [FaceFixV0.7.9.py] (the latest of the script
    variants): [smart_replace], [get_exclusion_patterns],
    [is_disabled_file], [should_exclude] and the file-collecting loop of
    [main].

    Python [str] values are sequences of Unicode code points, so a text is a
    list of code points ([N]).  The character classes of the [re] module are
    written out for ASCII; for the code points from 128 on, the alphanumeric
    and decimal-digit properties and the lower-case mapping are tables of the
    Python runtime and are taken as parameters. *)

From Stdlib Require Import NArith List Bool Lia String Ascii Sorted.
From stdpp Require Import base option list gmap.

Local Open Scope N_scope.

(** ** Text *)

Abbreviation char := N.
Abbreviation text := (list N).

(** An ASCII string literal as a text. *)
Definition str (s : string) : text :=
  List.map N_of_ascii (list_ascii_of_string s).

Definition LF : char := 0x0A.
Definition CR : char := 0x0D.

(** [str.isspace], which is also [\s] of a [str] pattern. *)
Definition is_space (c : char) : bool :=
  ((0x09 <=? c) && (c <=? 0x0D)) || ((0x1C <=? c) && (c <=? 0x20))
  || (c =? 0x85) || (c =? 0xA0) || (c =? 0x1680)
  || ((0x2000 <=? c) && (c <=? 0x200A))
  || (c =? 0x2028) || (c =? 0x2029) || (c =? 0x202F) || (c =? 0x205F)
  || (c =? 0x3000).

(** The line boundaries of [str.splitlines] (a CR followed by LF counts as
    one boundary, see [splitlines]). *)
Definition is_linebreak (c : char) : bool :=
  ((0x0A <=? c) && (c <=? 0x0D)) || ((0x1C <=? c) && (c <=? 0x1E))
  || (c =? 0x85) || (c =? 0x2028) || (c =? 0x2029).

Definition is_ascii_upper (c : char) : bool := (0x41 <=? c) && (c <=? 0x5A).
Definition is_ascii_lower (c : char) : bool := (0x61 <=? c) && (c <=? 0x7A).
Definition is_ascii_digit (c : char) : bool := (0x30 <=? c) && (c <=? 0x39).

Definition ascii_lower (c : char) : char :=
  if is_ascii_upper c then c + 0x20 else c.

(** [not l]. *)
Definition is_nil {A} (l : list A) : bool :=
  match l with
  | [] => true
  | _ :: _ => false
  end.

(** [x in s] for strings. *)
Fixpoint starts_with (p s : text) : bool :=
  match p, s with
  | [], _ => true
  | a :: p', b :: s' => (a =? b) && starts_with p' s'
  | _ :: _, [] => false
  end.

Fixpoint contains (p s : text) : bool :=
  starts_with p s
  || match s with
     | [] => false
     | _ :: s' => contains p s'
     end.

Definition ends_with (p s : text) : bool :=
  starts_with (rev p) (rev s).

(** [s.rstrip("\n")]. *)
Fixpoint rstrip_nl (s : text) : text :=
  match s with
  | [] => []
  | c :: s' =>
      match rstrip_nl s' with
      | [] => if c =? LF then [] else [c]
      | r => c :: r
      end
  end.

(** [s.strip()] and [s.strip(chars)]: [p] tells the characters to drop. *)
Fixpoint lstrip_by (p : char -> bool) (s : text) : text :=
  match s with
  | [] => []
  | c :: s' => if p c then lstrip_by p s' else s
  end.

Definition strip_by (p : char -> bool) (s : text) : text :=
  rev (lstrip_by p (rev (lstrip_by p s))).

(** [s.replace(a, b)] for single characters. *)
Definition replace_chr (a b : char) (s : text) : text :=
  List.map (fun c => if c =? a then b else c) s.

(** [s.splitlines(True)]: the lines keep their terminators. *)
Fixpoint splitlines (s : text) : list text :=
  match s with
  | [] => []
  | c :: s' =>
      if is_linebreak c then
        match s' with
        | d :: s'' =>
            if (c =? CR) && (d =? LF) then [c; d] :: splitlines s''
            else [c] :: splitlines s'
        | [] => [[c]]
        end
      else
        match splitlines s' with
        | [] => [[c]]
        | l :: ls => (c :: l) :: ls
        end
  end.

(** [open(path, "r")] reads in universal-newlines mode: CR LF and a lone CR
    both arrive as LF. *)
Fixpoint universal_newlines (s : text) : text :=
  match s with
  | [] => []
  | c :: s' =>
      if c =? CR then
        LF :: match s' with
              | d :: s'' =>
                  if d =? LF then universal_newlines s''
                  else universal_newlines s'
              | [] => []
              end
      else c :: universal_newlines s'
  end.

(** ** The fragment of [re] the script uses

    A backtracking matcher in continuation-passing style: greedy
    repetition tries the longest run first and gives characters back, an
    alternation tries its branches from left to right, and the first
    success wins, as in the [re] module.  Repetition only occurs over
    character classes in the script's patterns. *)

Inductive regex :=
| Eps
| Bol                          (* ^ *)
| Eol                          (* $ *)
| Lit (x : char)               (* a literal under re.IGNORECASE *)
| Cls (p : char -> bool)       (* one character of a class *)
| Star (p : char -> bool)      (* class*, greedy *)
| Cat (r1 r2 : regex)
| Alt (r1 r2 : regex)
| Grp (r : regex).             (* capturing group 1 *)

Definition Plus (p : char -> bool) : regex := Cat (Cls p) (Star p).
Definition Opt (r : regex) : regex := Alt r Eps.
Definition seq_re (rs : list regex) : regex := fold_right Cat Eps rs.
Definition lits (s : string) : regex := seq_re (List.map Lit (str s)).

(** The characters a literal of the pattern matches under [re.IGNORECASE]:
    those whose lower case is the literal's, and the extra case variants
    the [re] module knows for [i] (U+0130, U+0131), [s] (U+017F) and [k]
    (U+212A). *)
Definition lit_ic (x c : char) : bool :=
  let lo := ascii_lower x in
  (ascii_lower c =? lo)
  || ((lo =? 0x69) && ((c =? 0x130) || (c =? 0x131)))
  || ((lo =? 0x73) && (c =? 0x17F))
  || ((lo =? 0x6B) && (c =? 0x212A)).

Section Exec.
Context {A : Type}.

(** [i] is the position in the subject, [s] what is left of it, [g] the
    text captured by group 1 so far. *)
Definition cont := nat -> text -> option text -> option A.

Fixpoint star (p : char -> bool) (i : nat) (s : text)
    (k : nat -> text -> option A) : option A :=
  match s with
  | c :: s' =>
      if p c then
        match star p (S i) s' k with
        | Some a => Some a
        | None => k i s
        end
      else k i s
  | [] => k i s
  end.

Fixpoint exec (r : regex) (i : nat) (s : text) (g : option text)
    (k : cont) : option A :=
  match r with
  | Eps => k i s g
  | Bol => if Nat.eqb i 0 then k i s g else None
  | Eol =>
      match s with
      | [] => k i s g
      | [c] => if c =? LF then k i s g else None
      | _ => None
      end
  | Lit x =>
      match s with
      | c :: s' => if lit_ic x c then k (S i) s' g else None
      | [] => None
      end
  | Cls p =>
      match s with
      | c :: s' => if p c then k (S i) s' g else None
      | [] => None
      end
  | Star p => star p i s (fun i' s' => k i' s' g)
  | Cat r1 r2 => exec r1 i s g (fun i' s' g' => exec r2 i' s' g' k)
  | Alt r1 r2 =>
      match exec r1 i s g k with
      | Some a => Some a
      | None => exec r2 i s g k
      end
  | Grp r1 =>
      exec r1 i s g (fun i' s' _ => k i' s' (Some (take (i' - i)%nat s)))
  end.
End Exec.

(** [pattern.match(s)]: [Some g] is a match object whose group 1 is [g]. *)
Definition re_match (r : regex) (s : text) : option (option text) :=
  exec r 0%nat s None (fun _ _ g => Some g).

(** [m.group(1)] inside an f-string. *)
Definition group1 (m : option text) : text :=
  match m with
  | Some t => t
  | None => str "None"
  end.

(** ** Paths ([posixpath]) *)

Definition SEP : char := 0x2F.
Definition DOT : char := 0x2E.

(** [s.rfind(c)] for a single character; [None] stands for -1. *)
Fixpoint rfind_from (c : char) (i : nat) (s : text) (acc : option nat)
    : option nat :=
  match s with
  | [] => acc
  | d :: s' => rfind_from c (S i) s' (if d =? c then Some i else acc)
  end.

Definition rfind (c : char) (s : text) : option nat := rfind_from c 0 s None.

(** [rfind + 1]. *)
Definition after (o : option nat) : nat :=
  match o with
  | Some i => S i
  | None => 0%nat
  end.

Definition basename (p : text) : text := drop (after (rfind SEP p)) p.

(** [os.path.splitext]: the extension starts at the last dot of the last
    component, unless that component consists of leading dots up to it. *)
Definition splitext (p : text) : text * text :=
  let sepIndex := rfind SEP p in
  match rfind DOT p with
  | Some dotIndex =>
      let filenameIndex := after sepIndex in
      if (filenameIndex <=? dotIndex)%nat
         && negb (forallb (fun c => c =? DOT)
                    (take (dotIndex - filenameIndex) (drop filenameIndex p)))
      then (take dotIndex p, drop dotIndex p)
      else (p, [])
  | None => (p, [])
  end.

Definition path_join (a b : text) : text :=
  if starts_with [SEP] b then b
  else if is_nil a || ends_with [SEP] a then a ++ b
  else a ++ [SEP] ++ b.

Definition backup_path (file_path : text) : text :=
  fst (splitext file_path) ++ str "_backup.bak".

(** ** The world: files, console, standard input

    A file holds text (its UTF-8 decoding, line endings as stored) or
    bytes that do not decode.  [readonly] are the paths that cannot be
    opened for writing.  [trace] records the file operations that took
    place, in order. *)

Inductive fdata :=
| Text (t : text)
| Binary (b : list N).

Inductive exn :=
| FileNotFoundError (p : text)
| UnicodeDecodeError (p : text)
| PermissionError (p : text)
| SameFileError (p : text)
| UnicodeEncodeError
| EOFError.

Inductive event :=
| EvRead (p : text)
| EvCopy (src dst : text)
| EvWrite (p : text).

(** A Match: (line index, original text, rewritten text). *)
Definition change : Type := nat * text * text.

Inductive output :=
| PreviewHeader (p : text)
| PreviewLine (c : change)
| BackupSaved (p : text)
| ErrorProcessing (p : text) (e : exn)
| Changed (p : text) (replaced : nat)
| NoMatch (p : text)
| Prompt (s : text).

Record world := World {
  files : gmap text fdata;
  readonly : gset text;
  stdin : list text;
  trace : list event;
  console : list output
}.

Definition set_files (f : gmap text fdata) (w : world) : world :=
  World f (readonly w) (stdin w) (trace w) (console w).
Definition set_stdin (i : list text) (w : world) : world :=
  World (files w) (readonly w) i (trace w) (console w).
Definition log (e : event) (w : world) : world :=
  World (files w) (readonly w) (stdin w) (trace w ++ [e]) (console w).
Definition emit (o : output) (w : world) : world :=
  World (files w) (readonly w) (stdin w) (trace w) (console w ++ [o]).

(** Computations that change the world and may raise. *)
Definition io (A : Type) : Type := world -> (exn + A) * world.

#[export] Instance io_ret : MRet io := fun A a w => (inr a, w).
#[export] Instance io_bind : MBind io := fun A B f m w =>
  match m w with
  | (inr a, w') => f a w'
  | (inl e, w') => (inl e, w')
  end.

Definition raise {A} (e : exn) : io A := fun w => (inl e, w).

(** [try: m except Exception as e: h e]. *)
Definition try_except {A} (m : io A) (h : exn -> io A) : io A := fun w =>
  match m w with
  | (inl e, w') => h e w'
  | r => r
  end.

(** [print] on a standard output that takes every message (UTF-8). *)
Definition print (o : output) : io unit := fun w => (inr tt, emit o w).

(** [print] in general: [console o] tells whether the standard output
    can encode the text of [o]; where it cannot, [print] raises and
    nothing is shown. *)
Definition print_to (console : output -> bool) (o : output) : io unit :=
  fun w => if console o then (inr tt, emit o w) else (inl UnicodeEncodeError, w).

Definition when (b : bool) (m : io unit) : io unit :=
  if b then m else mret tt.

Fixpoint for_each {A} (l : list A) (f : A -> io unit) : io unit :=
  match l with
  | [] => mret tt
  | a :: l' => f a;; for_each l' f
  end.

(** [open(p, "r", encoding="utf-8").read()]. *)
Definition read_text (p : text) : io text := fun w =>
  match files w !! p with
  | None => (inl (FileNotFoundError p), w)
  | Some (Binary _) => (inl (UnicodeDecodeError p), log (EvRead p) w)
  | Some (Text t) => (inr (universal_newlines t), log (EvRead p) w)
  end.

(** [shutil.copyfile(src, dst)]: the destination gets the source's content
    as it is stored. *)
Definition copyfile (src dst : text) : io unit := fun w =>
  if decide (src = dst) then (inl (SameFileError src), w)
  else
    match files w !! src with
    | None => (inl (FileNotFoundError src), w)
    | Some d =>
        if decide (dst ∈ readonly w) then (inl (PermissionError dst), w)
        else (inr tt, log (EvCopy src dst) (set_files (<[dst := d]> (files w)) w))
    end.

(** [open(p, "w", encoding="utf-8").writelines(lines)], with LF as the
    platform's line separator. *)
Definition write_lines (p : text) (lines : list text) : io unit := fun w =>
  if decide (p ∈ readonly w) then (inl (PermissionError p), w)
  else (inr tt, log (EvWrite p) (set_files (<[p := Text (concat lines)]> (files w)) w)).

(** [input(prompt)]. *)
Definition input (prompt : text) : io text := fun w =>
  match stdin w with
  | [] => (inl EOFError, emit (Prompt prompt) w)
  | l :: rest => (inr l, set_stdin rest (emit (Prompt prompt) w))
  end.

Section Engine.
(** The Unicode tables of the runtime, consulted from code point 128 on:
    [str.isalnum] and the decimal-digit property. *)
Variable uni_alnum : char -> bool.
Variable uni_decimal : char -> bool.

(** [\w] and [\d] of a [str] pattern. *)
Definition is_word (c : char) : bool :=
  is_ascii_upper c || is_ascii_lower c || is_ascii_digit c || (c =? 0x5F)
  || ((0x80 <=? c) && uni_alnum c).

Definition is_digit (c : char) : bool :=
  is_ascii_digit c || ((0x80 <=? c) && uni_decimal c).

Definition is_dot_word (c : char) : bool := (c =? 0x2E) || is_word c.

(** The resource identifier, group 1 of the pattern. *)
Definition resource_re : regex :=
  seq_re [ lits "Resource"; Star is_word; lits "Face"; Star is_word;
           Alt (lits "Diffuse") (lits "NormalMap");
           Opt (Star is_dot_word) ].

Definition pattern : regex :=
  seq_re [ Bol; Star is_space; lits "ps-t"; Plus is_digit; Star is_space;
           Lit 0x3D; Star is_space; Grp resource_re; Star is_space; Eol ].

(** The leading-whitespace pattern (anchor, then group 1 around a greedy
    whitespace run), which the script matches against the unstripped
    line. *)
Definition indent_re : regex := Cat Bol (Grp (Star is_space)).

(** The body of the [for idx, line in enumerate(lines, 1)] loop. *)
Definition scan_step (acc : list text * list change) (il : nat * text)
    : list text * list change :=
  let '(new_lines, changed_lines) := acc in
  let '(idx, line) := il in
  let stripped := rstrip_nl line in
  match re_match pattern stripped with
  | Some m =>
      let rhs := group1 m in
      let indent :=
        match re_match indent_re line with
        | Some m' => group1 m'
        | None => []
        end in
      let new_line := indent ++ str "this = " ++ rhs ++ [LF] in
      (new_lines ++ [new_line],
       changed_lines ++ [(idx, stripped, rstrip_nl new_line)])
  | None => (new_lines ++ [line], changed_lines)
  end.

Definition enumerate (start : nat) (lines : list text) : list (nat * text) :=
  combine (seq start (length lines)) lines.

Definition scan (lines : list text) : list text * list change :=
  fold_left scan_step (enumerate 1 lines) ([], []).

(** [smart_replace]: the [try] block, then the function with its
    [except Exception] handler around it. *)
Definition smart_replace_try (file_path : text)
    (make_backup preview apply_changes process_disabled : bool)
    : io (bool * list change) :=
  content ← read_text file_path;
  if contains (str "DISABLED") content && negb process_disabled
  then mret (false, [])
  else
    let lines := splitlines content in
    let '(new_lines, changed_lines) := scan lines in
    if is_nil changed_lines then mret (false, [])
    else
      when preview
        (print (PreviewHeader file_path);;
         for_each changed_lines (fun c => print (PreviewLine c)));;
      when apply_changes
        (when make_backup
           (let backup := backup_path file_path in
            copyfile file_path backup;;
            print (BackupSaved backup));;
         write_lines file_path new_lines);;
      mret (true, changed_lines).

Definition smart_replace (file_path : text)
    (make_backup preview apply_changes process_disabled : bool)
    : io (bool * list change) :=
  try_except
    (smart_replace_try file_path make_backup preview apply_changes
       process_disabled)
    (fun e => print (ErrorProcessing file_path e);; mret (false, [])).

(** [smart_replace] with the standard output as a parameter: every
    [print] of the function, the one of the handler included, goes to
    [console]. *)
Definition smart_replace_try_on (console : output -> bool) (file_path : text)
    (make_backup preview apply_changes process_disabled : bool)
    : io (bool * list change) :=
  content ← read_text file_path;
  if contains (str "DISABLED") content && negb process_disabled
  then mret (false, [])
  else
    let lines := splitlines content in
    let '(new_lines, changed_lines) := scan lines in
    if is_nil changed_lines then mret (false, [])
    else
      when preview
        (print_to console (PreviewHeader file_path);;
         for_each changed_lines (fun c => print_to console (PreviewLine c)));;
      when apply_changes
        (when make_backup
           (let backup := backup_path file_path in
            copyfile file_path backup;;
            print_to console (BackupSaved backup));;
         write_lines file_path new_lines);;
      mret (true, changed_lines).

Definition smart_replace_on (console : output -> bool) (file_path : text)
    (make_backup preview apply_changes process_disabled : bool)
    : io (bool * list change) :=
  try_except
    (smart_replace_try_on console file_path make_backup preview apply_changes
       process_disabled)
    (fun e => print_to console (ErrorProcessing file_path e);;
              mret (false, [])).

(** ** The exclusion system *)

(** [str.lower]: written out for ASCII, the runtime's tables from code
    point 128 on: the lower-case mapping (one code point may lower to
    several) and the properties Cased and Case_Ignorable, which decide
    what a capital sigma becomes. *)
Variable uni_cased : char -> bool.
Variable uni_ignorable : char -> bool.
Variable uni_lower : char -> text.

Definition SIGMA : char := 0x3A3.

Definition is_cased (c : char) : bool :=
  if c <? 0x80 then is_ascii_upper c || is_ascii_lower c else uni_cased c.

Definition is_case_ignorable (c : char) : bool :=
  if c <? 0x80
  then (c =? 0x27) || (c =? 0x2E) || (c =? 0x3A) || (c =? 0x5E) || (c =? 0x60)
  else uni_ignorable c.

(** The first character that is not case-ignorable. *)
Fixpoint skip_ignorable (s : text) : option char :=
  match s with
  | [] => None
  | c :: s' => if is_case_ignorable c then skip_ignorable s' else Some c
  end.

(** Whether a capital sigma stands at the end of a word: the characters
    [before] it, nearest first, go back over case-ignorable ones to a
    cased one, and the characters [after] it do not go on over
    case-ignorable ones to a cased one. *)
Definition final_sigma (before after : text) : bool :=
  match skip_ignorable before with
  | Some c => is_cased c
  | None => false
  end
  && match skip_ignorable after with
     | Some c => negb (is_cased c)
     | None => true
     end.

Definition lower_char (before : text) (c : char) (after : text) : text :=
  if c =? SIGMA then [if final_sigma before after then 0x3C2 else 0x3C3]
  else if c <? 0x80 then [ascii_lower c]
  else uni_lower c.

(** [before] holds the characters already passed, nearest first. *)
Fixpoint lower_from (before s : text) : text :=
  match s with
  | [] => []
  | c :: s' => lower_char before c s' ++ lower_from (c :: before) s'
  end.

Definition lower (s : text) : text := lower_from [] s.

Definition STAR : char := 0x2A.
Definition is_star (c : char) : bool := c =? STAR.

(** The [while True] loop of [get_exclusion_patterns]; every round takes
    one line of standard input, so [fuel] above the number of pending
    lines is never used up. *)
Fixpoint folder_loop (fuel : nat) (patterns : list text) : io (list text) :=
  match fuel with
  | O => raise EOFError
  | S fuel' =>
      line ← input (str "Folder to exclude: ");
      let folder_name := strip_by is_space line in
      if is_nil folder_name then mret patterns
      else folder_loop fuel' (patterns ++ [[STAR] ++ folder_name ++ [STAR]])
  end.

Definition get_exclusion_patterns : io (list text) := fun w =>
  (print (Prompt (str "Enter folder names to exclude (ENTER to finish):"));;
   folder_loop (S (length (stdin w))) [str "*_backup.bak"]) w.

Definition is_disabled_file (file_path : text) : io bool :=
  try_except
    (let basename := lower (basename file_path) in
     if contains (str "disabled") basename then mret true
     else
       content ← read_text file_path;
       mret (contains (str "DISABLED") content))
    (fun _ => mret false).

Definition should_exclude (path : text) (patterns : list text) : bool :=
  let path_norm := lower (replace_chr 0x5C SEP path) in
  existsb (fun pattern => contains (lower (strip_by is_star pattern)) path_norm)
    patterns.

(** ** The file-collecting loop of [main]

    [walk] is what [os.walk(folder)] yields: the directories top-down,
    each with the names of its files. *)
Fixpoint collect_dir (dirpath : text) (filenames : list text)
    (process_disabled : bool) : io (list text) :=
  match filenames with
  | [] => mret []
  | f :: rest =>
      if ends_with (str ".ini") (lower f) then
        let file_path := path_join dirpath f in
        disabled ← is_disabled_file file_path;
        found ← collect_dir dirpath rest process_disabled;
        mret (if negb disabled || process_disabled
              then file_path :: found else found)
      else collect_dir dirpath rest process_disabled
  end.

Fixpoint collect (walk : list (text * list text)) (patterns : list text)
    (process_disabled scan_subfolders : bool) : io (list text) :=
  match walk with
  | [] => mret []
  | (dirpath, filenames) :: rest =>
      if should_exclude dirpath patterns
      then collect rest patterns process_disabled scan_subfolders
      else
        found ← collect_dir dirpath filenames process_disabled;
        if negb scan_subfolders then mret found
        else
          more ← collect rest patterns process_disabled scan_subfolders;
          mret (found ++ more)
  end.

End Engine.

(** ** Notions for the statements

    [matched r i u rest g g']: at position [i], with [rest] following, the
    expression [r] can consume [u], taking the captured group from [g] to
    [g']. *)
Fixpoint matched (r : regex) (i : nat) (u rest : text) (g g' : option text)
    : Prop :=
  match r with
  | Eps => u = [] ∧ g' = g
  | Bol => u = [] ∧ i = 0%nat ∧ g' = g
  | Eol => u = [] ∧ (rest = [] ∨ rest = [LF]) ∧ g' = g
  | Lit x => ∃ c, u = [c] ∧ lit_ic x c = true ∧ g' = g
  | Cls p => ∃ c, u = [c] ∧ p c = true ∧ g' = g
  | Star p => forallb p u = true ∧ g' = g
  | Cat r1 r2 =>
      ∃ u1 u2 g1, u = u1 ++ u2 ∧ matched r1 i u1 (u2 ++ rest) g g1
                  ∧ matched r2 (i + length u1) u2 rest g1 g'
  | Alt r1 r2 => matched r1 i u rest g g' ∨ matched r2 i u rest g g'
  | Grp r1 => (∃ g1, matched r1 i u rest g g1) ∧ g' = Some u
  end.

(** The longest prefix whose characters all satisfy [p]. *)
Fixpoint take_while (p : char -> bool) (s : text) : text :=
  match s with
  | [] => []
  | c :: s' => if p c then c :: take_while p s' else []
  end.

(** A text equals a literal of the pattern up to case. *)
Definition ic_eq (x : string) (t : text) : Prop :=
  Forall2 (fun a c => lit_ic a c = true) (str x) t.

(** Several things printed at once. *)
Definition emits (os : list output) (w : world) : world :=
  World (files w) (readonly w) (stdin w) (trace w) (console w ++ os).

(** What the preview step prints. *)
Definition preview_out (preview : bool) (p : text) (cl : list change)
    : list output :=
  if preview then PreviewHeader p :: List.map PreviewLine cl else [].

(** A marker without line endings. *)
Definition no_eol (m : text) : Prop := Forall (λ c, c ≠ CR ∧ c ≠ LF) m.

(** The shape of what [splitlines] returns: every line is a body without
    line boundaries followed by one terminator; only the last line may
    lack the terminator, and is then not empty.  A line that ends in a
    lone CR is not followed by a line that starts with LF. *)
Definition no_break (body : text) : Prop :=
  Forall (λ c, is_linebreak c = false) body.

Inductive is_term : text -> Prop :=
| term_one c : is_linebreak c = true -> is_term [c]
| term_crlf : is_term [CR; LF].

Inductive wf_lines : list text -> Prop :=
| wf_nil : wf_lines []
| wf_last body : body ≠ [] -> no_break body -> wf_lines [body]
| wf_cons body term rest :
    no_break body -> is_term term -> wf_lines rest ->
    (term = [CR] -> head (concat rest) ≠ Some LF) ->
    wf_lines ((body ++ term) :: rest).

(** The marker of a disabled file. *)
Definition DISABLED : text := str "DISABLED".

(** The specification's words for texts: a text occurs in another; a text
    is another one written in some mix of upper and lower case (of the
    ASCII letters); a text occurs in another in any case; a text is
    ASCII. *)
Definition occurs_in (p s : text) : Prop := ∃ pre post, s = pre ++ p ++ post.

Definition any_case (x u : text) : Prop :=
  Forall2 (λ a c, ascii_lower c = ascii_lower a) x u.

Definition occurs_any_case (x s : text) : Prop :=
  ∃ pre u post, s = pre ++ u ++ post ∧ any_case x u.

Definition is_ascii_text (s : text) : Prop := Forall (λ c, c < 0x80) s.

(** The specification's notion of a disabled file: its name contains
    [disabled] in any case, or its content contains the marker. *)
Definition disabled_in_words (w : world) (p : text) : Prop :=
  occurs_any_case (str "disabled") (basename p)
  ∨ ∃ t, files w !! p = Some (Text t) ∧ occurs_in (str "DISABLED") t.

(** Two lowered characters that differ at most in the form of a small
    sigma. *)
Definition sigma_form (x : char) : Prop := x = 0x3C2 ∨ x = 0x3C3.

Definition same_but_sigma (x y : char) : Prop :=
  x = y ∨ (sigma_form x ∧ sigma_form y).

(** The world after a successful backup. *)
Definition backed_up (p : text) (d : fdata) (w : world) : world :=
  emit (BackupSaved (backup_path p))
    (log (EvCopy p (backup_path p))
       (set_files (<[backup_path p := d]> (files w)) w)).

(** The world after the file has been written. *)
Definition written (p : text) (nl : list text) (w : world) : world :=
  log (EvWrite p) (set_files (<[p := Text (concat nl)]> (files w)) w).

(** What a call may do to one path: put new content there, or nothing. *)
Definition touch (k : text) (o : option fdata) (m : gmap text fdata)
    : gmap text fdata :=
  match o with
  | Some d => <[k := d]> m
  | None => m
  end.

Section Notions.
Variable uni_alnum : char -> bool.
Variable uni_decimal : char -> bool.
Variable uni_cased : char -> bool.
Variable uni_ignorable : char -> bool.
Variable uni_lower : char -> text.

Abbreviation is_word := (is_word uni_alnum).
Abbreviation is_digit := (is_digit uni_decimal).
Abbreviation is_dot_word := (is_dot_word uni_alnum).
Abbreviation pattern := (pattern uni_alnum uni_decimal).
Abbreviation lower := (lower uni_cased uni_ignorable uni_lower).

(** The shape of a resource identifier and of a line the pattern
    accepts, read off the pattern. *)
Definition is_resource (rhs : text) : Prop :=
  ∃ a w1 b w2 suf ext,
    rhs = a ++ w1 ++ b ++ w2 ++ suf ++ ext
    ∧ ic_eq "Resource" a ∧ forallb is_word w1 = true
    ∧ ic_eq "Face" b ∧ forallb is_word w2 = true
    ∧ (ic_eq "Diffuse" suf ∨ ic_eq "NormalMap" suf)
    ∧ forallb is_dot_word ext = true.

Definition ps_line (s indent rhs : text) : Prop :=
  ∃ ps digits ws1 ws2 tail,
    s = indent ++ ps ++ digits ++ ws1 ++ [0x3D] ++ ws2 ++ rhs ++ tail
    ∧ forallb is_space indent = true
    ∧ ic_eq "ps-t" ps
    ∧ digits ≠ [] ∧ forallb is_digit digits = true
    ∧ forallb is_space ws1 = true ∧ forallb is_space ws2 = true
    ∧ is_resource rhs
    ∧ forallb is_space tail = true.

(** The loop body as a function of the line, and the Matches of a list
    of lines numbered from [idx]. *)
Definition rewritten (line : text) (m : option text) : text :=
  take_while is_space line ++ str "this = " ++ group1 m ++ [LF].

Definition new_line (line : text) : text :=
  match re_match pattern (rstrip_nl line) with
  | Some m => rewritten line m
  | None => line
  end.

Fixpoint changes_from (idx : nat) (lines : list text) : list change :=
  match lines with
  | [] => []
  | line :: rest =>
      match re_match pattern (rstrip_nl line) with
      | Some m =>
          (idx, rstrip_nl line, rstrip_nl (rewritten line m))
            :: changes_from (S idx) rest
      | None => changes_from (S idx) rest
      end
  end.

(** What [is_disabled_file] answers, as a function of the world: the
    lowered name contains [disabled], or the content contains the marker
    (a file that is missing or does not decode has no text to contain
    it). *)
Definition disabled_by_spec (w : world) (p : text) : bool :=
  contains (str "disabled") (lower (basename p))
  || match files w !! p with
     | Some (Text t) => contains DISABLED t
     | _ => false
     end.

(** The specification's words for a pattern that matches a path: the
    pattern with its wildcard characters removed occurs, whatever the
    case, in the path with [/] for its separators. *)
Definition remove_wildcards (pattern : text) : text :=
  List.filter (λ c, negb (is_star c)) pattern.

Definition excluded_by_spec (path pattern : text) : bool :=
  contains (lower (remove_wildcards pattern))
    (lower (replace_chr 0x5C SEP path)).

(** What [get_exclusion_patterns] makes of a folder name. *)
Definition wrap (line : text) : text :=
  [STAR] ++ strip_by is_space line ++ [STAR].

Definition blank (line : text) : Prop := strip_by is_space line = [].

End Notions.

Section MoreNotions.
Variable uni_alnum : char -> bool.
Variable uni_decimal : char -> bool.

(** Whether the loop of [smart_replace] takes the line for a match. *)
Definition accepts (line : text) : bool :=
  match re_match (pattern uni_alnum uni_decimal) (rstrip_nl line) with
  | Some _ => true
  | None => false
  end.

(** The candidate list of the file-collecting loop, written as a
    comprehension: the directories the loop visits, their [.ini] files as
    paths, and of these the ones that are not disabled (all of them when
    disabled files are processed). *)
Variable uni_cased : char -> bool.
Variable uni_ignorable : char -> bool.
Variable uni_lower : char -> text.

Definition ini_paths (dirpath : text) (filenames : list text) : list text :=
  List.map (path_join dirpath)
    (List.filter (λ f, ends_with (str ".ini") (lower uni_cased uni_ignorable uni_lower f)) filenames).

Fixpoint visited (walk : list (text * list text)) (patterns : list text)
    (scan_subfolders : bool) : list (text * list text) :=
  match walk with
  | [] => []
  | (dirpath, filenames) :: rest =>
      if should_exclude uni_cased uni_ignorable uni_lower dirpath patterns
      then visited rest patterns scan_subfolders
      else if scan_subfolders
           then (dirpath, filenames) :: visited rest patterns scan_subfolders
           else [(dirpath, filenames)]
  end.

Definition candidates (w : world) (walk : list (text * list text))
    (patterns : list text) (process_disabled scan_subfolders : bool)
    : list text :=
  List.filter
    (λ q, negb (disabled_by_spec uni_cased uni_ignorable uni_lower w q) || process_disabled)
    (flat_map (λ d, ini_paths d.1 d.2) (visited walk patterns scan_subfolders)).
End MoreNotions.

(** ** The preview pass of [main] (FaceFixV0.7.9.py)

    The loop that calls [smart_replace] with the preview on and the
    apply flag left at its default, and keeps the files that change. *)
Section PreviewPass.
Variable uni_alnum : char -> bool.
Variable uni_decimal : char -> bool.

Fixpoint preview_pass (ini_files : list text)
    (make_backup process_disabled : bool) : io (list text) :=
  match ini_files with
  | [] => mret []
  | ini_file :: rest =>
      '(changed, _) ← smart_replace uni_alnum uni_decimal ini_file make_backup
                        true false process_disabled;
      files_to_modify ← preview_pass rest make_backup process_disabled;
      mret (if changed : bool then ini_file :: files_to_modify
            else files_to_modify)
  end.

(** Whether a file, as the world has it, is one the engine would change:
    readable, not held back by the marker, with a line the loop accepts. *)
Definition needs_change (w : world) (process_disabled : bool) (p : text)
    : bool :=
  match files w !! p with
  | Some (Text t) =>
      negb (contains DISABLED t && negb process_disabled)
      && existsb (accepts uni_alnum uni_decimal)
           (splitlines (universal_newlines t))
  | _ => false
  end.
End PreviewPass.

(** ** The engine of the older variants (FaceFixV7.3.py)

    It reads with [readlines], knows the four named suffixes only, has no
    apply flag and no marker check: after the preview it goes on to the
    backup and the write. *)

(** [f.readlines()] on the text as read: a line ends after each LF. *)
Fixpoint readlines (s : text) : list text :=
  match s with
  | [] => []
  | c :: s' =>
      if c =? LF then [c] :: readlines s'
      else
        match readlines s' with
        | [] => [[c]]
        | l :: ls => (c :: l) :: ls
        end
  end.

Section EngineV7.
Variable uni_alnum : char -> bool.
Variable uni_decimal : char -> bool.

Definition resource_re_v7 : regex :=
  seq_re [ lits "Resource"; Star (is_word uni_alnum);
           Alt (lits "FaceDiffuse")
             (Alt (lits "FaceHeadDiffuse")
                (Alt (lits "FaceHeadNormalMap") (lits "FaceNormalMap")));
           Opt (Star (is_dot_word uni_alnum)) ].

Definition pattern_v7 : regex :=
  seq_re [ Bol; Star is_space; lits "ps-t"; Plus (is_digit uni_decimal);
           Star is_space; Lit 0x3D; Star is_space; Grp resource_re_v7;
           Star is_space; Eol ].

(** The body of the loop over the lines, and the loop. *)
Definition scan_step_v7 (acc : list text * list change) (il : nat * text)
    : list text * list change :=
  let '(new_lines, changed_lines) := acc in
  let '(idx, line) := il in
  match re_match pattern_v7 (rstrip_nl line) with
  | Some m =>
      let rhs := group1 m in
      let indent :=
        match re_match indent_re line with
        | Some m' => group1 m'
        | None => []
        end in
      let new_line := indent ++ str "this = " ++ rhs ++ [LF] in
      (new_lines ++ [new_line],
       changed_lines ++ [(idx, rstrip_nl line, rstrip_nl new_line)])
  | None => (new_lines ++ [line], changed_lines)
  end.

Definition scan_v7 (lines : list text) : list text * list change :=
  fold_left scan_step_v7 (enumerate 1 lines) ([], []).

Definition smart_replace_v73_try (file_path : text)
    (make_backup preview : bool) : io (bool * list change) :=
  content ← read_text file_path;
  let lines := readlines content in
  let '(new_lines, changed_lines) := scan_v7 lines in
  if is_nil changed_lines then mret (false, [])
  else
    when preview
      (print (PreviewHeader file_path);;
       for_each changed_lines (fun c => print (PreviewLine c)));;
    when make_backup
      (let backup := backup_path file_path in
       copyfile file_path backup;;
       print (BackupSaved backup));;
    write_lines file_path new_lines;;
    mret (true, changed_lines).

Definition smart_replace_v73 (file_path : text) (make_backup preview : bool)
    : io (bool * list change) :=
  try_except (smart_replace_v73_try file_path make_backup preview)
    (fun e => print (ErrorProcessing file_path e);; mret (false, [])).

(** The two loops of [main] over the files: the one called the preview
    and the one called the apply differ in the preview flag only; each
    keeps the files for which the call returned [True]. *)
Fixpoint pass_v73 (ini_files : list text) (make_backup preview : bool)
    : io (list text) :=
  match ini_files with
  | [] => mret []
  | ini_file :: rest =>
      '(changed, _) ← smart_replace_v73 ini_file make_backup preview;
      others ← pass_v73 rest make_backup preview;
      mret (if changed : bool then ini_file :: others else others)
  end.

(** The engine of FaceFixV6.py: the same loop; no flags; the backup goes
    to the file's path followed by the time of day.  [timestamp] is what
    [datetime.now().strftime("%Y%m%d_%H%M%S")] gives at that moment. *)
Definition backup_path_v6 (timestamp file_path : text) : text :=
  file_path ++ str "." ++ timestamp ++ str ".txt".

Definition smart_replace_v6_try (timestamp file_path : text) : io bool :=
  content ← read_text file_path;
  let lines := readlines content in
  let '(new_lines, changed_lines) := scan_v7 lines in
  let replaced := length changed_lines in
  if (0 <? replaced)%nat then
    let backup_path := backup_path_v6 timestamp file_path in
    copyfile file_path backup_path;;
    write_lines file_path new_lines;;
    print (Changed file_path replaced);;
    print (BackupSaved backup_path);;
    for_each changed_lines (fun c => print (PreviewLine c));;
    mret true
  else
    print (NoMatch file_path);;
    mret false.

Definition smart_replace_v6 (timestamp file_path : text) : io bool :=
  try_except (smart_replace_v6_try timestamp file_path)
    (fun e => print (ErrorProcessing file_path e);; mret false).

(** The line the loop puts for [line], and the Matches from [idx] on. *)
Definition new_line_v7 (line : text) : text :=
  match re_match pattern_v7 (rstrip_nl line) with
  | Some m => rewritten line m
  | None => line
  end.

Fixpoint changes_from_v7 (idx : nat) (lines : list text) : list change :=
  match lines with
  | [] => []
  | line :: rest =>
      match re_match pattern_v7 (rstrip_nl line) with
      | Some m =>
          (idx, rstrip_nl line, rstrip_nl (rewritten line m))
            :: changes_from_v7 (S idx) rest
      | None => changes_from_v7 (S idx) rest
      end
  end.

(** A file the older engine leaves alone: it does not read, or none of its
    lines matches. *)
Definition settled_v7 (w : world) (p : text) : Prop :=
  ∀ t, files w !! p = Some (Text t) ->
       (scan_v7 (readlines (universal_newlines t))).2 = [].
End EngineV7.

(** ** The exclusion test of FaceFixV0.7.6.py

    A pattern that ends in [.bak] is matched as a glob against the whole
    path, any other pattern as in the later versions.  [fnmatch] stands
    for [fnmatch.fnmatch] of the library, on a platform whose [normcase]
    is the identity: [fnmatch name pat]. *)
Section ExclusionV076.
Variable uni_cased : char -> bool.
Variable uni_ignorable : char -> bool.
Variable uni_lower : char -> text.
Variable fnmatch : text -> text -> bool.

Fixpoint exclusion_loop (path : text) (exclusion_patterns : list text)
    : bool :=
  match exclusion_patterns with
  | [] => false
  | pattern :: rest =>
      if ends_with (str ".bak") pattern then
        if fnmatch (lower uni_cased uni_ignorable uni_lower path)
             (lower uni_cased uni_ignorable uni_lower pattern)
        then true
        else exclusion_loop path rest
      else
        if contains
             (lower uni_cased uni_ignorable uni_lower (strip_by is_star pattern))
             (lower uni_cased uni_ignorable uni_lower path)
        then true
        else exclusion_loop path rest
  end.

Definition should_exclude_v076 (path : text) (exclusion_patterns : list text)
    : bool :=
  if is_nil exclusion_patterns then false
  else exclusion_loop (replace_chr 0x5C SEP path) exclusion_patterns.
End ExclusionV076.

(** What [readlines] returns: lines without LF inside, each ended by LF
    except, possibly, a last one that is not empty. *)
Inductive lf_lines : list text -> Prop :=
| lf_nil : lf_lines []
| lf_last body : body ≠ [] -> Forall (λ c, c ≠ LF) body -> lf_lines [body]
| lf_cons body rest :
    Forall (λ c, c ≠ LF) body -> lf_lines rest ->
    lf_lines ((body ++ [LF]) :: rest).

(** ** A small tree for the examples

    A fragment of the runtime's tables (the Latin-1 letters, the Greek
    letters, the combining marks, the Arabic-Indic digits) and a folder
    with a few files. *)

Definition sample_alnum (c : char) : bool :=
  ((0xC0 <=? c) && (c <=? 0xFF) && negb (c =? 0xD7) && negb (c =? 0xF7))
  || ((0x660 <=? c) && (c <=? 0x669)).

Definition sample_decimal (c : char) : bool := (0x660 <=? c) && (c <=? 0x669).

Definition sample_lower (c : char) : text :=
  if (0xC0 <=? c) && (c <=? 0xDE) && negb (c =? 0xD7) then [c + 0x20]
  else if (0x391 <=? c) && (c <=? 0x3A9) then [c + 0x20]
  else [c].

Definition sample_cased (c : char) : bool :=
  ((0xC0 <=? c) && (c <=? 0xFF) && negb (c =? 0xD7) && negb (c =? 0xF7))
  || (c =? 0xAA) || (c =? 0xB5) || (c =? 0xBA)
  || ((0x391 <=? c) && (c <=? 0x3A9)) || ((0x3B1 <=? c) && (c <=? 0x3C9)).

Definition sample_ignorable (c : char) : bool :=
  (c =? 0xA8) || (c =? 0xAD) || (c =? 0xAF) || (c =? 0xB4) || (c =? 0xB7)
  || (c =? 0xB8) || ((0x300 <=? c) && (c <=? 0x36F)).

Definition face_ini : text := str "mods/face.ini".
Definition face_text : text :=
  str "[TextureOverrideFace]" ++ [CR; LF]
  ++ str "  ps-t0 = ResourceFaceDiffuse.normal" ++ [LF]
  ++ str "ps-t3=ResourceSomeFaceHeadNormalMap.1024".

Definition off_ini : text := str "mods/off.ini".
Definition off_text : text :=
  str "; DISABLED" ++ [LF] ++ str "ps-t1 = ResourceFaceNormalMap" ++ [LF].

Definition plain_ini : text := str "mods/plain.ini".
Definition named_ini : text := str "mods/myfile_DISABLED.ini".
Definition locked_ini : text := str "mods/locked.ini".
Definition missing_ini : text := str "mods/missing.ini".

Definition sample_world : world :=
  World
    (<[face_ini := Text face_text]>
       (<[off_ini := Text off_text]>
          (<[plain_ini := Text (str "x = 1" ++ [LF])]>
             (<[named_ini := Text (str "ps-t0 = ResourceFaceDiffuse")]>
                (<[locked_ini := Text (str "ps-t0 = ResourceFaceDiffuse" ++ [LF])]>
                   (<[str "mods/raw.ini" := Binary [0xFF; 0xFE]]> ∅))))))
    {[locked_ini]}
    [str " old "; str "a*b"; str "  "; str "later"]
    [] [].

Definition sample_walk : list (text * list text) :=
  [(str "mods", [str "face.ini"; str "myfile_DISABLED.ini"; str "off.ini";
                 str "plain.ini"; str "notes.txt"])].

(** The same folder when the backup of [face.ini] cannot be created and
    when the input ends without a blank line; the walk of a folder with
    one subfolder. *)
Definition guarded_world : world :=
  World (files sample_world) {[backup_path face_ini]} [] [] [].

Definition unended_world : world :=
  World (files sample_world) ∅ [str "old"; str "a*b"] [] [].

(** A standard output in an encoding without the dingbats, the arrows
    and the pictographs (cp1252, ASCII), for ASCII paths: the messages
    that carry U+274C, U+1F4BE, U+2192, U+2705 or U+2139 are refused. *)
Definition legacy_console (o : output) : bool :=
  match o with
  | PreviewHeader _ | Prompt _ => true
  | PreviewLine _ | BackupSaved _ | ErrorProcessing _ _
  | Changed _ _ | NoMatch _ => false
  end.

Definition nested_walk : list (text * list text) :=
  [(str "mods", [str "face.ini"; str "notes.txt"]);
   (str "mods/new", [str "next.ini"])].

(** The globs without bracket expressions, as [fnmatch] reads them: [*]
    stands for any run of characters, [?] for any one character, any
    other character for itself. *)
Fixpoint glob (pat : text) : text -> bool :=
  match pat with
  | [] => is_nil
  | c :: pat' =>
      if c =? STAR then
        fix try (name : text) : bool :=
          glob pat' name
          || match name with
             | [] => false
             | _ :: name' => try name'
             end
      else if c =? 0x3F then
        fun name => match name with
                    | [] => false
                    | _ :: name' => glob pat' name'
                    end
      else
        fun name => match name with
                    | [] => false
                    | d :: name' => (d =? c) && glob pat' name'
                    end
  end.

Definition sample_fnmatch (name pat : text) : bool := glob pat name.


(** * Properties *)

Lemma star_sound {A} p i s (k : nat -> text -> option A) a :
  star p i s k = Some a ->
  ∃ u rest, s = u ++ rest ∧ forallb p u = true
            ∧ k (i + length u)%nat rest = Some a.
Proof.
  revert i. induction s as [|c s IH]; intros i H; simpl in H.
  - exists [], []. simpl. rewrite Nat.add_0_r. auto.
  - destruct (p c) eqn:Hp.
    + destruct (star p (S i) s k) eqn:Hs.
      * injection H as <-. apply IH in Hs as (u & rest & -> & Hu & Hk).
        exists (c :: u), rest. simpl. rewrite Hp, Hu.
        replace (i + S (length u))%nat with (S i + length u)%nat by lia. auto.
      * exists [], (c :: s). simpl. rewrite Nat.add_0_r. auto.
    + exists [], (c :: s). simpl. rewrite Nat.add_0_r. auto.
Qed.

(** Greedy repetition in front of a continuation that cannot fail takes the
    whole run. *)
Lemma star_total {A} p i s (k : nat -> text -> option A) :
  (∀ j t, is_Some (k j t)) ->
  star p i s k
  = k (i + length (take_while p s))%nat (drop (length (take_while p s)) s).
Proof.
  intros Hk. revert i. induction s as [|c s IH]; intros i; simpl.
  - now rewrite Nat.add_0_r.
  - destruct (p c); simpl.
    + rewrite IH. destruct (Hk (S i + length (take_while p s))%nat
                             (drop (length (take_while p s)) s)) as [a Ha].
      rewrite Ha. rewrite <- Ha. f_equal. lia.
    + now rewrite Nat.add_0_r.
Qed.

Lemma exec_sound {A} r : ∀ i s g (k : cont) (a : A),
  exec r i s g k = Some a ->
  ∃ u rest g', s = u ++ rest ∧ matched r i u rest g g'
               ∧ k (i + length u)%nat rest g' = Some a.
Proof.
  induction r as [| | |x|p|p|r1 IH1 r2 IH2|r1 IH1 r2 IH2|r1 IH1];
    intros i s g k a H; simpl in H.
  - exists [], s, g. simpl. rewrite Nat.add_0_r. auto.
  - destruct (Nat.eqb_spec i 0); [|discriminate].
    exists [], s, g. simpl. rewrite Nat.add_0_r. auto.
  - exists [], s, g. simpl. rewrite Nat.add_0_r.
    destruct s as [|c [|d s]]; try discriminate; [tauto|].
    destruct (N.eqb_spec c LF); [subst; tauto|discriminate].
  - destruct s as [|c s]; [discriminate|].
    destruct (lit_ic x c) eqn:Hc; [|discriminate].
    exists [c], s, g. simpl. replace (i + 1)%nat with (S i) by lia. eauto 6.
  - destruct s as [|c s]; [discriminate|].
    destruct (p c) eqn:Hc; [|discriminate].
    exists [c], s, g. simpl. replace (i + 1)%nat with (S i) by lia. eauto 6.
  - apply star_sound in H as (u & rest & -> & Hu & Hk).
    exists u, rest, g. simpl. auto.
  - apply IH1 in H as (u1 & rest1 & g1 & -> & H1 & H).
    apply IH2 in H as (u2 & rest & g' & -> & H2 & H).
    exists (u1 ++ u2), rest, g'. rewrite <- app_assoc. split; [auto|].
    split.
    + simpl. exists u1, u2, g1. auto.
    + rewrite length_app, Nat.add_assoc. auto.
  - destruct (exec r1 i s g k) eqn:E1.
    + injection H as <-. apply IH1 in E1 as (u & rest & g' & -> & H1 & H).
      exists u, rest, g'. simpl. auto.
    + apply IH2 in H as (u & rest & g' & -> & H2 & H).
      exists u, rest, g'. simpl. auto.
  - apply IH1 in H as (u & rest & g1 & -> & H1 & H).
    exists u, rest, (Some u). simpl. split; [auto|]. split; [eauto|].
    replace (i + length u - i)%nat with (length u) in H by lia.
    now rewrite take_app_length in H.
Qed.

Lemma re_match_sound r s m :
  re_match r s = Some m ->
  ∃ u rest, s = u ++ rest ∧ matched r 0 u rest None m.
Proof.
  unfold re_match. intros H.
  apply exec_sound in H as (u & rest & g' & -> & H1 & H).
  injection H as <-. eauto.
Qed.

(** Boolean tests on code points as arithmetic facts. *)
Ltac unbool :=
  repeat match goal with
    | H : _ && _ = true |- _ => apply andb_prop in H as [? ?]
    | H : _ || _ = true |- _ => apply orb_prop in H as [?|?]
    | H : _ || _ = false |- _ => apply orb_false_elim in H as [? ?]
    | H : (_ =? _) = true |- _ => apply N.eqb_eq in H
    | H : (_ =? _) = false |- _ => apply N.eqb_neq in H
    | H : (_ <=? _) = true |- _ => apply N.leb_le in H
    | H : (_ <=? _) = false |- _ => apply N.leb_gt in H
    | H : (_ <? _) = true |- _ => apply N.ltb_lt in H
    | H : (_ <? _) = false |- _ => apply N.ltb_ge in H
    end.

Lemma ascii_lower_cases c :
  (is_ascii_upper c = true ∧ ascii_lower c = c + 0x20)
  ∨ (is_ascii_upper c = false ∧ ascii_lower c = c).
Proof. unfold ascii_lower. destruct (is_ascii_upper c); auto. Qed.

Lemma lit_ic_cases x c :
  lit_ic x c = true ->
  ascii_lower c = ascii_lower x
  ∨ (c = 0x130 ∨ c = 0x131 ∨ c = 0x17F ∨ c = 0x212A).
Proof. unfold lit_ic. intros H. unbool; auto. Qed.

(** A literal that is not a letter matches itself only; [p] and [t] match
    their two cases. *)
Lemma lit_ic_eq c : lit_ic 0x3D c = true -> c = 0x3D.
Proof.
  unfold lit_ic. change (ascii_lower 0x3D) with 0x3D. simpl.
  rewrite !orb_false_r. intros H%N.eqb_eq.
  destruct (ascii_lower_cases c) as [[Hu E]|[Hu E]]; rewrite E in H;
    unfold is_ascii_upper in Hu; [unbool; lia | auto].
Qed.

Lemma lit_ic_p c : lit_ic 0x70 c = true -> c = 0x70 ∨ c = 0x50.
Proof.
  unfold lit_ic. change (ascii_lower 0x70) with 0x70. simpl.
  rewrite !orb_false_r. intros H%N.eqb_eq.
  destruct (ascii_lower_cases c) as [[Hu E]|[Hu E]]; rewrite E in H;
    [right; lia | auto].
Qed.

Lemma lit_ic_not_space c : lit_ic 0x70 c = true -> is_space c = false.
Proof. intros [->| ->]%lit_ic_p; reflexivity. Qed.

(** ** [rstrip], [take_while] *)

Lemma rstrip_nl_spec s : ∃ n, s = rstrip_nl s ++ repeat LF n.
Proof.
  induction s as [|c s [n IH]]; [now exists 0%nat|]. simpl.
  destruct (rstrip_nl s) as [|d r] eqn:E.
  - destruct (N.eqb_spec c LF) as [->|_].
    + exists (S n). simpl in *. now f_equal.
    + exists n. simpl in *. now f_equal.
  - exists n. rewrite IH at 1. reflexivity.
Qed.

Lemma rstrip_nl_no_lf s t : rstrip_nl s ≠ t ++ [LF].
Proof.
  revert t. induction s as [|c s IH]; intros t; simpl.
  - now destruct t.
  - destruct (rstrip_nl s) as [|d r] eqn:E.
    + destruct (N.eqb_spec c LF) as [->|Hc]; [now destruct t|].
      destruct t as [|? [|? ?]]; simpl; congruence.
    + destruct t as [|e t]; simpl; [destruct r; discriminate|].
      intros [= -> H]. now apply IH in H.
Qed.

Lemma take_while_all p s : forallb p (take_while p s) = true.
Proof. induction s as [|c s IH]; simpl; [auto|]. destruct (p c) eqn:E; simpl; [now rewrite E|auto]. Qed.

Lemma take_take_while p s : take (length (take_while p s)) s = take_while p s.
Proof. induction s as [|c s IH]; simpl; [auto|]. destruct (p c); simpl; [now f_equal|auto]. Qed.

Lemma take_while_app_stop p u c t :
  forallb p u = true -> p c = false -> take_while p (u ++ c :: t) = u.
Proof.
  induction u as [|d u IH]; simpl; intros Hu Hc; [now rewrite Hc|].
  apply andb_prop in Hu as [Hd Hu]. rewrite Hd. f_equal. auto.
Qed.

(** The leading-whitespace pattern always matches, and its group is the
    whole leading whitespace run. *)
Lemma indent_re_match line :
  re_match indent_re line = Some (Some (take_while is_space line)).
Proof.
  unfold re_match, indent_re. simpl.
  rewrite (star_total is_space 0 line) by eauto.
  rewrite Nat.add_0_l, Nat.sub_0_r. now rewrite take_take_while.
Qed.

Lemma matched_lit_list l : ∀ i u rest g g',
  matched (seq_re (List.map Lit l)) i u rest g g' ->
  Forall2 (fun a c => lit_ic a c = true) l u ∧ g' = g.
Proof.
  induction l as [|x l IH]; intros i u rest g g'; simpl.
  - intros [-> ->]. split; [constructor|auto].
  - intros (u1 & u2 & g1 & -> & (c & -> & Hc & ->) & H2).
    apply IH in H2 as [H2 ->]. split; [|auto]. simpl. now constructor.
Qed.

Lemma matched_lits x i u rest g g' :
  matched (lits x) i u rest g g' -> ic_eq x u ∧ g' = g.
Proof. apply matched_lit_list. Qed.

Lemma rstrip_nl_snoc s c :
  rstrip_nl (s ++ [c]) = if c =? LF then rstrip_nl s else s ++ [c].
Proof.
  induction s as [|d s IH]; simpl.
  - now destruct (c =? LF).
  - rewrite IH. destruct (N.eqb_spec c LF) as [E|Hc]; [reflexivity|].
    now destruct s.
Qed.

Lemma rstrip_nl_line x y :
  y ≠ [] -> Forall (λ c, c ≠ LF) y -> rstrip_nl (x ++ y ++ [LF]) = x ++ y.
Proof.
  intros Hy Hall. rewrite app_assoc, rstrip_nl_snoc. simpl.
  destruct (exists_last Hy) as (y' & c & ->).
  apply Forall_app in Hall as [_ Hc]. rewrite Forall_singleton in Hc.
  rewrite app_assoc, rstrip_nl_snoc.
  destruct (N.eqb_spec c LF); [exfalso; now apply Hc|].
  now rewrite <- app_assoc.
Qed.

Lemma ic_eq_chars (P : char -> Prop) x a :
  Forall (λ y, ∀ c, lit_ic y c = true -> P c) (str x) ->
  ic_eq x a -> Forall P a.
Proof.
  unfold ic_eq. generalize (str x). intros l Hl H.
  induction H as [|y c l a Hc H IH]; [constructor|].
  apply Forall_cons in Hl as [Hy Hl]. constructor; auto.
Qed.

Lemma ic_eq_length x a : ic_eq x a -> length a = length (str x).
Proof. intros H. symmetry. eapply Forall2_length, H. Qed.

Lemma forallb_Forall_impl (p : char -> bool) (P : char -> Prop) l :
  (∀ c, p c = true -> P c) -> forallb p l = true -> Forall P l.
Proof.
  intros Hp. induction l as [|c l IH]; simpl; [constructor|].
  intros [Hc Hl]%andb_prop. constructor; auto.
Qed.

(** ** Paths *)

Lemma rfind_from_spec c s : ∀ i acc j,
  rfind_from c i s acc = Some j ->
  acc = Some j ∨ ((i <= j)%nat ∧ s !! (j - i)%nat = Some c).
Proof.
  induction s as [|d s IH]; intros i acc j H; simpl in H; [auto|].
  apply IH in H as [H|[Hle H]].
  - destruct (N.eqb_spec d c) as [->|_]; [|auto].
    injection H as <-. right. rewrite Nat.sub_diag. auto.
  - right. split; [lia|].
    replace (j - i)%nat with (S (j - S i)) by lia. exact H.
Qed.

Lemma rfind_spec c s j : rfind c s = Some j -> s !! j = Some c.
Proof.
  intros [H|[_ H]]%rfind_from_spec; [discriminate|].
  now rewrite Nat.sub_0_r in H.
Qed.

Lemma splitext_spec p root ext :
  splitext p = (root, ext) ->
  p = root ++ ext ∧ (ext = [] ∨ ∃ e, ext = DOT :: e).
Proof.
  unfold splitext. destruct (rfind DOT p) as [dotIndex|] eqn:E.
  - destruct (_ && _).
    + intros [= <- <-]. split; [now rewrite take_drop|].
      right. apply rfind_spec in E. exists (drop (S dotIndex) p).
      now apply drop_S.
    + intros [= <- <-]. split; [now rewrite app_nil_r|auto].
  - intros [= <- <-]. split; [now rewrite app_nil_r|auto].
Qed.

Lemma rfind_from_absent c s : ∀ i acc,
  Forall (λ d, d ≠ c) s -> rfind_from c i s acc = acc.
Proof.
  induction s as [|d s IH]; intros i acc H; [reflexivity|].
  apply Forall_cons in H as [Hd Hs]. simpl.
  destruct (N.eqb_spec d c); [contradiction|]. auto.
Qed.

Lemma rfind_from_last c x f : ∀ i acc,
  Forall (λ d, d ≠ c) f ->
  rfind_from c i (x ++ c :: f) acc = Some (i + length x)%nat.
Proof.
  induction x as [|d x IH]; intros i acc Hf; simpl.
  - rewrite N.eqb_refl, rfind_from_absent by auto. f_equal. lia.
  - rewrite IH by auto. f_equal. lia.
Qed.

(** The extension of a name in a directory: what follows the last dot
    of the name, when the name does not start with that dot. *)
Lemma splitext_named d a stem ext :
  a ≠ DOT -> Forall (λ c, c ≠ SEP) (a :: stem) ->
  Forall (λ c, c ≠ DOT ∧ c ≠ SEP) ext ->
  splitext (d ++ SEP :: (a :: stem) ++ DOT :: ext)
  = (d ++ SEP :: a :: stem, DOT :: ext).
Proof.
  intros Ha Hstem Hext.
  assert (E1 : rfind SEP (d ++ SEP :: (a :: stem) ++ DOT :: ext)
               = Some (length d)).
  { unfold rfind. rewrite rfind_from_last; [reflexivity|].
    apply Forall_app. split; [exact Hstem|].
    constructor; [discriminate|].
    eapply Forall_impl; [exact Hext|]. now intros c [_ H]. }
  assert (E2 : rfind DOT (d ++ SEP :: (a :: stem) ++ DOT :: ext)
               = Some (length (d ++ SEP :: a :: stem))).
  { change (d ++ SEP :: (a :: stem) ++ DOT :: ext)
      with (d ++ (SEP :: a :: stem) ++ DOT :: ext).
    rewrite app_assoc. unfold rfind. rewrite rfind_from_last; [reflexivity|].
    eapply Forall_impl; [exact Hext|]. now intros c [H _]. }
  unfold splitext. rewrite E1, E2. simpl after.
  rewrite length_app. cbn [length].
  replace (S (length d) <=? length d + S (S (length stem)))%nat with true
    by (symmetry; apply Nat.leb_le; lia).
  replace (length d + S (S (length stem)) - S (length d))%nat
    with (S (length stem)) by lia.
  replace (drop (S (length d)) (d ++ SEP :: (a :: stem) ++ DOT :: ext))
    with ((a :: stem) ++ DOT :: ext)
    by (replace (S (length d)) with (length d + 1)%nat by lia;
        rewrite <- drop_drop, drop_app_length; reflexivity).
  cbn [app take forallb]. destruct (N.eqb_spec a DOT) as [E|_]; [contradiction|].
  cbn [andb negb]. f_equal.
  - change (d ++ SEP :: a :: stem ++ DOT :: ext)
      with (d ++ (SEP :: a :: stem) ++ DOT :: ext).
    rewrite app_assoc.
    replace (length d + S (S (length stem)))%nat
      with (length (d ++ SEP :: a :: stem))
      by (rewrite length_app; reflexivity).
    apply take_app_length.
  - change (d ++ SEP :: a :: stem ++ DOT :: ext)
      with (d ++ (SEP :: a :: stem) ++ DOT :: ext).
    rewrite app_assoc.
    replace (length d + S (S (length stem)))%nat
      with (length (d ++ SEP :: a :: stem))
      by (rewrite length_app; reflexivity).
    apply drop_app_length.
Qed.

Lemma backup_path_v6_neq timestamp p : backup_path_v6 timestamp p ≠ p.
Proof.
  unfold backup_path_v6. intros H. apply (f_equal length) in H.
  rewrite !length_app in H. simpl in H. lia.
Qed.

(** The backup never lands on the file itself. *)
Lemma backup_path_neq p : backup_path p ≠ p.
Proof.
  unfold backup_path. destruct (splitext p) as [root ext] eqn:E.
  apply splitext_spec in E as [-> Hext]. simpl. intros H.
  apply app_inv_head in H. destruct Hext as [->|[e ->]]; discriminate.
Qed.

(** ** Consequences of the world operations *)

Lemma emits_nil w : emits [] w = w.
Proof. destruct w. unfold emits. simpl. now rewrite app_nil_r. Qed.

Lemma emits_emits os os' w : emits os' (emits os w) = emits (os ++ os') w.
Proof. unfold emits. simpl. now rewrite app_assoc. Qed.

Lemma for_each_print {A} (f : A -> output) l w :
  for_each l (λ a, print (f a)) w = (inr tt, emits (List.map f l) w).
Proof.
  revert w. induction l as [|a l IH]; intros w; simpl.
  - now rewrite emits_nil.
  - unfold mbind, io_bind, print. simpl. rewrite IH.
    unfold emit, emits. simpl. now rewrite <- app_assoc.
Qed.

Lemma print_bind {B} o (k : io B) w : (print o;; k) w = k (emit o w).
Proof. reflexivity. Qed.

Lemma bind_run {A B} (m : io A) (f : A -> io B) w :
  (m ≫= f) w
  = match m w with
    | (inr a, w') => f a w'
    | (inl e, w') => (inl e, w')
    end.
Proof. reflexivity. Qed.

Lemma preview_run preview p cl w :
  when preview
    (print (PreviewHeader p);; for_each cl (λ c, print (PreviewLine c))) w
  = (inr tt, emits (preview_out preview p cl) w).
Proof.
  destruct preview; simpl.
  - rewrite print_bind, for_each_print.
    unfold emit, emits. simpl. now rewrite <- app_assoc.
  - unfold mret, io_ret. now rewrite emits_nil.
Qed.

Lemma copyfile_run src dst d w :
  src ≠ dst -> files w !! src = Some d -> dst ∉ readonly w ->
  copyfile src dst w
  = (inr tt, log (EvCopy src dst) (set_files (<[dst := d]> (files w)) w)).
Proof.
  intros Hne Hf Hd. unfold copyfile.
  destruct (decide (src = dst)); [contradiction|]. rewrite Hf.
  now destruct (decide (dst ∈ readonly w)).
Qed.

Lemma write_lines_run p lines w :
  p ∉ readonly w -> write_lines p lines w = (inr tt, written p lines w).
Proof.
  intros Hp. unfold write_lines. now destruct (decide (p ∈ readonly w)).
Qed.

(** ** Universal newlines leave a marker without line endings alone *)

Lemma universal_newlines_cons c t :
  c ≠ CR -> universal_newlines (c :: t) = c :: universal_newlines t.
Proof. intros H. simpl. now destruct (N.eqb_spec c CR). Qed.

Lemma starts_with_universal m : ∀ t,
  no_eol m -> starts_with m (universal_newlines t) = starts_with m t.
Proof.
  induction m as [|a m IH]; intros t Hm; [now destruct (universal_newlines t), t|].
  apply Forall_cons in Hm as [[Hcr Hlf] Hm].
  destruct t as [|c t]; [reflexivity|].
  destruct (N.eqb_spec c CR) as [->|Hc].
  - simpl. destruct (N.eqb_spec a LF); [contradiction|].
    destruct (N.eqb_spec a CR); [contradiction|]. reflexivity.
  - rewrite universal_newlines_cons by auto. simpl. now rewrite IH.
Qed.

Lemma starts_with_head a m c t : a ≠ c -> starts_with (a :: m) (c :: t) = false.
Proof. intros H. simpl. now destruct (N.eqb_spec a c). Qed.

Lemma contains_cons_ne a m c t :
  a ≠ c -> contains (a :: m) (c :: t) = contains (a :: m) t.
Proof.
  intros H.
  change (contains (a :: m) (c :: t))
    with (starts_with (a :: m) (c :: t) || contains (a :: m) t).
  now rewrite starts_with_head.
Qed.

Lemma universal_newlines_crlf t :
  universal_newlines (CR :: LF :: t) = LF :: universal_newlines t.
Proof. reflexivity. Qed.

Lemma universal_newlines_cr d t :
  d ≠ LF ->
  universal_newlines (CR :: d :: t) = LF :: universal_newlines (d :: t).
Proof.
  intros H.
  change (universal_newlines (CR :: d :: t))
    with (LF :: if d =? LF then universal_newlines t
                else universal_newlines (d :: t)).
  now destruct (N.eqb_spec d LF).
Qed.

Lemma contains_universal a m t :
  no_eol (a :: m) ->
  contains (a :: m) (universal_newlines t) = contains (a :: m) t.
Proof.
  intros Hm. assert (Hm' := Hm). apply Forall_cons in Hm' as [[Hcr Hlf] _].
  remember (length t) as n eqn:Hn. assert (Hle : (length t <= n)%nat) by lia.
  clear Hn. revert t Hle.
  induction n as [|n IH]; intros t Hle.
  - destruct t; [reflexivity|simpl in Hle; lia].
  - destruct t as [|c t]; [reflexivity|]. simpl in Hle.
    destruct (N.eqb_spec c CR) as [->|Hc].
    + destruct t as [|d t].
      * change (universal_newlines [CR]) with [LF].
        now rewrite !contains_cons_ne by auto.
      * destruct (N.eqb_spec d LF) as [->|Hd].
        -- rewrite universal_newlines_crlf, !contains_cons_ne by auto.
           apply IH. simpl in Hle. lia.
        -- rewrite universal_newlines_cr, !contains_cons_ne by auto.
           apply IH. simpl in *. lia.
    + rewrite universal_newlines_cons by auto.
      change (contains (a :: m) (c :: t))
        with (starts_with (a :: m) (c :: t) || contains (a :: m) t).
      change (contains (a :: m) (c :: universal_newlines t))
        with (starts_with (a :: m) (c :: universal_newlines t)
              || contains (a :: m) (universal_newlines t)).
      rewrite IH by lia. f_equal.
      rewrite <- (universal_newlines_cons c t) by auto.
      now apply starts_with_universal.
Qed.

Lemma lookup_map {A B} (f : A -> B) l i : List.map f l !! i = f <$> l !! i.
Proof.
  revert i. induction l as [|a l IH]; intros [|i]; simpl; auto.
Qed.

Lemma is_term_breaks term : is_term term -> Forall (λ c, is_linebreak c = true) term.
Proof. intros [c Hc|]; repeat constructor; auto. Qed.

Lemma splitlines_cons c s :
  splitlines (c :: s)
  = if is_linebreak c then
      match s with
      | d :: s'' =>
          if (c =? CR) && (d =? LF) then [c; d] :: splitlines s''
          else [c] :: splitlines s
      | [] => [[c]]
      end
    else
      match splitlines s with
      | [] => [[c]]
      | l :: ls => (c :: l) :: ls
      end.
Proof. reflexivity. Qed.

Lemma concat_splitlines s : concat (splitlines s) = s.
Proof.
  remember (length s) as n eqn:Hn. assert (Hle : (length s <= n)%nat) by lia.
  clear Hn. revert s Hle.
  induction n as [|n IH]; intros [|c s] Hle; try reflexivity;
    [simpl in Hle; lia|].
  cbn [length] in Hle. rewrite splitlines_cons.
  destruct (is_linebreak c).
  - destruct s as [|d s]; [reflexivity|].
    destruct ((c =? CR) && (d =? LF)); cbn [concat app].
    + f_equal. f_equal. apply IH. cbn [length] in Hle. lia.
    + f_equal. apply IH. lia.
  - destruct (splitlines s) as [|l ls] eqn:E.
    + cbn [concat app]. rewrite <- (IH s) by lia. now rewrite E.
    + cbn [concat app]. f_equal. rewrite <- (IH s) by lia. now rewrite E.
Qed.

Lemma splitlines_wf s : wf_lines (splitlines s).
Proof.
  remember (length s) as n eqn:Hn. assert (Hle : (length s <= n)%nat) by lia.
  clear Hn. revert s Hle.
  induction n as [|n IH]; intros [|c s] Hle; try constructor;
    [simpl in Hle; lia|].
  cbn [length] in Hle. rewrite splitlines_cons.
  destruct (is_linebreak c) eqn:Hc.
  - destruct s as [|d s].
    + apply (wf_cons [] [c] []); try constructor; auto; discriminate.
    + destruct (N.eqb_spec c CR) as [->|Hcr]; cbn [andb].
      * destruct (N.eqb_spec d LF) as [->|Hd].
        -- apply (wf_cons [] [CR; LF]); try constructor.
           ++ apply IH. cbn [length] in Hle. lia.
           ++ discriminate.
        -- apply (wf_cons [] [CR]); try constructor; auto.
           ++ apply IH. lia.
           ++ intros _. rewrite concat_splitlines. simpl. congruence.
      * apply (wf_cons [] [c]); try constructor; auto.
        -- apply IH. lia.
        -- congruence.
  - assert (Hs : wf_lines (splitlines s)) by (apply IH; lia).
    destruct (splitlines s) as [|l ls].
    + apply wf_last; [discriminate|]. repeat constructor. auto.
    + inversion Hs as [|body Hne Hb|body term rest Hb Ht Hr Hj]; subst.
      * apply wf_last; [discriminate|]. constructor; auto.
      * apply (wf_cons (c :: body) term ls); auto. constructor; auto.
Qed.

Lemma splitlines_body body :
  body ≠ [] -> no_break body -> splitlines body = [body].
Proof.
  induction body as [|b body IH]; intros Hne Hb; [contradiction|].
  apply Forall_cons in Hb as [Hb Hbody]. simpl. rewrite Hb.
  destruct body as [|b' body]; [reflexivity|].
  now rewrite IH.
Qed.

Lemma splitlines_line body term rest :
  no_break body -> is_term term ->
  (term = [CR] -> head rest ≠ Some LF) ->
  splitlines (body ++ term ++ rest) = (body ++ term) :: splitlines rest.
Proof.
  intros Hb Ht Hj. induction body as [|b body IH].
  - destruct Ht as [c Hc|]; [|reflexivity].
    simpl. rewrite Hc. destruct rest as [|d rest]; [reflexivity|].
    destruct (N.eqb_spec c CR) as [->|_]; [|reflexivity].
    destruct (N.eqb_spec d LF) as [->|_]; [|reflexivity].
    now destruct Hj.
  - apply Forall_cons in Hb as [Hb Hbody].
    change ((b :: body) ++ term ++ rest) with (b :: (body ++ term ++ rest)).
    simpl splitlines. rewrite Hb, IH by auto. reflexivity.
Qed.

Lemma splitlines_concat l : wf_lines l -> splitlines (concat l) = l.
Proof.
  induction 1 as [|body Hne Hb|body term rest Hb Ht Hr IH Hj].
  - reflexivity.
  - simpl. rewrite app_nil_r. now apply splitlines_body.
  - simpl. rewrite <- app_assoc, splitlines_line by auto. now rewrite IH.
Qed.

Lemma wf_lines_head line rest :
  wf_lines (line :: rest) -> head (concat (line :: rest)) = head line ∧ line ≠ [].
Proof.
  inversion 1 as [|body Hne Hb|body term rest' Hb Ht Hr Hj]; subst.
  - simpl. rewrite app_nil_r. auto.
  - assert (body ++ term ≠ []) by (destruct Ht, body; discriminate).
    split; [|auto]. simpl. destruct (body ++ term); [contradiction|reflexivity].
Qed.

Lemma prefix_no_break body term indent c more :
  no_break body -> Forall (λ c, is_linebreak c = true) term ->
  is_linebreak c = false ->
  body ++ term = indent ++ c :: more ->
  no_break indent.
Proof.
  intros Hb Ht Hc E. symmetry in E.
  apply app_eq_inv in E as [(k & -> & E)|(k & -> & E)].
  - rewrite E in Ht. apply Forall_app in Ht as [_ Ht].
    apply Forall_cons in Ht as [Ht _]. congruence.
  - now apply Forall_app in Hb as [Hb _].
Qed.

Lemma rstrip_nl_mid u c v :
  c ≠ LF -> rstrip_nl (u ++ c :: v) = u ++ c :: rstrip_nl v.
Proof.
  intros Hc. induction u as [|d u IH]; simpl.
  - destruct (rstrip_nl v); [|reflexivity].
    now destruct (N.eqb_spec c LF).
  - rewrite IH. now destruct u.
Qed.

Lemma universal_newlines_no_cr t : Forall (λ c, c ≠ CR) (universal_newlines t).
Proof.
  remember (length t) as n eqn:Hn. assert (Hle : (length t <= n)%nat) by lia.
  clear Hn. revert t Hle.
  induction n as [|n IH]; intros [|c t] Hle; try constructor;
    [simpl in Hle; lia|].
  cbn [length] in Hle.
  destruct (N.eqb_spec c CR) as [->|Hc].
  - destruct t as [|d t]; [repeat constructor; discriminate|].
    destruct (N.eqb_spec d LF) as [->|Hd].
    + rewrite universal_newlines_crlf. constructor; [discriminate|].
      apply IH. cbn [length] in Hle. lia.
    + rewrite universal_newlines_cr by auto. constructor; [discriminate|].
      apply IH. lia.
  - rewrite universal_newlines_cons by auto. constructor; [auto|].
    apply IH. lia.
Qed.

Lemma universal_newlines_id s :
  Forall (λ c, c ≠ CR) s -> universal_newlines s = s.
Proof.
  induction 1 as [|c s Hc Hs IH]; [reflexivity|].
  rewrite universal_newlines_cons by auto. now f_equal.
Qed.

Lemma take_while_Forall (P : char -> Prop) p s :
  Forall P s -> Forall P (take_while p s).
Proof.
  induction 1 as [|c s Hc Hs IH]; simpl; [constructor|].
  destruct (p c); constructor; auto.
Qed.

Section Rewrite.
Variable uni_alnum : char -> bool.
Variable uni_decimal : char -> bool.

Abbreviation is_word := (is_word uni_alnum).
Abbreviation is_digit := (is_digit uni_decimal).
Abbreviation is_dot_word := (is_dot_word uni_alnum).
Abbreviation pattern := (pattern uni_alnum uni_decimal).
Abbreviation resource_re := (resource_re uni_alnum).
Abbreviation scan := (scan uni_alnum uni_decimal).
Abbreviation scan_step := (scan_step uni_alnum uni_decimal).
Abbreviation is_resource := (is_resource uni_alnum).
Abbreviation ps_line := (ps_line uni_alnum uni_decimal).
Abbreviation new_line := (new_line uni_alnum uni_decimal).
Abbreviation changes_from := (changes_from uni_alnum uni_decimal).

Lemma resource_sound i u rest g g' :
  matched resource_re i u rest g g' -> is_resource u.
Proof.
  unfold resource_re, Opt.
  cbn [seq_re fold_right matched].
  intros (a & ? & ? & -> & [Ha _]%matched_lits
          & w1 & ? & ? & -> & [Hw1 _]
          & b & ? & ? & -> & [Hb _]%matched_lits
          & w2 & ? & ? & -> & [Hw2 _]
          & suf & ? & ? & -> & Hsuf
          & ext & ? & ? & -> & Hext & -> & _).
  exists a, w1, b, w2, suf, ext. rewrite app_nil_r.
  repeat split; auto.
  - destruct Hsuf as [[H _]%matched_lits|[H _]%matched_lits]; auto.
  - destruct Hext as [[H _]|[-> _]]; auto.
Qed.

Lemma pattern_sound s m :
  re_match pattern s = Some m ->
  ∃ indent rhs, m = Some rhs ∧ ps_line s indent rhs.
Proof.
  intros (u & rest & -> & H)%re_match_sound. revert H.
  unfold pattern, Plus.
  cbn [seq_re fold_right matched].
  intros (? & ? & ? & -> & (-> & _ & ->)
          & indent & ? & ? & -> & [Hind ->]
          & ps & ? & ? & -> & [Hps ->]%matched_lits
          & ? & ? & ? & -> & (? & ds & ? & -> & (d & -> & Hd & ->) & (Hds & ->))
          & ws1 & ? & ? & -> & [Hws1 ->]
          & ? & ? & ? & -> & (c & -> & ->%lit_ic_eq & ->)
          & ws2 & ? & ? & -> & [Hws2 ->]
          & rhs & ? & ? & -> & [[? Hrhs%resource_sound] ->]
          & tail & ? & ? & -> & [Htail ->]
          & ? & ? & ? & -> & (-> & Hrest & ->) & -> & ->).
  exists indent, rhs. split; [auto|].
  exists ps, (d :: ds), ws1, ws2, (tail ++ rest).
  repeat split; auto.
  - simpl. rewrite !app_nil_r.
    repeat (rewrite <- ?app_assoc; simpl). reflexivity.
  - simpl. now rewrite Hd.
  - rewrite forallb_app, Htail. simpl in Hrest.
    destruct Hrest as [->| ->]; reflexivity.
Qed.

(** Every character of a resource identifier is a word character, a dot,
    or a case variant of a letter of the pattern. *)
Lemma resource_chars (P : char -> Prop) rhs :
  (∀ c, is_dot_word c = true -> P c) ->
  (∀ x c, is_ascii_lower (ascii_lower x) = true -> lit_ic x c = true -> P c) ->
  is_resource rhs -> Forall P rhs.
Proof.
  intros Hw Hl (a & w1 & b & w2 & suf & ext & -> & Ha & Hw1 & Hb & Hw2
                & Hsuf & Hext).
  assert (Hword : ∀ c, is_word c = true -> P c).
  { intros c Hc. apply Hw. unfold is_dot_word. now rewrite Hc, orb_true_r. }
  repeat rewrite Forall_app. repeat split.
  - eapply ic_eq_chars; [|exact Ha].
    repeat constructor; intros c; apply Hl; reflexivity.
  - eapply forallb_Forall_impl; [exact Hword|exact Hw1].
  - eapply ic_eq_chars; [|exact Hb].
    repeat constructor; intros c; apply Hl; reflexivity.
  - eapply forallb_Forall_impl; [exact Hword|exact Hw2].
  - destruct Hsuf as [H|H]; (eapply ic_eq_chars; [|exact H]);
      repeat constructor; intros c; apply Hl; reflexivity.
  - eapply forallb_Forall_impl; [exact Hw|exact Hext].
Qed.

Lemma resource_nonempty rhs : is_resource rhs -> rhs ≠ [].
Proof.
  intros (a & w1 & b & w2 & suf & ext & -> & Ha%ic_eq_length & _).
  destruct a; [discriminate|]. discriminate.
Qed.

Lemma resource_no_lf rhs : is_resource rhs -> Forall (λ c, c ≠ LF) rhs.
Proof.
  apply resource_chars.
  - intros c Hc ->. discriminate.
  - intros x c Hx Hc ->. unfold is_ascii_lower in Hx.
    apply lit_ic_cases in Hc as [Hc|Hc]; [|unfold LF in Hc; lia].
    change (ascii_lower LF) with 0x0A in Hc. unbool. lia.
Qed.

(** ** The loop as a map over the lines *)

Lemma scan_fold lines : ∀ start nl cl,
  fold_left scan_step (enumerate start lines) (nl, cl)
  = (nl ++ List.map new_line lines, cl ++ changes_from start lines).
Proof.
  induction lines as [|line rest IH]; intros start nl cl.
  - simpl. now rewrite !app_nil_r.
  - unfold enumerate in *. simpl. unfold new_line.
    destruct (re_match pattern (rstrip_nl line)) as [m|] eqn:E.
    + rewrite indent_re_match. simpl. rewrite IH.
      unfold rewritten. now rewrite <- !app_assoc.
    + rewrite IH. now rewrite <- !app_assoc.
Qed.

Lemma scan_spec lines :
  scan lines = (List.map new_line lines, changes_from 1 lines).
Proof. unfold scan. now rewrite scan_fold. Qed.

Lemma changes_from_lookup lines : ∀ i start line m,
  lines !! i = Some line ->
  re_match pattern (rstrip_nl line) = Some m ->
  ((start + i)%nat, rstrip_nl line, rstrip_nl (rewritten line m))
    ∈ changes_from start lines.
Proof.
  induction lines as [|l rest IH]; intros i start line m Hi Hm.
  - discriminate.
  - destruct i as [|i]; simpl in *.
    + injection Hi as ->. rewrite Hm, Nat.add_0_r. left.
    + replace (start + S i)%nat with (S start + i)%nat by lia.
      specialize (IH i (S start) line m Hi Hm).
      destruct (re_match pattern (rstrip_nl l)); [right|]; auto.
Qed.

Lemma changes_from_nil lines start :
  changes_from start lines = [] <->
  ∀ line, line ∈ lines -> re_match pattern (rstrip_nl line) = None.
Proof.
  revert start. induction lines as [|l rest IH]; intros start; simpl.
  - split; [|auto]. intros _ line H. inversion H.
  - destruct (re_match pattern (rstrip_nl l)) eqn:E.
    + split; [discriminate|]. intros H.
      specialize (H l ltac:(left)). congruence.
    + rewrite IH. split.
      * intros H line [->|Hin]%elem_of_cons; auto.
      * intros H line Hin. apply H. now right.
Qed.

(** The leading whitespace of a matching line is the [indent] of its
    decomposition, and the rewritten Match text has no line ending. *)
Lemma ps_line_indent line indent rhs :
  ps_line (rstrip_nl line) indent rhs -> take_while is_space line = indent.
Proof.
  intros (ps & digits & ws1 & ws2 & tail & E & Hind & Hps & _).
  destruct (rstrip_nl_spec line) as [n Hn]. rewrite Hn, E.
  inversion Hps as [|x c l ps' Hc _]; subst.
  rewrite <- !app_assoc. simpl.
  apply take_while_app_stop; [auto|]. now apply lit_ic_not_space.
Qed.


(** ** [smart_replace] on a world, case by case *)

Abbreviation smart_replace_try := (smart_replace_try uni_alnum uni_decimal).
Abbreviation smart_replace := (smart_replace uni_alnum uni_decimal).

Lemma try_missing p mb pv ap pd w :
  files w !! p = None ->
  smart_replace_try p mb pv ap pd w = (inl (FileNotFoundError p), w).
Proof.
  intros H. unfold smart_replace_try, mbind, io_bind, read_text.
  now rewrite H.
Qed.

Lemma try_binary p mb pv ap pd w b :
  files w !! p = Some (Binary b) ->
  smart_replace_try p mb pv ap pd w
  = (inl (UnicodeDecodeError p), log (EvRead p) w).
Proof.
  intros H. unfold smart_replace_try, mbind, io_bind, read_text.
  now rewrite H.
Qed.

Lemma try_text p mb pv ap pd w t :
  files w !! p = Some (Text t) ->
  smart_replace_try p mb pv ap pd w =
    let content := universal_newlines t in
    let w1 := log (EvRead p) w in
    if contains DISABLED content && negb pd then (inr (false, []), w1)
    else
      let '(nl, cl) := scan (splitlines content) in
      if is_nil cl then (inr (false, []), w1)
      else
        let w2 := emits (preview_out pv p cl) w1 in
        if ap then
          if mb then
            if decide (backup_path p ∈ readonly w)
            then (inl (PermissionError (backup_path p)), w2)
            else
              let w3 := backed_up p (Text t) w2 in
              if decide (p ∈ readonly w) then (inl (PermissionError p), w3)
              else (inr (true, cl), written p nl w3)
          else
            if decide (p ∈ readonly w) then (inl (PermissionError p), w2)
            else (inr (true, cl), written p nl w2)
        else (inr (true, cl), w2).
Proof.
  intros H. unfold smart_replace_try. rewrite bind_run.
  unfold read_text at 1. rewrite H. cbv zeta. fold DISABLED.
  destruct (contains DISABLED (universal_newlines t) && negb pd); [reflexivity|].
  destruct (scan (splitlines (universal_newlines t))) as [nl cl].
  destruct (is_nil cl); [reflexivity|].
  rewrite bind_run, preview_run.
  destruct ap; simpl; [|reflexivity].
  destruct mb; simpl.
  - unfold mbind, io_bind, copyfile, write_lines. simpl.
    destruct (decide (p = backup_path p)) as [E|_];
      [now destruct (backup_path_neq p)|].
    rewrite H.
    destruct (decide (backup_path p ∈ readonly w)); [reflexivity|]. simpl.
    destruct (decide (p ∈ readonly w)); reflexivity.
  - unfold mbind, io_bind, write_lines. simpl.
    destruct (decide (p ∈ readonly w)); reflexivity.
Qed.


(** ** The rewrite of one line *)

(** C1. Every line the ps-tN pattern accepts (the script tests the line
    without its trailing newlines) is rewritten to
    [indent ++ "this = " ++ rhs] followed by a newline, where [indent] is
    the leading whitespace of the original line and [rhs] is group 1 of
    the match, a piece of the line that follows the equals sign and
    optional whitespace and is followed by whitespace only; the Match
    records the same text without the newline.  The two example lines of
    the specification are rewritten as it says. *)
Theorem matching_line_rewritten :
  (∀ lines i line m,
     lines !! i = Some line ->
     re_match pattern (rstrip_nl line) = Some m ->
     ∃ indent rhs,
       m = Some rhs
       ∧ take_while is_space line = indent
       ∧ ps_line (rstrip_nl line) indent rhs
       ∧ (scan lines).1 !! i = Some (indent ++ str "this = " ++ rhs ++ [LF])
       ∧ (S i, rstrip_nl line, indent ++ str "this = " ++ rhs)
           ∈ (scan lines).2)
  ∧ scan [str "  ps-t0 = ResourceFaceDiffuse.normal"]
    = ([str "  this = ResourceFaceDiffuse.normal" ++ [LF]],
       [(1%nat, str "  ps-t0 = ResourceFaceDiffuse.normal",
         str "  this = ResourceFaceDiffuse.normal")])
  ∧ scan [str "ps-t3=ResourceSomeFaceHeadNormalMap.1024"]
    = ([str "this = ResourceSomeFaceHeadNormalMap.1024" ++ [LF]],
       [(1%nat, str "ps-t3=ResourceSomeFaceHeadNormalMap.1024",
         str "this = ResourceSomeFaceHeadNormalMap.1024")]).
Proof.
  split; [|split; vm_compute; reflexivity].
  intros lines i line m Hi Hm.
  destruct (pattern_sound _ _ Hm) as (indent & rhs & -> & Hps).
  exists indent, rhs. assert (Hind := ps_line_indent _ _ _ Hps).
  assert (Hres : is_resource rhs) by (destruct Hps as (? & ? & ? & ? & ? & H); tauto).
  repeat split; auto.
  - rewrite scan_spec. simpl. rewrite lookup_map, Hi. simpl.
    unfold new_line. rewrite Hm. unfold rewritten. now rewrite Hind.
  - rewrite scan_spec. simpl.
    pose proof (changes_from_lookup lines i 1 line (Some rhs) Hi Hm) as H.
    unfold rewritten in H. rewrite Hind in H. simpl group1 in H.
    rewrite (app_assoc indent), rstrip_nl_line, <- app_assoc in H;
      auto using resource_nonempty, resource_no_lf.
Qed.

(** C10. The loop yields one output line per input line: a matching line
    gives its one rewritten line, any other line is kept. *)
Theorem line_count_preserved lines :
  length (scan lines).1 = length lines
  ∧ ∀ i, (scan lines).1 !! i
         = (λ line,
              match re_match pattern (rstrip_nl line) with
              | Some m =>
                  take_while is_space line ++ str "this = " ++ group1 m ++ [LF]
              | None => line
              end) <$> lines !! i.
Proof.
  rewrite scan_spec. simpl. split; [apply length_map|].
  intros i. apply lookup_map.
Qed.

(** ** The engine on the world *)

Lemma disabled_marker_universal t :
  contains DISABLED (universal_newlines t) = contains DISABLED t.
Proof.
  apply (contains_universal 0x44 (str "ISABLED")).
  repeat constructor; discriminate.
Qed.

(** C4. When the file's text contains DISABLED and [process_disabled] is
    off, the call returns [False] with no Matches and only reads: the
    files, the console and the rest of the world stay as they were,
    whatever lines the file has and whatever the other flags are. *)
Theorem disabled_content_skipped w p mb pv ap t :
  files w !! p = Some (Text t) ->
  contains DISABLED t = true ->
  smart_replace p mb pv ap false w = (inr (false, []), log (EvRead p) w)
  ∧ files (log (EvRead p) w) = files w.
Proof.
  intros Hf Hd. split; [|reflexivity].
  unfold smart_replace, try_except.
  rewrite (try_text _ _ _ _ _ _ _ Hf). cbv zeta.
  now rewrite disabled_marker_universal, Hd.
Qed.

(** C5 (amended). In 0.7.9, an apply with [make_backup] on a readable
    file with at least one match, where the backup and the file can be
    written: the call returns [True] with the Matches; the backup path
    holds what the file held before, whether or not a backup was there;
    the file holds the new lines and nothing else; no other file changes;
    and the operations happened in the order read, copy, write.  The
    backup of a file [name.ext] of a directory is [name_backup.bak] in
    that directory.  In FaceFixV6 the same holds of every call that
    finds a match, with another backup: the file's whole path followed
    by a dot, the time of the call and [.txt], so that backups made at
    different times are different files and none is overwritten. *)
Theorem backup_then_overwrite :
  (∀ w p pv pd t,
     files w !! p = Some (Text t) ->
     contains DISABLED t = false ∨ pd = true ->
     (scan (splitlines (universal_newlines t))).2 ≠ [] ->
     backup_path p ∉ readonly w ->
     p ∉ readonly w ->
     let lines := splitlines (universal_newlines t) in
     let r := smart_replace p true pv true pd w in
     r.1 = inr (true, (scan lines).2)
     ∧ files r.2 !! backup_path p = Some (Text t)
     ∧ files r.2 !! p = Some (Text (concat (scan lines).1))
     ∧ (∀ q, q ≠ p -> q ≠ backup_path p -> files r.2 !! q = files w !! q)
     ∧ trace r.2 = trace w ++ [EvRead p; EvCopy p (backup_path p); EvWrite p])
  ∧ (∀ d a stem ext,
       a ≠ DOT -> Forall (λ c, c ≠ SEP) (a :: stem) ->
       Forall (λ c, c ≠ DOT ∧ c ≠ SEP) ext ->
       backup_path (d ++ SEP :: (a :: stem) ++ DOT :: ext)
       = d ++ SEP :: (a :: stem) ++ str "_backup.bak")
  ∧ (∀ w p timestamp t,
       files w !! p = Some (Text t) ->
       (scan_v7 uni_alnum uni_decimal (readlines (universal_newlines t))).2 ≠ [] ->
       backup_path_v6 timestamp p ∉ readonly w ->
       p ∉ readonly w ->
       let lines := readlines (universal_newlines t) in
       let backup := backup_path_v6 timestamp p in
       let r := smart_replace_v6 uni_alnum uni_decimal timestamp p w in
       r.1 = inr true
       ∧ files r.2 !! backup = Some (Text t)
       ∧ files r.2 !! p
         = Some (Text (concat (scan_v7 uni_alnum uni_decimal lines).1))
       ∧ (∀ q, q ≠ p -> q ≠ backup -> files r.2 !! q = files w !! q)
       ∧ trace r.2 = trace w ++ [EvRead p; EvCopy p backup; EvWrite p])
  ∧ (∀ p timestamp timestamp',
       backup_path_v6 timestamp p = backup_path_v6 timestamp' p ->
       timestamp = timestamp').
Proof.
  split; [|split; [|split]].
  - intros w p pv pd t Hf Hd Hcl Hb Hp lines r. subst r lines.
    unfold smart_replace, try_except.
    rewrite (try_text _ _ _ _ _ _ _ Hf). cbv zeta.
    rewrite disabled_marker_universal.
    replace (contains DISABLED t && negb pd) with false
      by (destruct Hd as [-> | ->]; [reflexivity|now rewrite andb_false_r]).
    destruct (scan (splitlines (universal_newlines t))) as [nl cl].
    simpl in Hcl. destruct cl as [|c cl]; [contradiction|].
    simpl is_nil. cbv iota.
    destruct (decide (backup_path p ∈ readonly w)); [contradiction|].
    destruct (decide (p ∈ readonly w)); [contradiction|].
    pose proof (backup_path_neq p) as Hne.
    simpl. repeat split.
    + rewrite lookup_insert_ne by auto. now rewrite lookup_insert_eq.
    + now rewrite lookup_insert_eq.
    + intros q Hq Hq'. now rewrite !lookup_insert_ne by auto.
    + now rewrite <- !app_assoc.
  - intros d a stem ext Ha Hstem Hext. unfold backup_path.
    rewrite splitext_named by auto. simpl. now rewrite <- app_assoc.
  - intros w p timestamp t Hf Hcl Hb Hp lines backup r.
    pose proof (backup_path_v6_neq timestamp p) as Hne. fold backup in Hne.
    assert (E : r = (inr true,
                     emits (Changed p (length (scan_v7 uni_alnum uni_decimal lines).2)
                            :: BackupSaved backup
                            :: List.map PreviewLine
                                 (scan_v7 uni_alnum uni_decimal lines).2)
                       (written p (scan_v7 uni_alnum uni_decimal lines).1
                          (log (EvCopy p backup)
                             (set_files (<[backup := Text t]> (files w))
                                (log (EvRead p) w)))))).
    { subst r. unfold smart_replace_v6, try_except, smart_replace_v6_try.
      rewrite bind_run. unfold read_text at 1. rewrite Hf. cbv zeta.
      fold lines. fold backup. fold lines in Hcl.
      destruct (scan_v7 uni_alnum uni_decimal lines) as [nl cl].
      cbn [fst snd] in Hcl |- *.
      destruct cl as [|c cl]; [contradiction|].
      cbn [length Nat.ltb Nat.leb]. rewrite bind_run.
      rewrite (copyfile_run p backup (Text t)) by auto.
      rewrite bind_run, write_lines_run by exact Hp.
      rewrite !print_bind, bind_run, for_each_print.
      unfold mret, io_ret, emits, emit. simpl. now rewrite <- !app_assoc. }
    rewrite E. simpl. repeat split.
    + rewrite lookup_insert_ne by auto. now rewrite lookup_insert_eq.
    + now rewrite lookup_insert_eq.
    + intros q Hq Hq'. now rewrite !lookup_insert_ne by auto.
    + now rewrite <- !app_assoc.
  - intros p timestamp timestamp' H. unfold backup_path_v6 in H.
    apply app_inv_head in H. apply app_inv_head in H.
    now apply app_inv_tail in H.
Qed.

(** In 0.7.9 the preview flag only changes what is printed: with or
    without it, and whatever the other flags, the call returns the same,
    leaves the same files and performs the same file operations.
    Without the apply flag, with or without the preview and the backup
    flag, the files are left as they were and the only file operation,
    if any, is the read: a call that previews a readable file reads it
    once and does nothing else to the files, and with the preview off as
    well nothing but that read happens at all. *)
Lemma preview_flags w p pd :
  (∀ mb ap,
     let r1 := smart_replace p mb true ap pd w in
     let r0 := smart_replace p mb false ap pd w in
     r1.1 = r0.1 ∧ files r1.2 = files r0.2 ∧ trace r1.2 = trace r0.2)
  ∧ (∀ mb pv,
       let r := smart_replace p mb pv false pd w in
       files r.2 = files w
       ∧ (trace r.2 = trace w ∨ trace r.2 = trace w ++ [EvRead p]))
  ∧ (∀ mb pv t,
       files w !! p = Some (Text t) ->
       let r := smart_replace p mb pv false pd w in
       files r.2 = files w
       ∧ trace r.2 = trace w ++ [EvRead p]
       ∧ (pv = false -> r.2 = log (EvRead p) w)).
Proof.
  unfold smart_replace, try_except.
  split; [|split].
  - intros mb ap. cbv zeta. destruct (files w !! p) as [[t|b]|] eqn:Hf.
    + rewrite !(try_text _ _ _ _ _ _ _ Hf). cbv zeta.
      destruct (contains DISABLED (universal_newlines t) && negb pd);
        [simpl; auto|].
      destruct (scan (splitlines (universal_newlines t))) as [nl cl].
      destruct (is_nil cl); [simpl; auto|].
      destruct ap, mb; simpl;
        repeat (destruct (decide _); simpl); auto.
    + rewrite !(try_binary _ _ _ _ _ _ _ Hf). simpl. auto.
    + rewrite !(try_missing _ _ _ _ _ _ Hf). simpl. auto.
  - intros mb pv. cbv zeta. destruct (files w !! p) as [[t|b]|] eqn:Hf.
    + rewrite !(try_text _ _ _ _ _ _ _ Hf). cbv zeta.
      destruct (contains DISABLED (universal_newlines t) && negb pd);
        [simpl; auto|].
      destruct (scan (splitlines (universal_newlines t))) as [nl cl].
      destruct (is_nil cl); simpl; auto.
    + rewrite !(try_binary _ _ _ _ _ _ _ Hf). simpl. auto.
    + rewrite !(try_missing _ _ _ _ _ _ Hf). simpl. auto.
  - intros mb pv t Hf. cbv zeta. rewrite (try_text _ _ _ _ _ _ _ Hf). cbv zeta.
    destruct (contains DISABLED (universal_newlines t) && negb pd);
      [simpl; auto|].
    destruct (scan (splitlines (universal_newlines t))) as [nl cl].
    destruct (is_nil cl); [simpl; auto|].
    simpl. repeat split; auto.
    intros ->. unfold emits, log. simpl. now rewrite app_nil_r.
Qed.

(** ** The standard output as a parameter *)

Abbreviation smart_replace_try_on :=
  (smart_replace_try_on uni_alnum uni_decimal).
Abbreviation smart_replace_on := (smart_replace_on uni_alnum uni_decimal).

Lemma bind_ext {A B} (m m' : io A) (f f' : A -> io B) w :
  m w = m' w -> (∀ a w', f a w' = f' a w') -> (m ≫= f) w = (m' ≫= f') w.
Proof.
  intros Hm Hf. rewrite !bind_run, Hm.
  destruct (m' w) as [[e|a] w1]; auto.
Qed.

Lemma print_to_all console o w :
  console o = true -> print_to console o w = print o w.
Proof. intros H. unfold print_to. now rewrite H. Qed.

Lemma for_each_print_to_all {A} console (f : A -> output) l :
  (∀ o, console o = true) ->
  ∀ w, for_each l (λ a, print_to console (f a)) w
       = for_each l (λ a, print (f a)) w.
Proof.
  intros H. induction l as [|a l IH]; intros w; [reflexivity|].
  cbn [for_each]. rewrite !bind_run, print_to_all by auto.
  unfold print. apply IH.
Qed.

(** On a standard output that takes everything the function is
    [smart_replace]. *)
Lemma smart_replace_on_all console p mb pv ap pd w :
  (∀ o, console o = true) ->
  smart_replace_on console p mb pv ap pd w = smart_replace p mb pv ap pd w.
Proof.
  intros H.
  assert (E : smart_replace_try_on console p mb pv ap pd w
              = smart_replace_try p mb pv ap pd w).
  { unfold smart_replace_try_on, smart_replace_try.
    apply bind_ext; [reflexivity|]. intros content w1.
    destruct (contains _ content && negb pd); [reflexivity|].
    destruct (scan (splitlines content)) as [nl cl].
    destruct (is_nil cl); [reflexivity|].
    apply bind_ext.
    { destruct pv; [|reflexivity]. cbn [when]. apply bind_ext.
      - now apply print_to_all.
      - intros _ w2. now apply for_each_print_to_all. }
    intros _ w2. apply bind_ext; [|reflexivity].
    destruct ap; [|reflexivity]. cbn [when].
    apply bind_ext; [|reflexivity].
    destruct mb; [|reflexivity]. cbn [when].
    apply bind_ext; [reflexivity|].
    intros _ w3. now apply print_to_all. }
  unfold smart_replace_on, smart_replace, try_except. rewrite E.
  destruct (smart_replace_try p mb pv ap pd w) as [[e|r] w1]; [|reflexivity].
  rewrite !bind_run. now rewrite print_to_all by auto.
Qed.

(** C7. An exception raised in the [try] block, whether on reading, on
    the backup, on writing or on printing, is caught; the handler then
    prints one diagnostic that carries the file's path and the
    exception.  Where the standard output takes that diagnostic the call
    returns [False] with no Matches, so no exception leaves the call;
    where it cannot encode it, the [print] of the handler raises and that
    exception leaves the call.  A missing file is one way into the
    handler. *)
Theorem errors_are_contained console w p mb pv ap pd :
  (∀ e w1,
     smart_replace_try_on console p mb pv ap pd w = (inl e, w1) ->
     smart_replace_on console p mb pv ap pd w
     = if console (ErrorProcessing p e)
       then (inr (false, []), emit (ErrorProcessing p e) w1)
       else (inl UnicodeEncodeError, w1))
  ∧ ((∀ e, console (ErrorProcessing p e) = true) ->
     ∃ r w', smart_replace_on console p mb pv ap pd w = (inr r, w'))
  ∧ (files w !! p = None ->
     smart_replace_try_on console p mb pv ap pd w
     = (inl (FileNotFoundError p), w))
  ∧ ((∀ o, console o = true) ->
     smart_replace_on console p mb pv ap pd w = smart_replace p mb pv ap pd w).
Proof.
  split; [|split; [|split]].
  - intros e w1 He. unfold smart_replace_on, try_except. rewrite He.
    rewrite bind_run. unfold print_to.
    now destruct (console (ErrorProcessing p e)).
  - intros H. unfold smart_replace_on, try_except.
    destruct (smart_replace_try_on console p mb pv ap pd w) as [[e|r] w1];
      [|eauto].
    rewrite bind_run. unfold print_to. rewrite H. eauto.
  - intros Hf. unfold smart_replace_try_on. rewrite bind_run.
    unfold read_text. now rewrite Hf.
  - apply smart_replace_on_all.
Qed.

(** ** Running the engine on its own output *)

(** A matching line, as far as the second run needs it. *)
Lemma matched_line_shape line m :
  re_match pattern (rstrip_nl line) = Some m ->
  ∃ rhs c more pre post,
    m = Some rhs
    ∧ line = take_while is_space line ++ c :: more
    ∧ (c = 0x70 ∨ c = 0x50)
    ∧ is_resource rhs
    ∧ line = pre ++ rhs ++ post.
Proof.
  intros Hm. destruct (pattern_sound _ _ Hm) as (indent & rhs & -> & Hps).
  pose proof (ps_line_indent _ _ _ Hps) as Hind.
  destruct Hps as (ps & digits & ws1 & ws2 & tail & E & _ & Hps & _ & _ & _
                   & _ & Hres & _).
  destruct (rstrip_nl_spec line) as [n Hn]. rewrite E in Hn.
  inversion Hps as [|x c l ps' Hc _]; subst x l ps.
  exists rhs, c, (ps' ++ digits ++ ws1 ++ [0x3D] ++ ws2 ++ rhs ++ tail ++ repeat LF n),
    (indent ++ (c :: ps') ++ digits ++ ws1 ++ [0x3D] ++ ws2), (tail ++ repeat LF n).
  repeat split; auto using lit_ic_p.
  - rewrite Hind. rewrite Hn at 1.
    repeat (rewrite <- ?app_assoc; simpl). reflexivity.
  - rewrite Hn at 1. repeat (rewrite <- ?app_assoc; simpl). reflexivity.
Qed.

(** A rewritten line starts, after its whitespace, with [t]: the pattern
    wants [p] there. *)
Lemma rewritten_no_match line m :
  re_match pattern (rstrip_nl (rewritten line m)) = None.
Proof.
  destruct (re_match _ _) as [m'|] eqn:Hm; [exfalso|reflexivity].
  destruct (pattern_sound _ _ Hm) as (indent & rhs & _ & Hps).
  destruct Hps as (ps & ds & ws1 & ws2 & tail & E & Hind & Hps & _).
  inversion Hps as [|x c l ps' Hc _]; subst x l ps.
  unfold rewritten in E.
  change (str "this = ") with (0x74 :: str "his = ") in E.
  rewrite <- app_comm_cons, rstrip_nl_mid in E by discriminate.
  assert (H1 := take_while_all is_space line).
  pose proof (f_equal (take_while is_space) E) as H.
  rewrite take_while_app_stop in H by auto.
  change ((c :: ps') ++ ds ++ ws1 ++ [0x3D] ++ ws2 ++ rhs ++ tail)
    with (c :: (ps' ++ ds ++ ws1 ++ [0x3D] ++ ws2 ++ rhs ++ tail)) in H, E.
  rewrite take_while_app_stop in H by auto using lit_ic_not_space.
  rewrite H in E. apply app_inv_head in E. injection E as E _.
  apply lit_ic_p in Hc as [->| ->]; discriminate.
Qed.

Lemma new_line_no_match line :
  re_match pattern (rstrip_nl (new_line line)) = None.
Proof.
  unfold new_line. destruct (re_match pattern (rstrip_nl line)) eqn:E.
  - apply rewritten_no_match.
  - exact E.
Qed.

Lemma new_line_Forall (P : char -> Prop) line :
  Forall P (str "this = " ++ [LF]) -> Forall P line -> Forall P (new_line line).
Proof.
  intros Hc Hl. unfold new_line.
  destruct (re_match pattern (rstrip_nl line)) as [m|] eqn:Hm; [|auto].
  destruct (matched_line_shape _ _ Hm) as (rhs & c & more & pre & post & ->
                                           & _ & _ & _ & E).
  unfold rewritten. simpl group1.
  apply Forall_app in Hc as [Hc1 Hc2].
  repeat rewrite Forall_app. repeat split; auto using take_while_Forall.
  rewrite E in Hl. apply Forall_app in Hl as [_ Hl].
  now apply Forall_app in Hl as [Hl _].
Qed.

Lemma new_lines_no_cr content :
  Forall (λ c, c ≠ CR) content ->
  Forall (λ c, c ≠ CR) (concat (scan (splitlines content)).1).
Proof.
  intros H. rewrite <- (concat_splitlines content) in H.
  rewrite scan_spec. simpl.
  induction (splitlines content) as [|l ls IH]; simpl in *; [constructor|].
  apply Forall_app in H as [Hl Hls]. apply Forall_app. split; [|auto].
  apply new_line_Forall; [|auto]. repeat constructor; discriminate.
Qed.

(** What a successful apply leaves in the file. *)
Lemma apply_success p mb pv pd w cl w' :
  smart_replace p mb pv true pd w = (inr (true, cl), w') ->
  ∃ t, files w !! p = Some (Text t)
       ∧ files w' !! p
         = Some (Text (concat (scan (splitlines (universal_newlines t))).1)).
Proof.
  unfold smart_replace, try_except.
  destruct (files w !! p) as [[t|b]|] eqn:Hf.
  - rewrite (try_text _ _ _ _ _ _ _ Hf). cbv zeta.
    destruct (contains DISABLED (universal_newlines t) && negb pd);
      [discriminate|].
    destruct (scan (splitlines (universal_newlines t))) as [nl cl0] eqn:Hs.
    destruct (is_nil cl0); [discriminate|].
    destruct mb; repeat (destruct (decide _)); try discriminate;
      intros [= <- <-]; exists t; (split; [reflexivity|]); rewrite Hs; simpl;
      apply lookup_insert_eq.
  - rewrite (try_binary _ _ _ _ _ _ _ Hf). discriminate.
  - rewrite (try_missing _ _ _ _ _ _ Hf). discriminate.
Qed.


Section Idempotence.
(** No line boundary is alphanumeric; from code point 128 on this is
    about U+0085, U+2028 and U+2029. *)
Hypothesis alnum_not_linebreak :
  ∀ c, is_linebreak c = true -> uni_alnum c = false.

Lemma resource_no_break rhs : is_resource rhs -> no_break rhs.
Proof.
  apply resource_chars.
  - intros c Hc. destruct (is_linebreak c) eqn:E; [exfalso|reflexivity].
    pose proof (alnum_not_linebreak c E) as Ha.
    unfold is_linebreak in E.
    unfold is_dot_word, is_word, is_ascii_upper,
      is_ascii_lower, is_ascii_digit in Hc.
    unbool; try lia; congruence.
  - intros x c Hx Hc. unfold is_ascii_lower in Hx.
    apply lit_ic_cases in Hc as [Hc|[->|[->|[->| ->]]]]; try reflexivity.
    destruct (is_linebreak c) eqn:E; [exfalso|reflexivity].
    unfold is_linebreak in E.
    destruct (ascii_lower_cases c) as [[Hu Hl]|[Hu Hl]];
      unfold is_ascii_upper in Hu; unbool; lia.
Qed.

Lemma rewritten_body_no_break body term line m :
  no_break body -> Forall (λ c, is_linebreak c = true) term ->
  line = body ++ term ->
  re_match pattern (rstrip_nl line) = Some m ->
  no_break (take_while is_space line ++ str "this = " ++ group1 m).
Proof.
  intros Hb Ht El Hm.
  destruct (matched_line_shape _ _ Hm) as (rhs & c & more & pre & post & ->
                                           & E & Hc & Hres & _).
  simpl group1. unfold no_break. repeat rewrite Forall_app. repeat split.
  - eapply (prefix_no_break body term _ c more); eauto.
    + destruct Hc as [->| ->]; reflexivity.
    + now rewrite <- El.
  - repeat constructor.
  - now apply resource_no_break.
Qed.

Lemma head_new_lines rest :
  wf_lines rest ->
  head (concat (List.map new_line rest)) = Some LF ->
  head (concat rest) = Some LF.
Proof.
  destruct rest as [|r rest]; [auto|]. intros Hwf.
  destruct (wf_lines_head _ _ Hwf) as [-> Hne].
  simpl. unfold new_line.
  destruct (re_match pattern (rstrip_nl r)) as [m|] eqn:Hm.
  - destruct (matched_line_shape _ _ Hm) as (rhs & c & more & pre & post & ->
                                             & E & Hc & _).
    unfold rewritten. rewrite E at 2.
    destruct (take_while is_space r); simpl; [discriminate|auto].
  - destruct r; [contradiction|auto].
Qed.

Lemma new_lines_wf lines :
  wf_lines lines -> wf_lines (List.map new_line lines).
Proof.
  induction 1 as [|body Hne Hb|body term rest Hb Ht Hr IH Hj]; simpl.
  - constructor.
  - unfold new_line at 1.
    destruct (re_match pattern (rstrip_nl body)) as [m|] eqn:Hm.
    + unfold rewritten. rewrite 2!app_assoc, <- (app_assoc _ _ (group1 m)).
      apply wf_cons; try constructor; try reflexivity; try discriminate.
      eapply (rewritten_body_no_break body []); eauto.
      now rewrite app_nil_r.
    + now apply wf_last.
  - unfold new_line at 1.
    destruct (re_match pattern (rstrip_nl (body ++ term))) as [m|] eqn:Hm.
    + unfold rewritten. rewrite 2!app_assoc, <- (app_assoc _ _ (group1 m)).
      apply wf_cons; try (constructor; reflexivity); auto; try discriminate.
      eapply (rewritten_body_no_break body term); eauto using is_term_breaks.
    + apply wf_cons; auto. intros Hcr Hh. apply (Hj Hcr).
      now apply head_new_lines.
Qed.

(** Splitting the written text again gives back the new lines, none of
    which matches. *)
Lemma rescan content :
  let new_lines := (scan (splitlines content)).1 in
  scan (splitlines (concat new_lines)) = (new_lines, []).
Proof.
  cbv zeta. rewrite (scan_spec (splitlines content)). simpl.
  rewrite splitlines_concat by (apply new_lines_wf, splitlines_wf).
  rewrite scan_spec. f_equal.
  - rewrite List.map_map. apply List.map_ext. intros l.
    unfold new_line at 1. now rewrite new_line_no_match.
  - apply changes_from_nil.
    intros l [l' [<- _]]%list_elem_of_In%in_map_iff.
    apply new_line_no_match.
Qed.

(** C2. After an apply that changed the file, any further call on that
    file, whatever its flags, returns [False] with no Matches and does
    nothing but read; the reason is that the text written, split into
    lines again, has no line the pattern accepts, a rewritten line
    having [this] where the pattern wants [ps-t]. *)
Theorem second_run_finds_nothing :
  (∀ w p mb pv pd cl w',
     smart_replace p mb pv true pd w = (inr (true, cl), w') ->
     ∀ mb' pv' ap' pd',
       smart_replace p mb' pv' ap' pd' w'
       = (inr (false, []), log (EvRead p) w'))
  ∧ (∀ content,
       (scan (splitlines (concat (scan (splitlines content)).1))).2 = [])
  ∧ (∀ line rhs,
       re_match pattern
         (rstrip_nl (take_while is_space line ++ str "this = " ++ rhs ++ [LF]))
       = None).
Proof.
  split; [|split].
  - intros w p mb pv pd cl w' H mb' pv' ap' pd'.
    apply apply_success in H as (t & _ & Hf).
    unfold smart_replace, try_except.
    rewrite (try_text _ _ _ _ _ _ _ Hf). cbv zeta.
    rewrite universal_newlines_id
      by apply new_lines_no_cr, universal_newlines_no_cr.
    destruct (contains DISABLED _ && negb pd'); [reflexivity|].
    now rewrite rescan.
  - intros content. now rewrite rescan.
  - intros line rhs. apply (rewritten_no_match line (Some rhs)).
Qed.
End Idempotence.

End Rewrite.

(** ** The file selector *)

Lemma basename_plain f : Forall (λ d, d ≠ SEP) f -> basename f = f.
Proof.
  intros H. unfold basename, rfind. now rewrite rfind_from_absent.
Qed.

Lemma basename_sep x f :
  Forall (λ d, d ≠ SEP) f -> basename (x ++ SEP :: f) = f.
Proof.
  intros H. unfold basename, rfind. rewrite rfind_from_last by auto.
  simpl. clear H. induction x as [|d x IH]; simpl; auto.
Qed.

Lemma ends_with_sep d : ends_with [SEP] d = true -> ∃ d', d = d' ++ [SEP].
Proof.
  unfold ends_with. change (rev [SEP]) with [SEP].
  destruct (rev d) as [|c r] eqn:E; [discriminate|]. cbn [starts_with].
  rewrite andb_true_r. intros <-%N.eqb_eq.
  exists (rev r). rewrite <- (rev_involutive d), E. reflexivity.
Qed.

(** Joining a directory and a file name keeps the name as the base name. *)
Lemma basename_join d f :
  Forall (λ c, c ≠ SEP) f -> basename (path_join d f) = f.
Proof.
  intros Hf. unfold path_join.
  destruct f as [|c f].
  - simpl. rewrite app_nil_r.
    destruct (is_nil d || ends_with [SEP] d) eqn:E.
    + destruct d as [|d0 d]; [reflexivity|]. cbn [is_nil orb] in E.
      apply ends_with_sep in E as [d' ->]. now apply basename_sep.
    + now apply (basename_sep d []).
  - assert (Hc : c ≠ SEP) by now apply Forall_cons in Hf as [? _].
    cbn [starts_with]. rewrite andb_true_r.
    destruct (N.eqb_spec SEP c); [congruence|].
    destruct (is_nil d || ends_with [SEP] d) eqn:E.
    + destruct d as [|d0 d]; [now apply basename_plain|]. cbn [is_nil orb] in E.
      apply ends_with_sep in E as [d' ->].
      rewrite <- app_assoc. now apply basename_sep.
    + now apply basename_sep.
Qed.

(** ** [strip] *)

Lemma lstrip_by_spec p s :
  ∃ pre, s = pre ++ lstrip_by p s ∧ forallb p pre = true
         ∧ ∀ c r, lstrip_by p s = c :: r -> p c = false.
Proof.
  induction s as [|c s (pre & E & Hpre & Hhead)]; simpl.
  - exists []. repeat split; auto. discriminate.
  - destruct (p c) eqn:Hc.
    + exists (c :: pre). simpl. rewrite Hc, Hpre. repeat split; auto.
      now f_equal.
    + exists []. repeat split; auto. now intros ? ? [= <- _].
Qed.

Lemma forallb_rev (p : char -> bool) l : forallb p l = true -> forallb p (rev l) = true.
Proof.
  rewrite !forallb_forall. intros H x Hx. apply H. now apply in_rev.
Qed.

(** [strip] drops a run of the characters at each end and nothing else;
    what is left neither starts nor ends with one of them. *)
Lemma strip_by_spec p s :
  ∃ pre suf,
    s = pre ++ strip_by p s ++ suf
    ∧ forallb p pre = true ∧ forallb p suf = true
    ∧ (∀ c, head (strip_by p s) = Some c -> p c = false)
    ∧ (∀ c, last (strip_by p s) = Some c -> p c = false).
Proof.
  unfold strip_by.
  destruct (lstrip_by_spec p s) as (pre & E1 & Hpre & Hh1).
  destruct (lstrip_by_spec p (rev (lstrip_by p s))) as (pre2 & E2 & Hpre2 & Hh2).
  set (s1 := lstrip_by p s) in *. set (s2 := lstrip_by p (rev s1)) in *.
  assert (Es1 : s1 = rev s2 ++ rev pre2).
  { rewrite <- rev_app_distr, <- E2. now rewrite rev_involutive. }
  exists pre, (rev pre2). repeat split; auto using forallb_rev.
  - now rewrite <- Es1.
  - intros c Hc. destruct (rev s2) as [|c' r] eqn:Er; [discriminate|].
    injection Hc as ->. apply (Hh1 c (r ++ rev pre2)). now rewrite Es1.
  - intros c Hc. destruct s2 as [|c' r]; [discriminate|].
    simpl in Hc. rewrite last_snoc in Hc. injection Hc as ->. eauto.
Qed.

Lemma forallb_is_repeat (x : char) l :
  forallb (λ c, c =? x) l = true -> l = repeat x (length l).
Proof.
  induction l as [|c l IH]; simpl; [auto|].
  intros [->%N.eqb_eq Hl]%andb_prop. f_equal. auto.
Qed.

(** ** Occurrences *)

Lemma starts_with_app p s t :
  starts_with p s = true -> starts_with p (s ++ t) = true.
Proof.
  revert s. induction p as [|a p IH]; intros [|b s]; simpl; auto; [discriminate|].
  intros [-> H]%andb_prop. simpl. auto.
Qed.

Lemma ends_with_app p s t : ends_with p t = true -> ends_with p (s ++ t) = true.
Proof.
  unfold ends_with. rewrite rev_app_distr. apply starts_with_app.
Qed.

Lemma contains_nil s : contains [] s = true.
Proof. now destruct s. Qed.

Lemma contains_elem p : ∀ s c, contains p s = true -> c ∈ p -> c ∈ s.
Proof.
  assert (Hsw : ∀ p s c, starts_with p s = true -> c ∈ p -> c ∈ s).
  { clear. induction p as [|a p IH]; intros [|b s] c; simpl; try discriminate.
    - intros _ H. inversion H.
    - intros _ H. inversion H.
    - intros [->%N.eqb_eq H]%andb_prop [->|Hc]%elem_of_cons; [left|right]; eauto. }
  intros s. induction s as [|b s IH]; intros c; simpl.
  - rewrite orb_false_r. eauto.
  - intros [H|H]%orb_prop Hc; [eauto|]. right. eauto.
Qed.

Lemma starts_with_spec p : ∀ s, starts_with p s = true <-> ∃ post, s = p ++ post.
Proof.
  induction p as [|a p IH]; intros s; simpl.
  - split; eauto.
  - destruct s as [|b s]; [split; [discriminate|intros [post [=]]]|].
    rewrite andb_true_iff, N.eqb_eq, IH. split.
    + intros [-> [post ->]]. eauto.
    + intros [post [= -> ->]]. eauto.
Qed.

Lemma contains_spec p : ∀ s, contains p s = true <-> occurs_in p s.
Proof.
  unfold occurs_in. induction s as [|c s IH].
  - cbn [contains]. rewrite orb_false_r, starts_with_spec. split.
    + intros [post H]. exists [], post. exact H.
    + intros (pre & post & H). destruct pre; [eauto|discriminate].
  - cbn [contains]. rewrite orb_true_iff, starts_with_spec, IH. split.
    + intros [[post ->]|(pre & post & ->)].
      * now exists [], post.
      * now exists (c :: pre), post.
    + intros ([|d pre] & post & H).
      * left. eauto.
      * injection H as -> ->. right. eauto.
Qed.

Lemma contains_app_cases p : ∀ x y,
  contains p (x ++ y) = true ->
  (∃ x1 z x2, x = x1 ++ z :: x2 ∧ starts_with p (z :: x2 ++ y) = true)
  ∨ contains p y = true.
Proof.
  induction x as [|a x IH]; intros y H; [now right|].
  cbn [app contains] in H. apply orb_true_iff in H as [H|H].
  - left. now exists [], a, x.
  - apply IH in H as [(x1 & z & x2 & -> & H)|H]; [left|now right].
    now exists (a :: x1), z, x2.
Qed.

Lemma any_case_lowered x u :
  any_case x u -> List.map ascii_lower u = List.map ascii_lower x.
Proof. induction 1 as [|a c x u H _ IH]; simpl; [auto|]. now rewrite H, IH. Qed.

Lemma lowered_any_case x : ∀ u,
  List.map ascii_lower u = List.map ascii_lower x -> any_case x u.
Proof.
  induction x as [|a x IH]; intros [|c u] H; simpl in H; try discriminate H.
  - constructor.
  - injection H as H1 H2. constructor; [exact H1|]. now apply IH.
Qed.

Lemma ascii_lower_ascii c : ascii_lower c < 0x80 <-> c < 0x80.
Proof.
  destruct (ascii_lower_cases c) as [[Hu ->]|[_ ->]]; [|tauto].
  unfold is_ascii_upper in Hu. unbool. lia.
Qed.

Lemma any_case_ascii x u : is_ascii_text x -> any_case x u -> is_ascii_text u.
Proof.
  intros Hx H. induction H as [|a c x u Hc _ IH]; [constructor|].
  apply Forall_cons in Hx as [Ha Hx]. constructor; [|now apply IH].
  apply ascii_lower_ascii. rewrite Hc. now apply ascii_lower_ascii.
Qed.

Lemma map_occurs {A B} (f : A -> B) (s : list A) pre p post :
  List.map f s = pre ++ p ++ post ->
  ∃ s1 s2 s3, s = s1 ++ s2 ++ s3 ∧ List.map f s2 = p.
Proof.
  intros H. apply List.map_eq_app in H as (s1 & r & -> & _ & H).
  apply List.map_eq_app in H as (s2 & s3 & -> & H & _). eauto.
Qed.

Lemma Forall2_rev_rev {A B} (R : A -> B -> Prop) l k :
  Forall2 R l k -> Forall2 R (rev l) (rev k).
Proof.
  induction 1 as [|a b l k H _ IH]; simpl; [constructor|].
  apply Forall2_app; [exact IH|]. now repeat constructor.
Qed.

(** ** [str.lower] *)

Section LowerCase.
Variable uni_cased : char -> bool.
Variable uni_ignorable : char -> bool.
Variable uni_lower : char -> text.

Abbreviation is_cased := (is_cased uni_cased).
Abbreviation is_case_ignorable := (is_case_ignorable uni_ignorable).
Abbreviation skip_ignorable := (skip_ignorable uni_ignorable).
Abbreviation final_sigma := (final_sigma uni_cased uni_ignorable).
Abbreviation lower_char := (lower_char uni_cased uni_ignorable uni_lower).
Abbreviation lower_from := (lower_from uni_cased uni_ignorable uni_lower).
Abbreviation lower := (lower uni_cased uni_ignorable uni_lower).

Lemma lower_char_ascii b c a : c < 0x80 -> lower_char b c a = [ascii_lower c].
Proof.
  intros H. unfold lower_char.
  destruct (N.eqb_spec c SIGMA) as [->|_]; [unfold SIGMA in H; lia|].
  now apply N.ltb_lt in H as ->.
Qed.

(** Away from the capital sigma the context plays no part. *)
Lemma lower_char_context b b' c a a' :
  c ≠ SIGMA -> lower_char b c a = lower_char b' c a'.
Proof.
  intros H. unfold lower_char. now destruct (N.eqb_spec c SIGMA).
Qed.

Lemma lower_char_cases b c a :
  (c < 0x80 ∧ lower_char b c a = [ascii_lower c])
  ∨ (c = SIGMA ∧ ∃ x, sigma_form x ∧ lower_char b c a = [x])
  ∨ (0x80 <= c ∧ c ≠ SIGMA ∧ lower_char b c a = uni_lower c).
Proof.
  unfold lower_char. destruct (N.eqb_spec c SIGMA) as [E|E].
  - right. left. split; [exact E|]. unfold sigma_form.
    destruct (final_sigma b a); eauto.
  - destruct (c <? 0x80) eqn:Hc.
    + left. apply N.ltb_lt in Hc. auto.
    + right. right. apply N.ltb_ge in Hc. auto.
Qed.

Lemma lower_from_cons b c s :
  lower_from b (c :: s) = lower_char b c s ++ lower_from (c :: b) s.
Proof. reflexivity. Qed.

Lemma lower_from_ascii s : ∀ b,
  is_ascii_text s -> lower_from b s = List.map ascii_lower s.
Proof.
  induction s as [|c s IH]; intros b H; [reflexivity|].
  apply Forall_cons in H as [Hc Hs]. rewrite lower_from_cons. cbn [List.map].
  now rewrite lower_char_ascii, IH.
Qed.

Lemma lower_from_app_ascii u : ∀ b t,
  is_ascii_text u ->
  lower_from b (u ++ t) = List.map ascii_lower u ++ lower_from (rev u ++ b) t.
Proof.
  induction u as [|c u IH]; intros b t H; [reflexivity|].
  apply Forall_cons in H as [Hc Hu]. cbn [List.map app rev]. rewrite lower_from_cons.
  rewrite lower_char_ascii, IH by auto. now rewrite <- app_assoc.
Qed.

Lemma lower_from_suffix s : ∀ b t,
  ∃ x, lower_from b (s ++ t) = x ++ lower_from (rev s ++ b) t.
Proof.
  induction s as [|c s IH]; intros b t; [now exists []|].
  destruct (IH (c :: b) t) as [x Hx].
  exists (lower_char b c (s ++ t) ++ x).
  cbn [app rev]. rewrite lower_from_cons, Hx. now rewrite <- !app_assoc.
Qed.

Lemma skip_ignorable_break a c t :
  is_case_ignorable c = false ->
  skip_ignorable (a ++ c :: t)
  = match skip_ignorable a with
    | Some d => Some d
    | None => Some c
    end.
Proof.
  intros Hc. induction a as [|d a IH]; simpl; [now rewrite Hc|].
  now destruct (is_case_ignorable d).
Qed.

(** A character that is neither cased nor case-ignorable, like the path
    separator, ends the context of a sigma before it. *)
Lemma final_sigma_break b a c t :
  is_case_ignorable c = false -> is_cased c = false ->
  final_sigma b (a ++ c :: t) = final_sigma b a.
Proof.
  intros Hi Hc. unfold final_sigma. rewrite skip_ignorable_break by auto.
  destruct (skip_ignorable a); [reflexivity|]. now rewrite Hc.
Qed.

Lemma lower_from_app_break s : ∀ b c t,
  is_case_ignorable c = false -> is_cased c = false ->
  lower_from b (s ++ c :: t)
  = lower_from b s ++ lower_from (rev s ++ b) (c :: t).
Proof.
  induction s as [|d s IH]; intros b c t Hi Hc; [reflexivity|].
  cbn [app rev]. rewrite !lower_from_cons, IH by auto.
  rewrite <- !app_assoc. f_equal.
  unfold lower_char. now rewrite final_sigma_break.
Qed.

(** Two contexts change the lowered text in the form of its sigmas at
    most. *)
Lemma lower_from_context s : ∀ b b',
  Forall2 same_but_sigma (lower_from b s) (lower_from b' s).
Proof.
  induction s as [|c s IH]; intros b b'; [constructor|].
  rewrite !lower_from_cons. apply Forall2_app; [|apply IH].
  unfold lower_char. destruct (c =? SIGMA).
  - constructor; [|constructor]. right. unfold sigma_form.
    split; [destruct (final_sigma b s)|destruct (final_sigma b' s)]; auto.
  - apply Forall_Forall2_diag, Forall_forall. intros x _. now left.
Qed.

Lemma starts_with_but_sigma p : ∀ x y,
  Forall (λ c, ¬ sigma_form c) p -> Forall2 same_but_sigma x y ->
  starts_with p x = true -> starts_with p y = true.
Proof.
  induction p as [|a p IH]; intros x y Hp Hxy; [reflexivity|].
  apply Forall_cons in Hp as [Ha Hp].
  destruct Hxy as [|b c x y Hbc Hxy]; [discriminate|]. simpl.
  intros [->%N.eqb_eq H]%andb_prop.
  destruct Hbc as [<-|[Hb _]]; [|contradiction].
  rewrite N.eqb_refl. simpl. eauto.
Qed.

Lemma ends_with_context p s b b' :
  Forall (λ c, ¬ sigma_form c) p ->
  ends_with p (lower_from b s) = true -> ends_with p (lower_from b' s) = true.
Proof.
  intros Hp. unfold ends_with. apply starts_with_but_sigma.
  - now apply Forall_rev.
  - apply Forall2_rev_rev, lower_from_context.
Qed.

(** The end of a lowered text is the lowered end, whatever precedes. *)
Lemma ends_with_lower_app p s t :
  Forall (λ c, ¬ sigma_form c) p ->
  ends_with p (lower t) = true -> ends_with p (lower (s ++ t)) = true.
Proof.
  intros Hp H. unfold lower.
  destruct (lower_from_suffix s [] t) as [x ->].
  apply ends_with_app. revert H. now apply ends_with_context.
Qed.

Lemma lower_app_ascii s u :
  is_ascii_text u -> ∃ x, lower (s ++ u) = x ++ List.map ascii_lower u.
Proof.
  intros Hu. unfold lower. destruct (lower_from_suffix s [] u) as [x ->].
  exists x. now rewrite lower_from_ascii.
Qed.

(** Where the characters of a lowered text come from. *)
Lemma lower_from_elem x s : ∀ b,
  x ∈ lower_from b s ->
  ∃ c, c ∈ s
       ∧ ((c = SIGMA ∧ sigma_form x)
          ∨ (c < 0x80 ∧ x = ascii_lower c)
          ∨ (0x80 <= c ∧ x ∈ uni_lower c)).
Proof.
  induction s as [|c s IH]; intros b H; [inversion H|].
  rewrite lower_from_cons in H. apply elem_of_app in H as [H|H].
  - exists c. split; [left|]. unfold lower_char in H.
    destruct (N.eqb_spec c SIGMA) as [E|_].
    + left. split; [auto|]. apply list_elem_of_singleton in H.
      unfold sigma_form. destruct (final_sigma b s); auto.
    + destruct (c <? 0x80) eqn:E.
      * right. left. apply N.ltb_lt in E.
        now apply list_elem_of_singleton in H.
      * right. right. apply N.ltb_ge in E. auto.
  - destruct (IH _ H) as (d & Hd & Hx). exists d. split; [now right|auto].
Qed.

Lemma lower_from_ascii_elem c s : ∀ b,
  c ∈ s -> c < 0x80 -> ascii_lower c ∈ lower_from b s.
Proof.
  induction s as [|d s IH]; intros b H Hc; [inversion H|].
  rewrite lower_from_cons. apply elem_of_app.
  apply elem_of_cons in H as [<-|H]; [left|right; auto].
  rewrite lower_char_ascii by auto. left.
Qed.

(** A text that occurs in any case occurs lowered in the lowered text. *)
Lemma occurs_any_case_lower x s :
  is_ascii_text x -> occurs_any_case x s ->
  occurs_in (List.map ascii_lower x) (lower s).
Proof.
  intros Hx (pre & u & post & -> & Hu).
  pose proof (any_case_ascii _ _ Hx Hu) as Ha.
  unfold lower. destruct (lower_from_suffix pre [] (u ++ post)) as [a ->].
  rewrite lower_from_app_ascii, (any_case_lowered _ _ Hu) by auto.
  now exists a, (lower_from (rev u ++ rev pre ++ []) post).
Qed.

Lemma lower_ascii_occurs x s :
  is_ascii_text s -> occurs_in (List.map ascii_lower x) (lower s) ->
  occurs_any_case x s.
Proof.
  intros Hs (a & c & H). unfold lower in H. rewrite lower_from_ascii in H by auto.
  apply map_occurs in H as (pre & u & post & -> & Hu).
  exists pre, u, post. split; [reflexivity|]. now apply lowered_any_case.
Qed.

Lemma backup_path_not_ini p :
  ends_with (str ".ini") (lower (backup_path p)) = false.
Proof.
  unfold backup_path.
  destruct (lower_app_ascii (splitext p).1 (str "_backup.bak")) as [x ->];
    [repeat constructor|].
  unfold ends_with. rewrite rev_app_distr. reflexivity.
Qed.

(** A path under an excluded directory: what is found in the lowered
    directory is found in the lowered path. *)
Lemma occurs_in_lower_sub p root c sub :
  is_case_ignorable c = false -> is_cased c = false ->
  occurs_in p (lower root) -> occurs_in p (lower (root ++ c :: sub)).
Proof.
  intros Hi Hc (pre & post & H). unfold lower in *.
  rewrite lower_from_app_break, H by auto.
  exists pre, (post ++ lower_from (rev root ++ []) (c :: sub)).
  now rewrite <- !app_assoc.
Qed.

End LowerCase.

Section Selector.
Variable uni_cased : char -> bool.
Variable uni_ignorable : char -> bool.
Variable uni_lower : char -> text.

Abbreviation lower := (lower uni_cased uni_ignorable uni_lower).
Abbreviation is_disabled_file := (is_disabled_file uni_cased uni_ignorable uni_lower).
Abbreviation should_exclude := (should_exclude uni_cased uni_ignorable uni_lower).
Abbreviation collect_dir := (collect_dir uni_cased uni_ignorable uni_lower).
Abbreviation collect := (collect uni_cased uni_ignorable uni_lower).
Abbreviation disabled_by_spec := (disabled_by_spec uni_cased uni_ignorable uni_lower).
Abbreviation excluded_by_spec := (excluded_by_spec uni_cased uni_ignorable uni_lower).

(** The library's glob matcher and the one fact about it that is used: a
    pattern made of [*] and a text without wildcards matches the names
    that end in the text. *)
Variable fnmatch : text -> text -> bool.
Hypothesis fnmatch_suffix : ∀ name suf,
  Forall (λ c, c ≠ STAR ∧ c ≠ 0x3F ∧ c ≠ 0x5B) suf ->
  fnmatch name (STAR :: suf) = ends_with suf name.

Abbreviation should_exclude_v076 :=
  (should_exclude_v076 uni_cased uni_ignorable uni_lower fnmatch).

(** A fact of the lower-case table: the lowering of a character outside
    ASCII is not empty, and it has no letter of [disabled], unless it is
    [i] with the combining dot above (the lowering of U+0130). *)
Hypothesis lower_apart : ∀ c, 0x80 <= c ->
  (uni_lower c ≠ [] ∧ Forall (λ x, x ∉ str "disabled") (uni_lower c))
  ∨ uni_lower c = [0x69; 0x307].

Abbreviation lower_char := (lower_char uni_cased uni_ignorable uni_lower).
Abbreviation lower_from := (lower_from uni_cased uni_ignorable uni_lower).

Lemma is_disabled_file_spec p w :
  ∃ w', is_disabled_file p w = (inr (disabled_by_spec w p), w')
        ∧ files w' = files w.
Proof.
  unfold is_disabled_file, disabled_by_spec, try_except.
  destruct (contains (str "disabled") (lower (basename p))); simpl.
  - exists w. auto.
  - rewrite bind_run. unfold read_text.
    destruct (files w !! p) as [[t|b]|]; simpl.
    + exists (log (EvRead p) w). split; [|reflexivity].
      unfold mret, io_ret. now rewrite disabled_marker_universal.
    + exists (log (EvRead p) w). auto.
    + exists w. auto.
Qed.

Lemma disabled_by_spec_files w w' p :
  files w' = files w -> disabled_by_spec w' p = disabled_by_spec w p.
Proof. unfold disabled_by_spec. now intros ->. Qed.

Lemma collect_dir_spec dirpath filenames pd : ∀ w,
  ∃ l w', collect_dir dirpath filenames pd w = (inr l, w')
          ∧ files w' = files w
          ∧ ∀ q, q ∈ l -> disabled_by_spec w q = false ∨ pd = true.
Proof.
  induction filenames as [|f rest IH]; intros w; simpl.
  - exists [], w. repeat split; auto. intros q H. inversion H.
  - destruct (ends_with (str ".ini") (lower f)); [|apply IH].
    rewrite bind_run.
    destruct (is_disabled_file_spec (path_join dirpath f) w)
      as (w1 & -> & Hw1).
    rewrite bind_run.
    destruct (IH w1) as (l & w2 & -> & Hw2 & Hl).
    eexists _, w2. split; [reflexivity|]. split; [congruence|].
    intros q Hq.
    assert (Hrest : q ∈ l -> disabled_by_spec w q = false ∨ pd = true).
    { intros H. rewrite <- (disabled_by_spec_files w w1) by auto. auto. }
    destruct (disabled_by_spec w (path_join dirpath f)) eqn:Hd, pd;
      simpl in Hq; auto.
    apply elem_of_cons in Hq as [->|Hq]; auto.
  Qed.

Lemma collect_spec walk patterns pd scan_sub : ∀ w,
  ∃ l w', collect walk patterns pd scan_sub w = (inr l, w')
          ∧ files w' = files w
          ∧ ∀ q, q ∈ l -> disabled_by_spec w q = false ∨ pd = true.
Proof.
  induction walk as [|[dirpath filenames] rest IH]; intros w; simpl.
  - exists [], w. repeat split; auto. intros q H. inversion H.
  - destruct (should_exclude dirpath patterns); [apply IH|].
    rewrite bind_run.
    destruct (collect_dir_spec dirpath filenames pd w) as (l & w1 & -> & Hw1 & Hl).
    destruct scan_sub; simpl.
    + rewrite bind_run. destruct (IH w1) as (l' & w2 & -> & Hw2 & Hl').
      eexists _, w2. split; [reflexivity|]. split; [congruence|].
      intros q [Hq|Hq]%elem_of_app; auto.
      rewrite <- (disabled_by_spec_files w w1) by auto. auto.
    + exists l, w1. auto.
Qed.

Lemma ascii_disabled : is_ascii_text (str "disabled").
Proof. repeat constructor. Qed.

Lemma letter_of_disabled x : x ∈ str "disabled" -> x < 0x80 ∧ x ≠ 0x307.
Proof.
  intros H. apply list_elem_of_In in H. simpl in H.
  repeat (destruct H as [<-|H]; [split; [reflexivity|discriminate]|]).
  destruct H.
Qed.

Lemma sigma_form_no_letter x : sigma_form x -> x ∉ str "disabled".
Proof.
  intros Hx [H _]%letter_of_disabled. destruct Hx; subst; discriminate.
Qed.

(** Letters of [disabled] at the head of a lowered text were spelled
    in ASCII, one for one. *)
Lemma spelled_prefix Q : ∀ s b,
  Forall (λ x, x ∈ str "disabled") Q -> last Q ≠ Some 0x69 ->
  starts_with Q (lower_from b s) = true ->
  ∃ u post, s = u ++ post ∧ List.map ascii_lower u = Q.
Proof.
  induction Q as [|q Q IH]; intros s b HQ Hlast H; [now exists [], s|].
  destruct s as [|c s]; [discriminate|].
  rewrite lower_from_cons in H. apply Forall_cons in HQ as [Hq HQ].
  destruct (lower_char_cases uni_cased uni_ignorable uni_lower b c s)
    as [[Hc E]|[[Hc (x & Hx & E)]|(Hc & Hs & E)]]; rewrite E in H.
  - cbn [app starts_with] in H.
    apply andb_prop in H as [->%N.eqb_eq H].
    destruct (IH s (c :: b)) as (u & post & -> & Hu); [exact HQ| |exact H|].
    + destruct Q; [discriminate|exact Hlast].
    + exists (c :: u), post. simpl. now rewrite Hu.
  - cbn [app starts_with] in H.
    apply andb_prop in H as [->%N.eqb_eq _].
    now apply sigma_form_no_letter in Hx.
  - destruct (lower_apart c Hc) as [[Hne Hall]|E'].
    + destruct (uni_lower c) as [|x seg]; [contradiction|].
      cbn [app starts_with] in H.
      apply andb_prop in H as [->%N.eqb_eq _].
      now apply Forall_cons in Hall as [Hx _].
    + rewrite E' in H. cbn [app starts_with] in H.
      apply andb_prop in H as [->%N.eqb_eq H].
      destruct Q as [|y Q]; [now destruct Hlast|].
      cbn [starts_with] in H. apply andb_prop in H as [->%N.eqb_eq _].
      apply Forall_cons in HQ as [[_ Hy]%letter_of_disabled _].
      now destruct Hy.
Qed.

(** The word in a lowered text was there, in some case. *)
Lemma spelled_occurs s : ∀ b,
  contains (str "disabled") (lower_from b s) = true ->
  occurs_any_case (str "disabled") s.
Proof.
  induction s as [|c s IH]; intros b H; [discriminate|].
  rewrite lower_from_cons in H.
  apply contains_app_cases in H as [(x1 & z & x2 & E & H)|H].
  - assert (Hz : z = 0x64).
    { change (str "disabled") with (0x64 :: str "isabled") in H.
      cbn [starts_with] in H. now apply andb_prop in H as [->%N.eqb_eq _]. }
    destruct (lower_char_cases uni_cased uni_ignorable uni_lower b c s)
      as [[Hc E']|[[Hc (x & Hx & E')]|(Hc & Hs & E')]]; rewrite E' in E.
    + destruct x1 as [|? [|? ?]]; try discriminate E.
      injection E as Ez <-. subst z.
      destruct (spelled_prefix (str "disabled") (c :: s) b)
        as (u & post & Es & Hu).
      * repeat constructor.
      * discriminate.
      * rewrite lower_from_cons, E'. exact H.
      * exists [], u, post. split; [exact Es|].
        now apply lowered_any_case.
    + destruct x1 as [|? [|? ?]]; try discriminate E.
      injection E as <- _. destruct Hx; subst; discriminate.
    + assert (Hin : z ∈ uni_lower c)
        by (rewrite E; apply elem_of_app; right; left).
      destruct (lower_apart c Hc) as [[_ Hall]|E''].
      * rewrite Forall_forall in Hall. destruct (Hall z Hin).
        subst z. repeat constructor.
      * rewrite E'' in Hin. subst z.
        apply list_elem_of_In in Hin. simpl in Hin.
        destruct Hin as [[=]|[[=]|[]]].
  - destruct (IH _ H) as (pre & u & post & -> & Hu).
    now exists (c :: pre), u, post.
Qed.

(** The code's test and the specification's words. *)
Lemma disabled_by_spec_words w p :
  disabled_by_spec w p = true <-> disabled_in_words w p.
Proof.
  unfold disabled_by_spec, disabled_in_words. rewrite orb_true_iff. split.
  - intros [H|H].
    + left. now apply (spelled_occurs _ []).
    + right. destruct (files w !! p) as [[t|b]|]; try discriminate.
      exists t. split; [reflexivity|]. now apply contains_spec.
  - intros [H|(t & -> & H)].
    + left. apply contains_spec.
      exact (occurs_any_case_lower uni_cased uni_ignorable uni_lower
               (str "disabled") _ ascii_disabled H).
    + right. now apply contains_spec.
Qed.

(** C8. [is_disabled_file] only reads, and returns [True] exactly for
    the files whose name contains [disabled] in some mix of upper and
    lower case or whose text contains DISABLED.  With disabled-processing
    off, no file the selector collects is disabled; in particular a file
    of some walked directory whose name contains [disabled] in any case,
    like [myfile_DISABLED.ini], is not collected, whatever its
    content. *)
Theorem disabled_files_excluded :
  (∀ w p, ∃ b w',
     is_disabled_file p w = (inr b, w')
     ∧ files w' = files w
     ∧ (b = true <-> disabled_in_words w p))
  ∧ (∀ w walk patterns scan_sub,
       ∃ l w', collect walk patterns false scan_sub w = (inr l, w')
               ∧ files w' = files w
               ∧ (∀ q, q ∈ l -> ¬ disabled_in_words w q)
               ∧ ∀ dirpath f,
                   Forall (λ c, c ≠ SEP) f ->
                   occurs_any_case (str "disabled") f ->
                   path_join dirpath f ∉ l).
Proof.
  split.
  - intros w p. destruct (is_disabled_file_spec p w) as (w' & E & Hw).
    exists (disabled_by_spec w p), w'. repeat split; auto;
      apply disabled_by_spec_words.
  - intros w walk patterns scan_sub.
    destruct (collect_spec walk patterns false scan_sub w)
      as (l & w' & E & Hw & Hl).
    assert (Hno : ∀ q, q ∈ l -> ¬ disabled_in_words w q).
    { intros q Hq Hd. apply disabled_by_spec_words in Hd.
      destruct (Hl q Hq) as [H|H]; [congruence|discriminate]. }
    exists l, w'. repeat split; auto.
    intros dirpath f Hf Hd Hin. apply (Hno _ Hin).
    left. now rewrite basename_join.
Qed.


(** ** Exclusion patterns *)

Lemma folder_loop_extends fuel : ∀ patterns w patterns' w',
  folder_loop fuel patterns w = (inr patterns', w') ->
  ∃ more, patterns' = patterns ++ more.
Proof.
  induction fuel as [|fuel IH]; intros patterns w patterns' w'; simpl.
  - discriminate.
  - rewrite bind_run. unfold input.
    destruct (stdin w) as [|line rest]; [discriminate|].
    destruct (is_nil (strip_by is_space line)).
    + intros [= <- <-]. exists []. now rewrite app_nil_r.
    + intros (more & ->)%IH. rewrite <- app_assoc. eauto.
Qed.

Lemma folder_loop_returns names : ∀ fuel patterns w line rest,
  stdin w = names ++ line :: rest ->
  Forall (λ n, ¬ blank n) names -> blank line ->
  (length names < fuel)%nat ->
  ∃ w', folder_loop fuel patterns w
        = (inr (patterns ++ List.map wrap names), w')
        ∧ stdin w' = rest ∧ files w' = files w.
Proof.
  induction names as [|n names IH]; intros fuel patterns w line rest Hin Hn Hb Hf;
    (destruct fuel as [|fuel]; [simpl in Hf; lia|]); simpl.
  - rewrite bind_run. unfold input. rewrite Hin. simpl.
    unfold blank in Hb. rewrite Hb. simpl.
    eexists. rewrite app_nil_r. split; [reflexivity|]. auto.
  - rewrite bind_run. unfold input. rewrite Hin. simpl.
    apply Forall_cons in Hn as [Hn Hns]. unfold blank in Hn.
    destruct (strip_by is_space n) as [|c r] eqn:E; [contradiction|]. simpl.
    edestruct (IH fuel (patterns ++ [STAR :: (c :: r) ++ [STAR]])) as (w' & -> & Hs & Hfl);
      [| exact Hns | exact Hb | simpl in Hf; lia |].
    + reflexivity.
    + exists w'. unfold wrap. rewrite E, <- app_assoc. simpl. auto.
Qed.

Lemma strip_by_ascii p s : is_ascii_text s -> is_ascii_text (strip_by p s).
Proof.
  intros H. destruct (strip_by_spec p s) as (pre & suf & E & _).
  rewrite E in H. apply Forall_app in H as [_ H].
  now apply Forall_app in H as [H _].
Qed.

Lemma replace_chr_ascii s : is_ascii_text s -> is_ascii_text (replace_chr 0x5C SEP s).
Proof.
  intros H. unfold replace_chr. apply Forall_map.
  eapply Forall_impl; [exact H|]. intros c Hc. simpl.
  destruct (c =? 0x5C); [reflexivity|exact Hc].
Qed.

Lemma ends_with_spec p s : ends_with p s = true <-> ∃ pre, s = pre ++ p.
Proof.
  unfold ends_with. rewrite starts_with_spec. split.
  - intros [post H]. exists (rev post).
    rewrite <- (rev_involutive s), H, rev_app_distr. now rewrite rev_involutive.
  - intros [pre ->]. exists (rev pre). apply rev_app_distr.
Qed.

(** The loop of the 0.7.6 test, away from the patterns it globs. *)
Lemma exclusion_loop_plain path patterns :
  Forall (λ p, ends_with (str ".bak") p = false) patterns ->
  exclusion_loop uni_cased uni_ignorable uni_lower fnmatch path patterns
  = existsb (λ pattern, contains (lower (strip_by is_star pattern)) (lower path))
      patterns.
Proof.
  induction 1 as [|p patterns Hp _ IH]; simpl; [reflexivity|].
  rewrite Hp, IH. now destruct (contains _ _).
Qed.


End Selector.


(** * The theorems at work on the small tree *)

Lemma sample_alnum_not_linebreak c :
  is_linebreak c = true -> sample_alnum c = false.
Proof.
  intros H. destruct (sample_alnum c) eqn:E; [exfalso|reflexivity].
  unfold is_linebreak in H. unfold sample_alnum in E.
  unbool; lia.
Defined.

Ltac by_decide := apply (bool_decide_unpack _); vm_compute; exact I.

Example backup_path_sibling :
  backup_path (str "mods/face.ini") = str "mods/face_backup.bak"
  ∧ backup_path (str "mods.d/face") = str "mods.d/face_backup.bak"
  ∧ backup_path (str "mods/.hidden") = str "mods/.hidden_backup.bak".
Proof. repeat split; reflexivity. Qed.

Lemma matching_line_rewritten_witness :
  let lines := [str "x"; str "  ps-t0 = ResourceFaceDiffuse.normal" ++ [LF]] in
  let line := str "  ps-t0 = ResourceFaceDiffuse.normal" ++ [LF] in
  ∃ indent rhs,
    Some (str "ResourceFaceDiffuse.normal") = Some rhs
    ∧ take_while is_space line = indent
    ∧ ps_line sample_alnum sample_decimal (rstrip_nl line) indent rhs
    ∧ (scan sample_alnum sample_decimal lines).1 !! 1%nat
      = Some (indent ++ str "this = " ++ rhs ++ [LF])
    ∧ (2%nat, rstrip_nl line, indent ++ str "this = " ++ rhs)
        ∈ (scan sample_alnum sample_decimal lines).2.
Proof.
  intros lines line.
  apply (proj1 (matching_line_rewritten sample_alnum sample_decimal)
           lines 1%nat line).
  - reflexivity.
  - vm_compute. reflexivity.
Defined.

Lemma second_run_finds_nothing_witness :
  let first := smart_replace sample_alnum sample_decimal face_ini
                 true false true false sample_world in
  smart_replace sample_alnum sample_decimal face_ini true true true true first.2
  = (inr (false, []), log (EvRead face_ini) first.2).
Proof.
  intros first.
  apply (proj1 (second_run_finds_nothing sample_alnum sample_decimal
                  sample_alnum_not_linebreak)
           sample_world face_ini true false false
           [(2%nat, str "  ps-t0 = ResourceFaceDiffuse.normal",
             str "  this = ResourceFaceDiffuse.normal");
            (3%nat, str "ps-t3=ResourceSomeFaceHeadNormalMap.1024",
             str "this = ResourceSomeFaceHeadNormalMap.1024")]
           first.2).
  vm_compute. reflexivity.
Defined.



Lemma disabled_content_skipped_witness :
  smart_replace sample_alnum sample_decimal off_ini true true true false
    sample_world
  = (inr (false, []), log (EvRead off_ini) sample_world)
  ∧ files (log (EvRead off_ini) sample_world) = files sample_world.
Proof.
  apply (disabled_content_skipped sample_alnum sample_decimal sample_world
           off_ini true true true off_text).
  - vm_compute. reflexivity.
  - vm_compute. reflexivity.
Defined.

Lemma backup_then_overwrite_witness :
  (let r := smart_replace sample_alnum sample_decimal face_ini true false true
              false sample_world in
   let lines := splitlines (universal_newlines face_text) in
   r.1 = inr (true, (scan sample_alnum sample_decimal lines).2)
   ∧ files r.2 !! backup_path face_ini = Some (Text face_text)
   ∧ files r.2 !! face_ini
     = Some (Text (concat (scan sample_alnum sample_decimal lines).1))
   ∧ (∀ q, q ≠ face_ini -> q ≠ backup_path face_ini ->
           files r.2 !! q = files sample_world !! q)
   ∧ trace r.2
     = trace sample_world
       ++ [EvRead face_ini; EvCopy face_ini (backup_path face_ini);
           EvWrite face_ini])
  ∧ backup_path face_ini = str "mods/face_backup.bak"
  ∧ (let backup := backup_path_v6 (str "20240101_120000") face_ini in
     let r := smart_replace_v6 sample_alnum sample_decimal
                (str "20240101_120000") face_ini sample_world in
     let lines := readlines (universal_newlines face_text) in
     r.1 = inr true
     ∧ files r.2 !! backup = Some (Text face_text)
     ∧ files r.2 !! face_ini
       = Some (Text (concat (scan_v7 sample_alnum sample_decimal lines).1))
     ∧ (∀ q, q ≠ face_ini -> q ≠ backup ->
             files r.2 !! q = files sample_world !! q)
     ∧ trace r.2
       = trace sample_world
         ++ [EvRead face_ini; EvCopy face_ini backup; EvWrite face_ini]).
Proof.
  split; [|split].
  - apply (proj1 (backup_then_overwrite sample_alnum sample_decimal)
             sample_world face_ini false false face_text).
    + vm_compute. reflexivity.
    + left. vm_compute. reflexivity.
    + vm_compute. discriminate.
    + by_decide.
    + by_decide.
  - apply (proj1 (proj2 (backup_then_overwrite sample_alnum sample_decimal))
             (str "mods") 0x66 (str "ace") (str "ini")).
    + discriminate.
    + by_decide.
    + by_decide.
  - apply (proj1 (proj2 (proj2 (backup_then_overwrite sample_alnum
                                  sample_decimal)))
             sample_world face_ini (str "20240101_120000") face_text).
    + vm_compute. reflexivity.
    + vm_compute. discriminate.
    + by_decide.
    + by_decide.
Defined.

(** C5 as stated fails on FaceFixV6: after a call that changed
    [face.ini] at noon of 1 January 2024 there is no [face_backup.bak];
    the backup is [face.ini.20240101_120000.txt]. *)
Lemma v6_backup_is_timestamped :
  let r := smart_replace_v6 sample_alnum sample_decimal (str "20240101_120000")
             face_ini sample_world in
  r.1 = inr true
  ∧ files r.2 !! str "mods/face_backup.bak" = None
  ∧ files r.2 !! str "mods/face.ini.20240101_120000.txt"
    = Some (Text face_text).
Proof. repeat split; vm_compute; reflexivity. Qed.

Lemma errors_are_contained_witness :
  smart_replace_on sample_alnum sample_decimal legacy_console missing_ini true
    true true false sample_world
  = (inl UnicodeEncodeError, sample_world).
Proof.
  apply (proj1 (errors_are_contained sample_alnum sample_decimal legacy_console
                  sample_world missing_ini true true true false)
           (FileNotFoundError missing_ini) sample_world).
  vm_compute. reflexivity.
Defined.

Lemma sample_lower_apart c :
  0x80 <= c ->
  (sample_lower c ≠ [] ∧ Forall (λ x, x ∉ str "disabled") (sample_lower c))
  ∨ sample_lower c = [0x69; 0x307].
Proof.
  intros Hc. left. unfold sample_lower.
  repeat (destruct (_ && _)); (split; [discriminate|]);
    repeat constructor; intros H; apply list_elem_of_In in H; simpl in H;
    lia.
Defined.

Lemma disabled_files_excluded_witness :
  ∃ l w',
    collect sample_cased sample_ignorable sample_lower sample_walk
      [str "*_backup.bak"] false true sample_world
    = (inr l, w')
    ∧ path_join (str "mods") (str "myfile_DISABLED.ini") ∉ l.
Proof.
  destruct (proj2 (disabled_files_excluded sample_cased sample_ignorable
                     sample_lower sample_lower_apart)
              sample_world sample_walk [str "*_backup.bak"] true)
    as (l & w' & E & _ & _ & H).
  exists l, w'. split; [exact E|]. apply H.
  - by_decide.
  - exists (str "myfile_"), (str "DISABLED"), (str ".ini").
    split; [reflexivity|]. repeat constructor.
Defined.

Lemma glob_literal suf :
  Forall (λ c, c ≠ STAR ∧ c ≠ 0x3F ∧ c ≠ 0x5B) suf ->
  ∀ name, glob suf name = true <-> name = suf.
Proof.
  induction 1 as [|c suf (H1 & H2 & _) _ IH]; intros name.
  - destruct name; simpl; split; (discriminate || reflexivity).
  - simpl. destruct (N.eqb_spec c STAR) as [E|_]; [contradiction|].
    destruct (N.eqb_spec c 0x3F) as [E|_]; [contradiction|].
    destruct name as [|d name]; [split; discriminate|].
    rewrite andb_true_iff, N.eqb_eq, IH. split.
    + now intros [-> ->].
    + intros [= -> ->]. auto.
Defined.

Lemma sample_fnmatch_suffix name suf :
  Forall (λ c, c ≠ STAR ∧ c ≠ 0x3F ∧ c ≠ 0x5B) suf ->
  sample_fnmatch name (STAR :: suf) = ends_with suf name.
Proof.
  intros H. apply eq_true_iff_eq. rewrite ends_with_spec.
  unfold sample_fnmatch. cbn [glob]. change (STAR =? STAR) with true. cbv iota.
  induction name as [|d name IH]; rewrite orb_true_iff, (glob_literal suf H).
  - split.
    + intros [<-|[=]]. now exists [].
    + intros [pre E]. left. symmetry in E. now apply app_eq_nil in E as [_ ->].
  - rewrite IH. split.
    + intros [<-|[pre ->]]; [now exists []|now exists (d :: pre)].
    + intros [[|x pre] E]; [now left|]. injection E as -> ->. right. eauto.
Defined.


(** The word-final capital sigma of [str.lower]: the path lowers to
    alpha, final sigma, which the pattern with the other small sigma does
    not occur in. *)
Example should_exclude_final_sigma :
  lower sample_cased sample_ignorable sample_lower [0x391; 0x3A3]
  = [0x3B1; 0x3C2]
  ∧ should_exclude sample_cased sample_ignorable sample_lower [0x391; 0x3A3]
      [[STAR; 0x3B1; 0x3C3; STAR]] = false
  ∧ should_exclude sample_cased sample_ignorable sample_lower [0x391; 0x3A3]
      [[STAR; 0x3B1; 0x3C2; STAR]] = true
  ∧ lower sample_cased sample_ignorable sample_lower
      ([0x391; 0x3A3] ++ str ".ini")
    = [0x3B1; 0x3C3] ++ str ".ini".
Proof. repeat split; reflexivity. Qed.

(** * Further properties of the engine *)

Section EngineMore.
Variable uni_alnum : char -> bool.
Variable uni_decimal : char -> bool.

Abbreviation pattern := (pattern uni_alnum uni_decimal).
Abbreviation scan := (scan uni_alnum uni_decimal).
Abbreviation new_line := (new_line uni_alnum uni_decimal).
Abbreviation changes_from := (changes_from uni_alnum uni_decimal).
Abbreviation accepts := (accepts uni_alnum uni_decimal).
Abbreviation smart_replace_try := (smart_replace_try uni_alnum uni_decimal).
Abbreviation smart_replace := (smart_replace uni_alnum uni_decimal).

Lemma changes_from_elem lines : ∀ start idx old new,
  (idx, old, new) ∈ changes_from start lines <->
  ∃ i line m,
    idx = (start + i)%nat ∧ lines !! i = Some line
    ∧ re_match pattern (rstrip_nl line) = Some m
    ∧ old = rstrip_nl line ∧ new = rstrip_nl (rewritten line m).
Proof.
  induction lines as [|l rest IH]; intros start idx old new.
  - simpl. split; [intros H; inversion H|].
    intros (i & line & m & _ & H & _). discriminate.
  - assert (Hrest : (idx, old, new) ∈ changes_from (S start) rest <->
                    ∃ i line m,
                      idx = (start + S i)%nat ∧ rest !! i = Some line
                      ∧ re_match pattern (rstrip_nl line) = Some m
                      ∧ old = rstrip_nl line ∧ new = rstrip_nl (rewritten line m)).
    { rewrite IH. split; intros (i & line & m & -> & H); exists i, line, m;
        (split; [lia|exact H]). }
    simpl. destruct (re_match pattern (rstrip_nl l)) as [m|] eqn:E.
    + rewrite elem_of_cons, Hrest. split.
      * intros [[= -> -> ->]|(i & line & m' & -> & H)].
        -- exists 0%nat, l, m. rewrite Nat.add_0_r. auto.
        -- exists (S i), line, m'. auto.
      * intros ([|i] & line & m' & -> & Hl & Hm & -> & ->); simpl in Hl.
        -- injection Hl as <-. left. rewrite Nat.add_0_r. congruence.
        -- right. eauto 10.
    + rewrite Hrest. split.
      * intros (i & line & m' & -> & H). exists (S i), line, m'. auto.
      * intros ([|i] & line & m' & -> & Hl & Hm & -> & ->); simpl in Hl.
        -- injection Hl as <-. congruence.
        -- eauto 10.
Qed.

Lemma changes_from_sorted lines : ∀ start,
  StronglySorted lt (List.map (λ c : change, c.1.1) (changes_from start lines))
  ∧ Forall (λ c : change, (start <= c.1.1)%nat) (changes_from start lines).
Proof.
  induction lines as [|l rest IH]; intros start; simpl.
  - split; constructor.
  - destruct (IH (S start)) as [Hs Hf].
    assert (Hf' : Forall (λ c : change, (start <= c.1.1)%nat)
                    (changes_from (S start) rest)).
    { eapply Forall_impl; [exact Hf|]. simpl. intros c Hc. lia. }
    destruct (re_match pattern (rstrip_nl l)); [|auto].
    split.
    + simpl. constructor; [auto|]. apply Forall_map.
      eapply Forall_impl; [exact Hf|]. simpl. intros c Hc. lia.
    + constructor; [simpl; lia|auto].
Qed.

Lemma changes_from_length lines : ∀ start,
  length (changes_from start lines) = length (List.filter accepts lines).
Proof.
  induction lines as [|l rest IH]; intros start; simpl; [reflexivity|].
  unfold accepts at 1. destruct (re_match pattern (rstrip_nl l)); simpl; auto.
Qed.

(** X1. The Match list has exactly one entry for every line the loop
    accepts and no other: the entry carries the line's number counted from
    1, the line stripped of its newline, and the rewritten text; the
    entries come in the order of the lines. *)
Theorem matches_numbered lines :
  (∀ idx old new,
     (idx, old, new) ∈ (scan lines).2 <->
     ∃ i line m,
       idx = S i ∧ lines !! i = Some line
       ∧ re_match pattern (rstrip_nl line) = Some m
       ∧ old = rstrip_nl line
       ∧ new = rstrip_nl
                 (take_while is_space line ++ str "this = " ++ group1 m ++ [LF]))
  ∧ StronglySorted lt (List.map (λ c : change, c.1.1) (scan lines).2)
  ∧ length (scan lines).2 = length (List.filter accepts lines).
Proof.
  rewrite scan_spec. simpl. split; [|split].
  - intros idx old new. apply changes_from_elem.
  - apply changes_from_sorted.
  - apply changes_from_length.
Qed.

(** X2. What an apply writes splits into lines exactly as the new lines
    were, so the file has as many lines after the apply as the text read
    from it had. *)
Theorem written_text_keeps_lines :
  (∀ c, is_linebreak c = true -> uni_alnum c = false) ->
  (∀ content,
     splitlines (concat (scan (splitlines content)).1)
     = (scan (splitlines content)).1)
  ∧ (∀ w p mb pv pd cl w',
       smart_replace p mb pv true pd w = (inr (true, cl), w') ->
       ∃ t t',
         files w !! p = Some (Text t) ∧ files w' !! p = Some (Text t')
         ∧ length (splitlines t') = length (splitlines (universal_newlines t))).
Proof.
  intros Hun.
  assert (H1 : ∀ content,
             splitlines (concat (scan (splitlines content)).1)
             = (scan (splitlines content)).1).
  { intros content. rewrite scan_spec. simpl.
    apply splitlines_concat, new_lines_wf, splitlines_wf. exact Hun. }
  split; [exact H1|].
  intros w p mb pv pd cl w' (t & Hf & Hf')%apply_success.
  exists t, (concat (scan (splitlines (universal_newlines t))).1).
  repeat split; auto.
  rewrite H1, scan_spec. simpl. apply length_map.
Qed.

(** X3. The backup is made before the file is opened for writing: when
    the file cannot be written but the backup can, the call reports
    [False] with no Matches and prints the error, yet the backup has been
    created with the file's content, and the file is as it was. *)
Theorem failed_write_leaves_backup w p pv pd t :
  files w !! p = Some (Text t) ->
  contains DISABLED t = false ∨ pd = true ->
  (scan (splitlines (universal_newlines t))).2 ≠ [] ->
  backup_path p ∉ readonly w ->
  p ∈ readonly w ->
  let r := smart_replace p true pv true pd w in
  r.1 = inr (false, [])
  ∧ files r.2 !! backup_path p = Some (Text t)
  ∧ files r.2 !! p = Some (Text t)
  ∧ trace r.2 = trace w ++ [EvRead p; EvCopy p (backup_path p)]
  ∧ last (console r.2) = Some (ErrorProcessing p (PermissionError p)).
Proof.
  intros Hf Hd Hcl Hb Hp r. subst r.
  unfold smart_replace, try_except.
  rewrite (try_text _ _ _ _ _ _ _ _ _ Hf). cbv zeta.
  rewrite disabled_marker_universal.
  replace (contains DISABLED t && negb pd) with false
    by (destruct Hd as [-> | ->]; [reflexivity|now rewrite andb_false_r]).
  destruct (scan (splitlines (universal_newlines t))) as [nl cl].
  simpl in Hcl. destruct cl as [|c cl]; [contradiction|]. simpl is_nil. cbv iota.
  destruct (decide (backup_path p ∈ readonly w)); [contradiction|].
  destruct (decide (p ∈ readonly w)); [|contradiction].
  pose proof (backup_path_neq p) as Hne.
  simpl. repeat split.
  - now rewrite lookup_insert_eq.
  - now rewrite lookup_insert_ne by auto.
  - now rewrite <- app_assoc.
  - now rewrite last_snoc.
Qed.

(** X4. When the backup cannot be made, the file is not written, even if
    it could be: the call reports [False] with no Matches, prints the
    error of the copy, and no file has changed. *)
Theorem failed_backup_blocks_write w p pv pd t :
  files w !! p = Some (Text t) ->
  contains DISABLED t = false ∨ pd = true ->
  (scan (splitlines (universal_newlines t))).2 ≠ [] ->
  backup_path p ∈ readonly w ->
  let r := smart_replace p true pv true pd w in
  r.1 = inr (false, [])
  ∧ files r.2 = files w
  ∧ trace r.2 = trace w ++ [EvRead p]
  ∧ last (console r.2)
    = Some (ErrorProcessing p (PermissionError (backup_path p))).
Proof.
  intros Hf Hd Hcl Hb r. subst r.
  unfold smart_replace, try_except.
  rewrite (try_text _ _ _ _ _ _ _ _ _ Hf). cbv zeta.
  rewrite disabled_marker_universal.
  replace (contains DISABLED t && negb pd) with false
    by (destruct Hd as [-> | ->]; [reflexivity|now rewrite andb_false_r]).
  destruct (scan (splitlines (universal_newlines t))) as [nl cl].
  simpl in Hcl. destruct cl as [|c cl]; [contradiction|]. simpl is_nil. cbv iota.
  destruct (decide (backup_path p ∈ readonly w)); [|contradiction].
  simpl. repeat split. now rewrite last_snoc.
Qed.

(** X5. A file that is not there, or whose bytes do not decode, makes the
    call print the error naming it and return [False] with no Matches,
    whatever the flags; nothing is copied or written. *)
Theorem unreadable_file_reported w p mb pv ap pd :
  (files w !! p = None ->
   smart_replace p mb pv ap pd w
   = (inr (false, []), emit (ErrorProcessing p (FileNotFoundError p)) w))
  ∧ (∀ b, files w !! p = Some (Binary b) ->
          smart_replace p mb pv ap pd w
          = (inr (false, []),
             emit (ErrorProcessing p (UnicodeDecodeError p)) (log (EvRead p) w))).
Proof.
  unfold smart_replace, try_except. split.
  - intros Hf. now rewrite (try_missing _ _ _ _ _ _ _ _ Hf).
  - intros b Hf. now rewrite (try_binary _ _ _ _ _ _ _ _ _ Hf).
Qed.

(** X6. [process_disabled] only matters for a file whose text contains
    DISABLED: on any other file the call does the same with the flag on
    and off. *)
Theorem process_disabled_needs_marker w p mb pv ap :
  (∀ t, files w !! p = Some (Text t) -> contains DISABLED t = false) ->
  smart_replace p mb pv ap true w = smart_replace p mb pv ap false w.
Proof.
  intros H. unfold smart_replace, try_except.
  destruct (files w !! p) as [[t|b]|] eqn:Hf.
  - rewrite !(try_text _ _ _ _ _ _ _ _ _ Hf). cbv zeta.
    rewrite disabled_marker_universal, (H t eq_refl). reflexivity.
  - now rewrite !(try_binary _ _ _ _ _ _ _ _ _ Hf).
  - now rewrite !(try_missing _ _ _ _ _ _ _ _ Hf).
Qed.

(** X7. An apply without [make_backup] touches the file and nothing else:
    the file gets the new lines, every other path, the backup path
    included, keeps what it had, and the only file operations are the read
    and the write. *)
Theorem apply_without_backup w p pv pd t :
  files w !! p = Some (Text t) ->
  contains DISABLED t = false ∨ pd = true ->
  (scan (splitlines (universal_newlines t))).2 ≠ [] ->
  p ∉ readonly w ->
  let lines := splitlines (universal_newlines t) in
  let r := smart_replace p false pv true pd w in
  r.1 = inr (true, (scan lines).2)
  ∧ files r.2 = <[p := Text (concat (scan lines).1)]> (files w)
  ∧ trace r.2 = trace w ++ [EvRead p; EvWrite p].
Proof.
  intros Hf Hd Hcl Hp lines r. subst r lines.
  unfold smart_replace, try_except.
  rewrite (try_text _ _ _ _ _ _ _ _ _ Hf). cbv zeta.
  rewrite disabled_marker_universal.
  replace (contains DISABLED t && negb pd) with false
    by (destruct Hd as [-> | ->]; [reflexivity|now rewrite andb_false_r]).
  destruct (scan (splitlines (universal_newlines t))) as [nl cl].
  simpl in Hcl. destruct cl as [|c cl]; [contradiction|]. simpl is_nil. cbv iota.
  destruct (decide (p ∈ readonly w)); [contradiction|].
  simpl. repeat split. now rewrite <- app_assoc.
Qed.

End EngineMore.

(** * Further properties of the file selector *)

Section SelectorMore.
Variable uni_cased : char -> bool.
Variable uni_ignorable : char -> bool.
Variable uni_lower : char -> text.

Abbreviation lower := (lower uni_cased uni_ignorable uni_lower).
Abbreviation is_disabled_file := (is_disabled_file uni_cased uni_ignorable uni_lower).
Abbreviation should_exclude := (should_exclude uni_cased uni_ignorable uni_lower).
Abbreviation collect_dir := (collect_dir uni_cased uni_ignorable uni_lower).
Abbreviation collect := (collect uni_cased uni_ignorable uni_lower).
Abbreviation disabled_by_spec := (disabled_by_spec uni_cased uni_ignorable uni_lower).
Abbreviation ini_paths := (ini_paths uni_cased uni_ignorable uni_lower).
Abbreviation visited := (visited uni_cased uni_ignorable uni_lower).
Abbreviation candidates := (candidates uni_cased uni_ignorable uni_lower).

Lemma collect_dir_filter dirpath filenames pd : ∀ w,
  ∃ w', collect_dir dirpath filenames pd w
        = (inr (List.filter (λ q, negb (disabled_by_spec w q) || pd)
                  (ini_paths dirpath filenames)), w')
        ∧ files w' = files w.
Proof.
  unfold ini_paths.
  induction filenames as [|f rest IH]; intros w; simpl.
  - exists w. auto.
  - destruct (ends_with (str ".ini") (lower f)); [|apply IH].
    rewrite bind_run.
    destruct (is_disabled_file_spec uni_cased uni_ignorable uni_lower (path_join dirpath f) w)
      as (w1 & -> & Hw1).
    rewrite bind_run. destruct (IH w1) as (w2 & -> & Hw2).
    exists w2. split; [|congruence]. simpl. f_equal.
    rewrite (List.filter_ext
               (λ q, negb (disabled_by_spec w1 q) || pd)
               (λ q, negb (disabled_by_spec w q) || pd))
      by (intros q; now rewrite (disabled_by_spec_files uni_cased uni_ignorable uni_lower w w1)).
    now destruct (negb (disabled_by_spec w (path_join dirpath f)) || pd).
Qed.

(** X8. The list the file-collecting loop returns is the comprehension:
    the [.ini] files, in order, of the directories that are not excluded
    (only the first such directory when subfolders are not scanned),
    without the disabled ones unless disabled files are processed.  The
    loop never raises and changes no file. *)
Theorem collect_is_candidates walk patterns pd scan_sub : ∀ w,
  ∃ w', collect walk patterns pd scan_sub w
        = (inr (candidates w walk patterns pd scan_sub), w')
        ∧ files w' = files w.
Proof.
  unfold candidates.
  induction walk as [|[dirpath filenames] rest IH]; intros w; simpl.
  - exists w. auto.
  - destruct (should_exclude dirpath patterns); [apply IH|].
    rewrite bind_run.
    destruct (collect_dir_filter dirpath filenames pd w) as (w1 & -> & Hw1).
    destruct scan_sub; simpl.
    + rewrite bind_run. destruct (IH w1) as (w2 & -> & Hw2).
      exists w2. split; [|congruence].
      rewrite (List.filter_ext
                 (λ q, negb (disabled_by_spec w1 q) || pd)
                 (λ q, negb (disabled_by_spec w q) || pd))
        by (intros q; now rewrite (disabled_by_spec_files uni_cased uni_ignorable uni_lower w w1)).
      now rewrite List.filter_app.
    + exists w1. split; [|auto]. now rewrite app_nil_r.
Qed.

Lemma should_exclude_sub root sub patterns :
  should_exclude root patterns = true ->
  should_exclude (root ++ SEP :: sub) patterns = true.
Proof.
  unfold should_exclude. rewrite !existsb_exists.
  intros (x & Hx & H). exists x. split; [exact Hx|].
  apply contains_spec. apply contains_spec in H.
  unfold replace_chr. rewrite List.map_app. cbn [List.map].
  change (SEP =? 0x5C) with false. cbv iota.
  now apply occurs_in_lower_sub.
Qed.

(** X9. When the folder that is walked is itself excluded, everything
    under it is excluded with it, a pattern that occurs in a directory
    path occurring in every path that extends it: the loop collects
    nothing, with or without subfolder scanning, and does not look at a
    single file. *)
Theorem excluded_root_excludes_all root walk patterns pd scan_sub w :
  should_exclude root patterns = true ->
  Forall (λ d, d.1 = root ∨ ∃ sub, d.1 = root ++ SEP :: sub) walk ->
  collect walk patterns pd scan_sub w = (inr [], w).
Proof.
  intros Hroot Hwalk.
  induction Hwalk as [|[dirpath filenames] walk Hd _ IH]; [reflexivity|].
  simpl in Hd |- *.
  replace (should_exclude dirpath patterns) with true; [exact IH|].
  destruct Hd as [->|[sub ->]]; [auto|].
  symmetry. now apply should_exclude_sub.
Qed.

(** X10. Without patterns nothing is excluded; a pattern made of [*]
    only excludes every path, so that with such a pattern in the set the
    loop collects nothing. *)
Theorem star_only_pattern_excludes_all :
  (∀ path, should_exclude path [] = false)
  ∧ (∀ path patterns n,
       repeat STAR n ∈ patterns -> should_exclude path patterns = true)
  ∧ (∀ walk patterns pd scan_sub w n,
       repeat STAR n ∈ patterns ->
       collect walk patterns pd scan_sub w = (inr [], w)).
Proof.
  assert (Hstrip : ∀ n, strip_by is_star (repeat STAR n) = []).
  { intros n. unfold strip_by.
    assert (H : ∀ n, lstrip_by is_star (repeat STAR n) = [])
      by (clear; induction n; simpl; auto).
    now rewrite H. }
  assert (Hex : ∀ path patterns n,
             repeat STAR n ∈ patterns -> should_exclude path patterns = true).
  { intros path patterns n Hin. unfold should_exclude.
    apply existsb_exists. exists (repeat STAR n).
    split; [now apply list_elem_of_In|].
    rewrite Hstrip. apply contains_nil. }
  split; [reflexivity|]. split; [exact Hex|].
  intros walk patterns pd scan_sub w n Hin.
  induction walk as [|[d fs] rest IH]; simpl; [reflexivity|].
  now rewrite (Hex d patterns n Hin).
Qed.

(** X11. The path is compared with its backslashes turned into slashes,
    the patterns are compared as they are: a pattern with a backslash
    (outside its outer stars there is none to strip) matches no path.
    The lower-case table, consulted from code point 128 on, is assumed
    not to produce a backslash. *)
Theorem backslash_pattern_never_matches :
  (∀ c, 0x80 <= c -> 0x5C ∉ uni_lower c) ->
  ∀ path pattern,
    0x5C ∈ pattern -> should_exclude path [pattern] = false.
Proof.
  intros Hlow path pattern Hin.
  unfold should_exclude. simpl. rewrite orb_false_r.
  destruct (contains _ _) eqn:E; [exfalso|reflexivity].
  assert (Hs : 0x5C ∈ strip_by is_star pattern).
  { destruct (strip_by_spec is_star pattern) as (pre & suf & Ep & Hpre & Hsuf & _).
    rewrite Ep in Hin.
    apply elem_of_app in Hin as [Hin|[Hin|Hin]%elem_of_app]; [|exact Hin|].
    - apply list_elem_of_In in Hin.
      rewrite forallb_forall in Hpre. apply Hpre in Hin. discriminate.
    - apply list_elem_of_In in Hin.
      rewrite forallb_forall in Hsuf. apply Hsuf in Hin. discriminate. }
  assert (Hl : 0x5C ∈ lower (strip_by is_star pattern))
    by (apply (lower_from_ascii_elem _ _ _ 0x5C); [exact Hs|reflexivity]).
  pose proof (contains_elem _ _ _ E Hl) as Hp.
  apply lower_from_elem in Hp as (c & Hc & Hx).
  unfold replace_chr in Hc. apply list_elem_of_In, in_map_iff in Hc as (d & <- & _).
  destruct (N.eqb_spec d 0x5C) as [Ed|Hd].
  - destruct Hx as [[[=] _]|[[_ [=]]|[Hx _]]]. unfold SEP in Hx. lia.
  - destruct Hx as [[_ [[=]|[=]]]|[[Hlt Hx]|[Hge Hx]]].
    + destruct (ascii_lower_cases d) as [[Hu El]|[Hu El]];
        rewrite El in Hx; [|now subst d].
      unfold is_ascii_upper in Hu. unbool. lia.
    + now apply (Hlow d Hge) in Hx.
Qed.

Lemma folder_loop_eof names : ∀ fuel patterns w,
  stdin w = names -> Forall (λ n, ¬ blank n) names ->
  (length names < fuel)%nat ->
  ∃ w', folder_loop fuel patterns w = (inl EOFError, w') ∧ stdin w' = []
        ∧ files w' = files w.
Proof.
  induction names as [|n names IH]; intros fuel patterns w Hin Hn Hf;
    (destruct fuel as [|fuel]; [simpl in Hf; lia|]); simpl.
  - rewrite bind_run. unfold input. rewrite Hin. eexists. split; [reflexivity|].
    simpl. auto.
  - rewrite bind_run. unfold input. rewrite Hin. simpl.
    apply Forall_cons in Hn as [Hn Hns]. unfold blank in Hn.
    destruct (strip_by is_space n) as [|c r] eqn:E; [contradiction|]. simpl.
    edestruct (IH fuel (patterns ++ [STAR :: (c :: r) ++ [STAR]])) as (w' & -> & Hs & Hfl);
      [| exact Hns | simpl in Hf; lia |]; [reflexivity|].
    exists w'. auto.
Qed.

(** X12. When the input ends before a blank line has been entered,
    [get_exclusion_patterns] does not return a pattern set: the
    end-of-file error of [input] leaves the function, after all the input
    has been consumed. *)
Theorem exclusion_prompt_needs_blank_line w :
  Forall (λ n, ¬ blank n) (stdin w) ->
  ∃ w', get_exclusion_patterns w = (inl EOFError, w') ∧ stdin w' = []
        ∧ files w' = files w.
Proof.
  intros Hn. unfold get_exclusion_patterns. rewrite print_bind.
  edestruct (folder_loop_eof (stdin w) (S (length (stdin w)))
               [str "*_backup.bak"]
               (emit (Prompt (str "Enter folder names to exclude (ENTER to finish):")) w))
    as (w' & -> & Hs & Hf); eauto.
Qed.

Lemma ini_paths_ini d fs q :
  q ∈ ini_paths d fs -> ends_with (str ".ini") (lower q) = true.
Proof.
  unfold ini_paths. intros Hq%list_elem_of_In.
  apply in_map_iff in Hq as (f & <- & Hf). apply filter_In in Hf as [_ Hf].
  assert (Hini : Forall (λ c, ¬ sigma_form c) (str ".ini"))
    by (repeat constructor; intros [[=]|[=]]).
  unfold path_join. destruct (starts_with [SEP] f); [exact Hf|].
  destruct (is_nil d || ends_with [SEP] d).
  - now apply ends_with_lower_app.
  - rewrite app_assoc. now apply ends_with_lower_app.
Qed.

Lemma collect_ini walk patterns pd scan_sub : ∀ w l w' q,
  collect walk patterns pd scan_sub w = (inr l, w') ->
  q ∈ l -> ends_with (str ".ini") (lower q) = true.
Proof.
  induction walk as [|[dirpath filenames] rest IH]; intros w l w' q; simpl.
  - intros [= <- _] Hq. inversion Hq.
  - destruct (should_exclude dirpath patterns); [apply IH|].
    rewrite bind_run.
    destruct (collect_dir_filter dirpath filenames pd w) as (w1 & -> & _).
    assert (Hd : ∀ x, x ∈ List.filter (λ q, negb (disabled_by_spec w q) || pd)
                           (ini_paths dirpath filenames) ->
                      ends_with (str ".ini") (lower x) = true).
    { intros x Hx%list_elem_of_In. apply filter_In in Hx as [Hx _].
      now apply (ini_paths_ini dirpath filenames), list_elem_of_In. }
    destruct scan_sub; simpl.
    + rewrite bind_run.
      destruct (collect rest patterns pd true w1) as [[e|more] w2] eqn:E;
        [discriminate|].
      intros [= <- _] [Hq|Hq]%elem_of_app; [auto|]. eapply IH; eauto.
    + intros [= <- _]. auto.
Qed.

(** X13. The backup of a file never has the [.ini] extension, in any
    case; so whatever the tree, the patterns and the flags, the
    file-collecting loop never returns a path that is the backup path of
    some file, and backups are not processed as if they were sources. *)
Theorem backups_never_collected :
  (∀ p, ends_with (str ".ini") (lower (backup_path p)) = false)
  ∧ (∀ w walk patterns pd scan_sub l w' p,
       collect walk patterns pd scan_sub w = (inr l, w') ->
       backup_path p ∉ l).
Proof.
  pose proof (backup_path_not_ini uni_cased uni_ignorable uni_lower) as H.
  split; [exact H|].
  intros w walk patterns pd scan_sub l w' p E Hin.
  apply (collect_ini _ _ _ _ _ _ _ _ E) in Hin. now rewrite H in Hin.
Qed.

End SelectorMore.

(** * Further properties of the paths *)

Lemma rfind_from_app c x : ∀ y i acc,
  rfind_from c i (x ++ y) acc
  = rfind_from c (i + length x) y (rfind_from c i x acc).
Proof.
  induction x as [|d x IH]; intros y i acc; simpl.
  - now rewrite Nat.add_0_r.
  - rewrite IH. f_equal. lia.
Qed.

Lemma rfind_from_shift c y : ∀ i acc,
  rfind_from c i y acc
  = match rfind c y with
    | Some j => Some (i + j)%nat
    | None => acc
    end.
Proof.
  unfold rfind. induction y as [|d y IH] using rev_ind; intros i acc.
  - reflexivity.
  - rewrite !rfind_from_app. simpl.
    destruct (N.eqb_spec d c); [reflexivity|]. apply IH.
Qed.

Lemma rfind_in_directory c d f :
  c ≠ SEP ->
  rfind c (d ++ SEP :: f)
  = match rfind c f with
    | Some j => Some (S (length d) + j)%nat
    | None => rfind c d
    end.
Proof.
  intros Hc. unfold rfind at 1. rewrite rfind_from_app. cbn [rfind_from].
  destruct (N.eqb_spec SEP c); [congruence|].
  rewrite rfind_from_shift. fold (rfind c d).
  destruct (rfind c f); [f_equal; simpl; lia|reflexivity].
Qed.

(** X14. The extension is looked for in the last component only: for a
    file name without separator placed in any directory, [splitext] splits
    the name as it would on its own and keeps the directory, dots in it
    included, in the root.  So the backup path is the directory followed
    by the backup path of the name: the backup is a sibling of the
    file. *)
Theorem backup_is_sibling d f :
  Forall (λ c, c ≠ SEP) f ->
  splitext (d ++ SEP :: f) = (d ++ SEP :: (splitext f).1, (splitext f).2)
  ∧ backup_path (d ++ SEP :: f) = d ++ SEP :: backup_path f.
Proof.
  intros Hf.
  assert (H : splitext (d ++ SEP :: f)
              = (d ++ SEP :: (splitext f).1, (splitext f).2)).
  { assert (E1 : rfind SEP (d ++ SEP :: f) = Some (length d))
      by (unfold rfind; now rewrite rfind_from_last).
    assert (E2 : rfind SEP f = None)
      by (unfold rfind; now rewrite rfind_from_absent).
    assert (E3 := rfind_in_directory DOT d f ltac:(intros [=])).
    unfold splitext. rewrite E1, E2, E3.
    destruct (rfind DOT f) as [j|] eqn:Ej.
    - simpl after.
      replace (S (length d) <=? S (length d) + j)%nat with true
        by (symmetry; apply Nat.leb_le; lia).
      replace (0 <=? j)%nat with true by (symmetry; apply Nat.leb_le; lia).
      replace (S (length d) + j - S (length d))%nat with j by lia.
      rewrite Nat.sub_0_r, drop_0.
      replace (drop (S (length d)) (d ++ SEP :: f)) with f
        by (clear; induction d; simpl; auto).
      destruct (true && negb (forallb (λ c, c =? DOT) (take j f))); simpl.
      + f_equal.
        * replace (S (length d + j)) with (length d + S j)%nat by lia.
          now rewrite take_app_add.
        * replace (S (length d + j)) with (length d + S j)%nat by lia.
          now rewrite drop_app_add.
      + reflexivity.
    - destruct (rfind DOT d) as [k|] eqn:Ek; [|reflexivity].
      apply rfind_spec, lookup_lt_Some in Ek.
      simpl after.
      replace (S (length d) <=? k)%nat with false
        by (symmetry; apply Nat.leb_gt; lia).
      reflexivity. }
  split; [exact H|].
  unfold backup_path. rewrite H. simpl. now rewrite <- app_assoc.
Qed.

(** * The preview pass *)

Section PreviewMore.
Variable uni_alnum : char -> bool.
Variable uni_decimal : char -> bool.

Abbreviation scan := (scan uni_alnum uni_decimal).
Abbreviation changes_from := (changes_from uni_alnum uni_decimal).
Abbreviation accepts := (accepts uni_alnum uni_decimal).
Abbreviation smart_replace := (smart_replace uni_alnum uni_decimal).
Abbreviation preview_pass := (preview_pass uni_alnum uni_decimal).
Abbreviation needs_change := (needs_change uni_alnum uni_decimal).

Lemma is_nil_changes lines : ∀ start,
  is_nil (changes_from start lines) = negb (existsb accepts lines).
Proof.
  induction lines as [|l rest IH]; intros start; simpl; [reflexivity|].
  unfold accepts at 1.
  destruct (re_match _ (rstrip_nl l)); simpl; auto.
Qed.

Lemma smart_replace_dry w p mb pv pd :
  ∃ cl w1, smart_replace p mb pv false pd w = (inr (needs_change w pd p, cl), w1)
           ∧ files w1 = files w.
Proof.
  unfold smart_replace, try_except, needs_change.
  destruct (files w !! p) as [[t|b]|] eqn:Hf.
  - rewrite (try_text _ _ _ _ _ _ _ _ _ Hf). cbv zeta.
    rewrite disabled_marker_universal.
    destruct (contains DISABLED t && negb pd); simpl; [eauto|].
    rewrite scan_spec.
    pose proof (is_nil_changes (splitlines (universal_newlines t)) 1%nat) as H.
    apply (f_equal negb) in H. rewrite negb_involutive in H.
    destruct (changes_from 1 _) as [|c cl]; simpl in H; rewrite <- H; simpl;
      eauto.
  - rewrite (try_binary _ _ _ _ _ _ _ _ _ Hf). simpl. eauto.
  - rewrite (try_missing _ _ _ _ _ _ _ _ Hf). simpl. eauto.
Qed.

Lemma needs_change_files w w' pd p :
  files w' = files w -> needs_change w' pd p = needs_change w pd p.
Proof. unfold needs_change. now intros ->. Qed.

(** X15. The preview pass of [main] changes no file, whatever the flags,
    and returns, in their order, exactly the files that are readable, are
    not held back by the DISABLED marker and have a line the loop
    accepts. *)
Theorem preview_pass_is_dry ini_files mb pd : ∀ w,
  ∃ w', preview_pass ini_files mb pd w
        = (inr (List.filter (needs_change w pd) ini_files), w')
        ∧ files w' = files w.
Proof.
  induction ini_files as [|f rest IH]; intros w; simpl.
  - exists w. auto.
  - rewrite bind_run.
    destruct (smart_replace_dry w f mb true pd) as (cl & w1 & -> & Hw1).
    rewrite bind_run. destruct (IH w1) as (w2 & -> & Hw2).
    exists w2. split; [|congruence].
    rewrite (List.filter_ext (needs_change w1 pd) (needs_change w pd))
      by (intros q; now apply needs_change_files).
    now destruct (needs_change w pd f).
Qed.

End PreviewMore.

(** * The two patterns *)

Lemma star_fallback {A} p i s (k : nat -> text -> option A) a :
  k i s = Some a -> ∃ a', star p i s k = Some a'.
Proof.
  intros H. destruct s as [|c s]; simpl; [eauto|].
  destruct (p c); [|eauto].
  destruct (star p (S i) s k); eauto.
Qed.

Lemma star_complete {A} p u : ∀ i rest (k : nat -> text -> option A) a,
  forallb p u = true ->
  k (i + length u)%nat rest = Some a ->
  ∃ a', star p i (u ++ rest) k = Some a'.
Proof.
  induction u as [|c u IH]; intros i rest k a Hu Hk.
  - simpl in *. rewrite Nat.add_0_r in Hk. eapply star_fallback; eauto.
  - simpl in Hu. apply andb_prop in Hu as [Hc Hu]. simpl. rewrite Hc.
    destruct (IH (S i) rest k a Hu) as [a' ->]; [|eauto].
    rewrite <- Hk. f_equal. simpl. lia.
Qed.

(** The matcher finds a match whenever there is one. *)
Lemma exec_complete {A} r : ∀ i u rest g g' (k : cont) (a : A),
  matched r i u rest g g' ->
  k (i + length u)%nat rest g' = Some a ->
  ∃ a', exec r i (u ++ rest) g k = Some a'.
Proof.
  induction r as [| | |x|p|p|r1 IH1 r2 IH2|r1 IH1 r2 IH2|r1 IH1];
    intros i u rest g g' k a Hm Hk; simpl in Hm.
  - destruct Hm as [-> ->]. simpl in *. rewrite Nat.add_0_r in Hk. eauto.
  - destruct Hm as (-> & -> & ->). simpl in *. eauto.
  - destruct Hm as (-> & Hr & ->). simpl in *. rewrite Nat.add_0_r in Hk.
    destruct Hr as [->| ->]; simpl; eauto.
  - destruct Hm as (c & -> & Hc & ->). simpl. rewrite Hc.
    replace (S i) with (i + 1)%nat by lia. eauto.
  - destruct Hm as (c & -> & Hc & ->). simpl. rewrite Hc.
    replace (S i) with (i + 1)%nat by lia. eauto.
  - destruct Hm as [Hu ->]. simpl.
    eapply (star_complete p u i rest (λ i' s', k i' s' g)); eauto.
  - destruct Hm as (u1 & u2 & g1 & -> & H1 & H2). simpl.
    rewrite length_app, Nat.add_assoc in Hk.
    destruct (IH2 _ _ _ _ _ _ _ H2 Hk) as [a2 E2].
    rewrite <- app_assoc. eapply IH1; eauto.
  - simpl. destruct (exec r1 i (u ++ rest) g k) eqn:E1; [eauto|].
    destruct Hm as [Hm|Hm].
    + destruct (IH1 _ _ _ _ _ _ _ Hm Hk) as [a' E]. congruence.
    + eapply IH2; eauto.
  - destruct Hm as [[g1 Hm] ->]. simpl.
    eapply (IH1 i u rest g g1); [exact Hm|]. simpl.
    replace (i + length u - i)%nat with (length u) by lia.
    rewrite take_app_length. exact Hk.
Qed.

Lemma re_match_complete r u rest m :
  matched r 0 u rest None m -> ∃ m', re_match r (u ++ rest) = Some m'.
Proof.
  intros H. unfold re_match. eapply exec_complete; eauto.
Qed.

Lemma matched_lit_list_intro l : ∀ i u rest g,
  Forall2 (fun a c => lit_ic a c = true) l u ->
  matched (seq_re (List.map Lit l)) i u rest g g.
Proof.
  induction l as [|x l IH]; intros i u rest g H; inversion H; subst; simpl.
  - auto.
  - exists [y], l', g. repeat split; eauto.
Qed.

Lemma matched_lits_intro x i u rest g : ic_eq x u -> matched (lits x) i u rest g g.
Proof. apply matched_lit_list_intro. Qed.

Lemma first_split (c : char) a1 : ∀ a2 b1 b2,
  c ∉ a1 -> c ∉ a2 -> a1 ++ c :: b1 = a2 ++ c :: b2 -> a1 = a2 ∧ b1 = b2.
Proof.
  induction a1 as [|x a1 IH]; intros [|y a2] b1 b2 H1 H2 E; simpl in E.
  - injection E as ->. auto.
  - injection E as <- _. destruct H2. left.
  - injection E as -> _. destruct H1. left.
  - injection E as -> E.
    destruct (IH a2 b1 b2) as [-> ->]; auto.
    + intros H. apply H1. now right.
    + intros H. apply H2. now right.
Qed.

Lemma take_while_app_all p u t :
  forallb p u = true -> (∀ c, head t = Some c -> p c = false) ->
  take_while p (u ++ t) = u.
Proof.
  intros Hu Ht. destruct t as [|c t].
  - rewrite app_nil_r. induction u as [|d u IH]; simpl in *; [auto|].
    apply andb_prop in Hu as [-> Hu]. f_equal. auto.
  - apply take_while_app_stop; auto.
Qed.

Lemma forallb_head (p : char -> bool) t c :
  forallb p t = true -> head t = Some c -> p c = true.
Proof. destruct t; simpl; [discriminate|]. now intros [H _]%andb_prop [= <-]. Qed.

Lemma Forall_not_elem (c : char) l : Forall (λ d, d ≠ c) l -> c ∉ l.
Proof.
  intros H Hin. rewrite Forall_forall in H. now apply (H c).
Qed.

Lemma lit_ic_plain x c :
  ascii_lower x ≠ 0x69 -> ascii_lower x ≠ 0x73 -> ascii_lower x ≠ 0x6B ->
  lit_ic x c = true -> ascii_lower c = ascii_lower x.
Proof. unfold lit_ic. intros H1 H2 H3 H. unbool; congruence. Qed.

Lemma Forall_true_forallb (p : char -> bool) l :
  Forall (λ c, p c = true) l -> forallb p l = true.
Proof. induction 1 as [|c l Hc _ IH]; simpl; [auto|]. now rewrite Hc. Qed.

Lemma ic_eq_split (x y : string) t :
  Forall2 (fun a c => lit_ic a c = true) (str x ++ str y) t ->
  ∃ t1 t2, ic_eq x t1 ∧ ic_eq y t2 ∧ t = t1 ++ t2.
Proof. intros H. now apply Forall2_app_inv_l in H. Qed.

Section PatternsMore.
Variable uni_alnum : char -> bool.
Variable uni_decimal : char -> bool.

Abbreviation is_word := (is_word uni_alnum).
Abbreviation is_digit := (is_digit uni_decimal).
Abbreviation is_dot_word := (is_dot_word uni_alnum).
Abbreviation pattern := (pattern uni_alnum uni_decimal).
Abbreviation resource_re := (resource_re uni_alnum).
Abbreviation pattern_v7 := (pattern_v7 uni_alnum uni_decimal).
Abbreviation resource_re_v7 := (resource_re_v7 uni_alnum).
Abbreviation is_resource := (is_resource uni_alnum).
Abbreviation ps_line := (ps_line uni_alnum uni_decimal).
Abbreviation new_line := (new_line uni_alnum uni_decimal).
Abbreviation new_line_v7 := (new_line_v7 uni_alnum uni_decimal).

Lemma word_of_lit x c :
  is_ascii_lower (ascii_lower x) = true ->
  ascii_lower x ≠ 0x69 -> ascii_lower x ≠ 0x73 -> ascii_lower x ≠ 0x6B ->
  lit_ic x c = true -> is_word c = true.
Proof.
  intros Hx H1 H2 H3 Hc. apply lit_ic_plain in Hc; auto.
  unfold is_word. rewrite <- Hc in Hx.
  destruct (ascii_lower_cases c) as [[Hu _]|[_ E]].
  - now rewrite Hu.
  - rewrite E in Hx. rewrite Hx. now rewrite orb_true_r.
Qed.

Lemma head_is_word h : ic_eq "Head" h -> forallb is_word h = true.
Proof.
  intros H. apply Forall_true_forallb.
  eapply (ic_eq_chars (λ c, is_word c = true)); [|exact H].
  repeat constructor; intros c; apply word_of_lit; (reflexivity || discriminate).
Qed.

(** A resource identifier of the older pattern is one of the newer. *)
Lemma resource_v7_sound i u rest g g' :
  matched resource_re_v7 i u rest g g' -> is_resource u.
Proof.
  unfold resource_re_v7, Opt.
  cbn [seq_re fold_right matched].
  intros (a & ? & ? & -> & [Ha _]%matched_lits
          & w1 & ? & ? & -> & [Hw1 _]
          & suf & ? & ? & -> & Hsuf
          & ext & ? & ? & -> & Hext & -> & _).
  assert (Hext' : forallb is_dot_word ext = true)
    by (destruct Hext as [[H _]|[-> _]]; auto).
  rewrite app_nil_r.
  destruct Hsuf as [[H _]%matched_lits|[[H _]%matched_lits
                   |[[H _]%matched_lits|[H _]%matched_lits]]].
  - apply (ic_eq_split "Face" "Diffuse") in H as (b & s & Hb & Hs & ->).
    exists a, w1, b, [], s, ext. rewrite <- !app_assoc. simpl. repeat split; auto.
  - apply (ic_eq_split "Face" "HeadDiffuse") in H as (b & s & Hb & Hs & ->).
    apply (ic_eq_split "Head" "Diffuse") in Hs as (h & s' & Hh & Hs & ->).
    exists a, w1, b, h, s', ext. rewrite <- !app_assoc.
    repeat split; auto using head_is_word.
  - apply (ic_eq_split "Face" "HeadNormalMap") in H as (b & s & Hb & Hs & ->).
    apply (ic_eq_split "Head" "NormalMap") in Hs as (h & s' & Hh & Hs & ->).
    exists a, w1, b, h, s', ext. rewrite <- !app_assoc.
    repeat split; auto using head_is_word.
  - apply (ic_eq_split "Face" "NormalMap") in H as (b & s & Hb & Hs & ->).
    exists a, w1, b, [], s, ext. rewrite <- !app_assoc. simpl. repeat split; auto.
Qed.

Lemma pattern_v7_sound s m :
  re_match pattern_v7 s = Some m ->
  ∃ indent rhs, m = Some rhs ∧ ps_line s indent rhs.
Proof.
  intros (u & rest & -> & H)%re_match_sound. revert H.
  unfold pattern_v7, Plus.
  cbn [seq_re fold_right matched].
  intros (? & ? & ? & -> & (-> & _ & ->)
          & indent & ? & ? & -> & [Hind ->]
          & ps & ? & ? & -> & [Hps ->]%matched_lits
          & ? & ? & ? & -> & (? & ds & ? & -> & (d & -> & Hd & ->) & (Hds & ->))
          & ws1 & ? & ? & -> & [Hws1 ->]
          & ? & ? & ? & -> & (c & -> & ->%lit_ic_eq & ->)
          & ws2 & ? & ? & -> & [Hws2 ->]
          & rhs & ? & ? & -> & [[? Hrhs%resource_v7_sound] ->]
          & tail & ? & ? & -> & [Htail ->]
          & ? & ? & ? & -> & (-> & Hrest & ->) & -> & ->).
  exists indent, rhs. split; [auto|].
  exists ps, (d :: ds), ws1, ws2, (tail ++ rest).
  repeat split; auto.
  - simpl. rewrite !app_nil_r.
    repeat (rewrite <- ?app_assoc; simpl). reflexivity.
  - simpl. now rewrite Hd.
  - rewrite forallb_app, Htail. simpl in Hrest.
    destruct Hrest as [->| ->]; reflexivity.
Qed.

Lemma resource_matched rhs i rest g :
  is_resource rhs -> matched resource_re i rhs rest g g.
Proof.
  intros (a & w1 & b & w2 & suf & ext & -> & Ha & Hw1 & Hb & Hw2 & Hsuf & Hext).
  unfold resource_re, Opt. cbn [seq_re fold_right matched].
  eexists a, _, g. split; [reflexivity|]. split; [now apply matched_lits_intro|].
  eexists w1, _, g. split; [reflexivity|]. split; [auto|].
  eexists b, _, g. split; [reflexivity|]. split; [now apply matched_lits_intro|].
  eexists w2, _, g. split; [reflexivity|]. split; [auto|].
  eexists suf, _, g. split; [reflexivity|]. split.
  { destruct Hsuf; [left|right]; now apply matched_lits_intro. }
  exists ext, [], g. split; [now rewrite app_nil_r|]. split; [left; auto|auto].
Qed.

Lemma ps_line_matched s indent rhs :
  ps_line s indent rhs -> matched pattern 0 s [] None (Some rhs).
Proof.
  intros (ps & digits & ws1 & ws2 & tail & -> & Hind & Hps & Hdig & Hdigs
          & Hws1 & Hws2 & Hres & Htail).
  destruct digits as [|d ds]; [contradiction|].
  simpl in Hdigs. apply andb_prop in Hdigs as [Hd Hds].
  unfold pattern, Plus. cbn [seq_re fold_right matched].
  eexists [], _, None. split; [reflexivity|]. split; [auto|].
  eexists indent, _, None. split; [reflexivity|]. split; [auto|].
  eexists ps, _, None. split; [reflexivity|]. split; [now apply matched_lits_intro|].
  eexists (d :: ds), _, None. split; [reflexivity|]. split.
  { exists [d], ds, None. repeat split; eauto. }
  eexists ws1, _, None. split; [reflexivity|]. split; [auto|].
  eexists [0x3D], _, None. split; [reflexivity|]. split.
  { exists 0x3D. auto. }
  eexists ws2, _, None. split; [reflexivity|]. split; [auto|].
  eexists rhs, _, (Some rhs). split; [reflexivity|]. split.
  { split; [|reflexivity]. exists None. now apply resource_matched. }
  exists tail, [], (Some rhs). split; [now rewrite app_nil_r|]. split; [auto|].
  exists [], [], (Some rhs). repeat split; auto.
Qed.

Lemma resource_head rhs :
  is_resource rhs -> ∃ c r, rhs = c :: r ∧ is_space c = false.
Proof.
  intros (a & w1 & b & w2 & suf & ext & -> & Ha & _).
  inversion Ha as [|x c l a' Hc _]; subst. exists c, (a' ++ w1 ++ b ++ w2 ++ suf ++ ext).
  split; [reflexivity|].
  apply lit_ic_plain in Hc; try discriminate.
  match type of Hc with _ = ?r => change r with 0x72 in Hc end.
  destruct (ascii_lower_cases c) as [[Hu E]|[Hu E]]; rewrite E in Hc.
  - assert (c = 0x52) as -> by lia. reflexivity.
  - subst c. reflexivity.
Qed.

Section Unique.
(** No whitespace code point is alphanumeric. *)
Hypothesis alnum_not_space : ∀ c, is_space c = true -> uni_alnum c = false.

Lemma resource_no_space rhs :
  is_resource rhs -> forallb (λ c, negb (is_space c)) rhs = true.
Proof.
  intros H. apply Forall_true_forallb.
  revert H. apply resource_chars.
  - intros c Hc. destruct (is_space c) eqn:E; [exfalso|reflexivity].
    pose proof (alnum_not_space c E) as Ha.
    unfold is_space in E.
    unfold is_dot_word, is_word, is_ascii_upper, is_ascii_lower,
      is_ascii_digit in Hc.
    unbool; try lia; congruence.
  - intros x c Hx Hc. unfold is_ascii_lower in Hx.
    apply lit_ic_cases in Hc as [Hc|[->|[->|[->| ->]]]]; try reflexivity.
    destruct (is_space c) eqn:E; [exfalso|reflexivity].
    unfold is_space in E.
    destruct (ascii_lower_cases c) as [[Hu Hl]|[Hu Hl]];
      unfold is_ascii_upper in Hu; unbool; lia.
Qed.
Lemma lit_ic_not_equals x c :
  ascii_lower x ≠ 0x3D -> lit_ic x c = true -> c ≠ 0x3D.
Proof.
  intros Hx Hc ->. apply lit_ic_cases in Hc as [H|[H|[H|[H|H]]]];
    try discriminate.
  apply Hx. now rewrite <- H.
Qed.

(** The equals sign of a matching line is its first one. *)
Lemma ps_line_prefix indent ps digits ws1 :
  forallb is_space indent = true -> ic_eq "ps-t" ps ->
  forallb is_digit digits = true -> forallb is_space ws1 = true ->
  0x3D ∉ indent ++ ps ++ digits ++ ws1.
Proof.
  intros Hi Hps Hd Hw. apply Forall_not_elem. rewrite !Forall_app.
  repeat split.
  - eapply forallb_Forall_impl; [|exact Hi]. intros c Hc ->. discriminate.
  - eapply (ic_eq_chars (λ c, c ≠ 0x3D)); [|exact Hps].
    repeat constructor; intros c; apply lit_ic_not_equals; discriminate.
  - eapply forallb_Forall_impl; [|exact Hd]. intros c Hc ->. discriminate.
  - eapply forallb_Forall_impl; [|exact Hw]. intros c Hc ->. discriminate.
Qed.

(** A line has one reading at most: the resource identifier is what
    stands between the whitespace after the first equals sign and the
    next whitespace. *)
Lemma ps_line_rhs_unique s i1 r1 i2 r2 :
  ps_line s i1 r1 -> ps_line s i2 r2 -> r1 = r2.
Proof.
  intros (ps1 & d1 & v1 & w1 & t1 & E1 & Hi1 & Hps1 & _ & Hd1 & Hv1 & Hw1
          & Hr1 & Ht1)
         (ps2 & d2 & v2 & w2 & t2 & E2 & Hi2 & Hps2 & _ & Hd2 & Hv2 & Hw2
          & Hr2 & Ht2).
  assert (E : (i1 ++ ps1 ++ d1 ++ v1) ++ 0x3D :: (w1 ++ r1 ++ t1)
              = (i2 ++ ps2 ++ d2 ++ v2) ++ 0x3D :: (w2 ++ r2 ++ t2)).
  { transitivity s; [symmetry; rewrite E1|rewrite E2];
      now rewrite <- !app_assoc. }
  apply first_split in E as [_ E]; auto using ps_line_prefix.
  assert (Hw : ∀ w r t, forallb is_space w = true -> is_resource r ->
                 take_while is_space (w ++ r ++ t) = w).
  { intros w r t Hw Hr. destruct (resource_head r Hr) as (c & r' & -> & Hc).
    simpl. now apply take_while_app_stop. }
  assert (w1 = w2) as <-.
  { rewrite <- (Hw w1 r1 t1), <- (Hw w2 r2 t2) by auto. now rewrite E. }
  apply app_inv_head in E.
  assert (Hr : ∀ r t, is_resource r -> forallb is_space t = true ->
                 take_while (λ c, negb (is_space c)) (r ++ t) = r).
  { intros r t Hr Ht. apply take_while_app_all.
    - now apply resource_no_space.
    - intros c Hc. now rewrite (forallb_head is_space t c). }
  rewrite <- (Hr r1 t1), <- (Hr r2 t2) by auto. now rewrite E.
Qed.

Lemma pattern_v7_within s m :
  re_match pattern_v7 s = Some m -> re_match pattern s = Some m.
Proof.
  intros (indent & rhs & -> & Hps)%pattern_v7_sound.
  destruct (re_match_complete pattern s [] (Some rhs)) as [m' Hm'].
  { now apply (ps_line_matched s indent). }
  rewrite app_nil_r in Hm'. rewrite Hm'.
  destruct (pattern_sound _ _ _ _ Hm') as (indent' & rhs' & -> & Hps').
  do 2 f_equal. eapply ps_line_rhs_unique; eauto.
Qed.

(** X16. The pattern of the newer engine widens that of the older: a line
    the older loop rewrites is rewritten by the newer loop in the same
    way, with the same Match; and there are lines only the newer pattern
    accepts (a resource name with something between Face and the
    suffix). *)
Theorem newer_pattern_widens :
  (∀ acc idx line m,
     re_match pattern_v7 (rstrip_nl line) = Some m ->
     scan_step uni_alnum uni_decimal acc (idx, line)
     = scan_step_v7 uni_alnum uni_decimal acc (idx, line))
  ∧ (∃ line, re_match pattern_v7 line = None
             ∧ re_match pattern line
               = Some (Some (str "ResourceFaceADiffuse"))).
Proof.
  split.
  - intros [new_lines changed_lines] idx line m Hm.
    unfold scan_step, scan_step_v7.
    now rewrite Hm, (pattern_v7_within _ _ Hm).
  - exists (str "ps-t0 = ResourceFaceADiffuse"). split; vm_compute; reflexivity.
Qed.
End Unique.
End PatternsMore.

(** * The older engine (FaceFixV7.3.py) *)

Lemma concat_readlines s : concat (readlines s) = s.
Proof.
  induction s as [|c s IH]; [reflexivity|]. simpl.
  destruct (c =? LF); [simpl; now rewrite IH|].
  destruct (readlines s) as [|l ls]; simpl in *; now rewrite <- IH.
Qed.

Lemma readlines_lf_lines s : lf_lines (readlines s).
Proof.
  induction s as [|c s IH]; [constructor|]. simpl.
  destruct (N.eqb_spec c LF) as [->|Hc].
  - apply (lf_cons [] _); auto.
  - destruct (readlines s) as [|l ls].
    + apply lf_last; [discriminate|]. repeat constructor; auto.
    + inversion IH as [|body Hne Hb|body rest Hb Hr]; subst.
      * apply lf_last; [discriminate|]. constructor; auto.
      * apply (lf_cons (c :: body)); auto.
Qed.

Lemma readlines_body body :
  body ≠ [] -> Forall (λ c, c ≠ LF) body -> readlines body = [body].
Proof.
  induction 2 as [|c s Hc Hs IH]; [contradiction|]. simpl.
  destruct (N.eqb_spec c LF) as [E|_]; [contradiction|].
  destruct s as [|d s]; [reflexivity|]. now rewrite IH.
Qed.

Lemma readlines_line body s :
  Forall (λ c, c ≠ LF) body ->
  readlines (body ++ LF :: s) = (body ++ [LF]) :: readlines s.
Proof.
  induction 1 as [|c b Hc Hb IH]; [reflexivity|].
  cbn [app readlines]. rewrite IH.
  now destruct (N.eqb_spec c LF) as [E|_].
Qed.

Lemma readlines_concat lines : lf_lines lines -> readlines (concat lines) = lines.
Proof.
  induction 1 as [|body Hne Hb|body rest Hb Hr IH]; [reflexivity| |].
  - simpl. rewrite app_nil_r. now apply readlines_body.
  - simpl. rewrite <- app_assoc. simpl. rewrite readlines_line by auto.
    now rewrite IH.
Qed.

Lemma prefix_Forall (P : char -> Prop) body (x c : char) u more :
  Forall P body -> body ++ [x] = u ++ c :: more -> Forall P u.
Proof.
  intros Hb. revert u. induction Hb as [|b body Hb _ IH]; intros u E.
  - destruct u as [|? [|? ?]]; [constructor|discriminate..].
  - destruct u as [|y u]; [constructor|]. injection E as <- E.
    constructor; eauto.
Qed.

Lemma splitlines_readlines s :
  Forall (λ c, is_linebreak c = true -> c = LF) s ->
  splitlines s = readlines s.
Proof.
  induction 1 as [|c s Hc Hs IH]; [reflexivity|].
  rewrite splitlines_cons. cbn [readlines]. rewrite IH.
  destruct (is_linebreak c) eqn:E.
  - rewrite (Hc eq_refl). destruct s; reflexivity.
  - destruct (N.eqb_spec c LF) as [->|_]; [discriminate|reflexivity].
Qed.

Lemma universal_newlines_Forall (P : char -> Prop) t :
  P LF -> Forall (λ c, c ≠ CR -> P c) t -> Forall P (universal_newlines t).
Proof.
  intros HLF.
  remember (length t) as n eqn:Hn. assert (Hle : (length t <= n)%nat) by lia.
  clear Hn. revert t Hle.
  induction n as [|n IH]; intros [|c t] Hle Ht.
  - constructor.
  - simpl in Hle. lia.
  - constructor.
  - cbn [length] in Hle. apply Forall_cons in Ht as [Hc' Ht].
    destruct (N.eqb_spec c CR) as [->|Hc].
    + destruct t as [|d t]; [repeat constructor; auto|].
      destruct (N.eqb_spec d LF) as [->|Hd].
      * rewrite universal_newlines_crlf. constructor; [auto|].
        apply Forall_cons in Ht as [_ Ht]. apply IH; [simpl in *; lia|auto].
      * rewrite universal_newlines_cr by auto. constructor; [auto|].
        apply IH; [lia|auto].
    + rewrite universal_newlines_cons by auto. constructor; [auto|].
      apply IH; [lia|auto].
Qed.

Section OlderEngine.
Variable uni_alnum : char -> bool.
Variable uni_decimal : char -> bool.
Variable uni_cased : char -> bool.
Variable uni_ignorable : char -> bool.
Variable uni_lower : char -> text.

(** No whitespace code point is alphanumeric. *)
Hypothesis alnum_not_space : ∀ c, is_space c = true -> uni_alnum c = false.

Abbreviation pattern := (pattern uni_alnum uni_decimal).
Abbreviation pattern_v7 := (pattern_v7 uni_alnum uni_decimal).
Abbreviation new_line := (new_line uni_alnum uni_decimal).
Abbreviation new_line_v7 := (new_line_v7 uni_alnum uni_decimal).
Abbreviation changes_from_v7 := (changes_from_v7 uni_alnum uni_decimal).
Abbreviation scan_step_v7 := (scan_step_v7 uni_alnum uni_decimal).
Abbreviation scan_v7 := (scan_v7 uni_alnum uni_decimal).
Abbreviation smart_replace_v73_try := (smart_replace_v73_try uni_alnum uni_decimal).
Abbreviation smart_replace_v73 := (smart_replace_v73 uni_alnum uni_decimal).
Abbreviation pass_v73 := (pass_v73 uni_alnum uni_decimal).
Abbreviation settled_v7 := (settled_v7 uni_alnum uni_decimal).
Abbreviation lower := (lower uni_cased uni_ignorable uni_lower).

Lemma scan_v7_fold lines : ∀ start nl cl,
  fold_left scan_step_v7 (enumerate start lines) (nl, cl)
  = (nl ++ List.map new_line_v7 lines, cl ++ changes_from_v7 start lines).
Proof.
  induction lines as [|line rest IH]; intros start nl cl.
  - simpl. now rewrite !app_nil_r.
  - unfold enumerate in *. simpl. unfold new_line_v7.
    destruct (re_match pattern_v7 (rstrip_nl line)) as [m|] eqn:E.
    + rewrite indent_re_match. simpl. rewrite IH.
      unfold rewritten. now rewrite <- !app_assoc.
    + rewrite IH. now rewrite <- !app_assoc.
Qed.

Lemma scan_v7_spec lines :
  scan_v7 lines = (List.map new_line_v7 lines, changes_from_v7 1 lines).
Proof. unfold scan_v7. now rewrite scan_v7_fold. Qed.

Lemma changes_from_v7_nil lines start :
  (∀ line, line ∈ lines -> re_match pattern_v7 (rstrip_nl line) = None) ->
  changes_from_v7 start lines = [].
Proof.
  revert start. induction lines as [|l rest IH]; intros start H; simpl; [auto|].
  rewrite (H l) by left. apply IH. intros line Hin. apply H. now right.
Qed.

(** A rewritten line is not accepted again. *)
Lemma new_line_v7_no_match line :
  re_match pattern_v7 (rstrip_nl (new_line_v7 line)) = None.
Proof.
  unfold new_line_v7.
  destruct (re_match pattern_v7 (rstrip_nl line)) as [m|] eqn:E; [|exact E].
  destruct (re_match pattern_v7 (rstrip_nl (rewritten line m))) as [m'|] eqn:E';
    [|reflexivity].
  apply (pattern_v7_within _ _ alnum_not_space) in E'.
  now rewrite rewritten_no_match in E'.
Qed.

Lemma new_line_v7_Forall (P : char -> Prop) line :
  Forall P (str "this = " ++ [LF]) -> Forall P line ->
  Forall P (new_line_v7 line).
Proof.
  intros Hc Hl. unfold new_line_v7.
  destruct (re_match pattern_v7 (rstrip_nl line)) as [m|] eqn:E; [|auto].
  pose proof (new_line_Forall uni_alnum uni_decimal P line Hc Hl) as H.
  unfold new_line in H.
  now rewrite (pattern_v7_within _ _ alnum_not_space _ _ E) in H.
Qed.

(** The rewritten lines are lines again. *)
Lemma rewritten_v7_body body x line m :
  Forall (λ c, c ≠ LF) body -> line = body ++ [x] ->
  re_match pattern_v7 (rstrip_nl line) = Some m ->
  Forall (λ c, c ≠ LF) (take_while is_space line ++ str "this = " ++ group1 m).
Proof.
  intros Hb El Hm.
  apply (pattern_v7_within _ _ alnum_not_space) in Hm.
  destruct (matched_line_shape _ _ _ _ Hm) as (rhs & c & more & pre & post & ->
                                               & E & Hc & Hres & _).
  simpl group1. rewrite !Forall_app. repeat split.
  - eapply (prefix_Forall _ body x c _ more); eauto. now rewrite <- El.
  - repeat constructor; discriminate.
  - apply (resource_no_space _ alnum_not_space) in Hres.
    eapply forallb_Forall_impl; [|exact Hres]. intros d Hd ->. discriminate.
Qed.

Lemma new_lines_v7_lf lines :
  lf_lines lines -> lf_lines (List.map new_line_v7 lines).
Proof.
  induction 1 as [|body Hne Hb|body rest Hb Hr IH]; simpl.
  - constructor.
  - unfold new_line_v7 at 1.
    destruct (re_match pattern_v7 (rstrip_nl body)) as [m|] eqn:Hm.
    + unfold rewritten. rewrite 2!app_assoc, <- (app_assoc _ _ (group1 m)).
      apply lf_cons; [|constructor].
      destruct (exists_last Hne) as (b & x & ->).
      eapply (rewritten_v7_body b x); eauto.
      now apply Forall_app in Hb as [Hb _].
    + now apply lf_last.
  - unfold new_line_v7 at 1.
    destruct (re_match pattern_v7 (rstrip_nl (body ++ [LF]))) as [m|] eqn:Hm.
    + unfold rewritten. rewrite 2!app_assoc, <- (app_assoc _ _ (group1 m)).
      apply lf_cons; [|auto].
      eapply (rewritten_v7_body body LF); eauto.
    + now apply lf_cons.
Qed.

Lemma new_lines_v7_no_cr content :
  Forall (λ c, c ≠ CR) content ->
  Forall (λ c, c ≠ CR) (concat (List.map new_line_v7 (readlines content))).
Proof.
  intros H. rewrite <- (concat_readlines content) in H.
  induction (readlines content) as [|l ls IH]; simpl in *; [constructor|].
  apply Forall_app in H as [Hl Hls]. apply Forall_app. split; [|auto].
  apply new_line_v7_Forall; [|auto]. repeat constructor; discriminate.
Qed.

(** Reading the written text again gives back the new lines, none of
    which the pattern accepts. *)
Lemma rescan_v7 t :
  let new_lines := (scan_v7 (readlines (universal_newlines t))).1 in
  scan_v7 (readlines (universal_newlines (concat new_lines)))
  = (new_lines, []).
Proof.
  cbv zeta. rewrite (scan_v7_spec (readlines (universal_newlines t))). simpl.
  rewrite universal_newlines_id
    by apply new_lines_v7_no_cr, universal_newlines_no_cr.
  rewrite readlines_concat by apply new_lines_v7_lf, readlines_lf_lines.
  rewrite scan_v7_spec. f_equal.
  - rewrite List.map_map. apply List.map_ext. intros l.
    unfold new_line_v7 at 1. now rewrite new_line_v7_no_match.
  - apply changes_from_v7_nil.
    intros l [l' [<- _]]%list_elem_of_In%in_map_iff.
    apply new_line_v7_no_match.
Qed.

(** ** The call on a world, case by case *)

Lemma try_missing_v73 p mb pv w :
  files w !! p = None ->
  smart_replace_v73_try p mb pv w = (inl (FileNotFoundError p), w).
Proof.
  intros H. unfold smart_replace_v73_try, mbind, io_bind, read_text.
  now rewrite H.
Qed.

Lemma try_binary_v73 p mb pv w b :
  files w !! p = Some (Binary b) ->
  smart_replace_v73_try p mb pv w
  = (inl (UnicodeDecodeError p), log (EvRead p) w).
Proof.
  intros H. unfold smart_replace_v73_try, mbind, io_bind, read_text.
  now rewrite H.
Qed.

Lemma try_text_v73 p mb pv w t :
  files w !! p = Some (Text t) ->
  smart_replace_v73_try p mb pv w =
    let w1 := log (EvRead p) w in
    let '(nl, cl) := scan_v7 (readlines (universal_newlines t)) in
    if is_nil cl then (inr (false, []), w1)
    else
      let w2 := emits (preview_out pv p cl) w1 in
      if mb then
        if decide (backup_path p ∈ readonly w)
        then (inl (PermissionError (backup_path p)), w2)
        else
          let w3 := backed_up p (Text t) w2 in
          if decide (p ∈ readonly w) then (inl (PermissionError p), w3)
          else (inr (true, cl), written p nl w3)
      else
        if decide (p ∈ readonly w) then (inl (PermissionError p), w2)
        else (inr (true, cl), written p nl w2).
Proof.
  intros H. unfold smart_replace_v73_try. rewrite bind_run.
  unfold read_text at 1. rewrite H. cbv zeta.
  destruct (scan_v7 (readlines (universal_newlines t))) as [nl cl].
  destruct (is_nil cl); [reflexivity|].
  rewrite bind_run, preview_run.
  destruct mb; simpl.
  - unfold mbind, io_bind, copyfile, write_lines. simpl.
    destruct (decide (p = backup_path p)) as [E|_];
      [now destruct (backup_path_neq p)|].
    rewrite H.
    destruct (decide (backup_path p ∈ readonly w)); [reflexivity|]. simpl.
    destruct (decide (p ∈ readonly w)); reflexivity.
  - unfold mbind, io_bind, write_lines. simpl.
    destruct (decide (p ∈ readonly w)); reflexivity.
Qed.

(** One call: it returns, touches the file and its backup at most, leaves
    a file it changed with nothing more to change, and leaves alone a file
    with nothing to change. *)
Lemma settled_v7_files w w' p :
  files w' !! p = files w !! p -> settled_v7 w p -> settled_v7 w' p.
Proof. unfold settled_v7. intros ->. auto. Qed.

Lemma v73_step w p mb pv :
  ∃ b cl w',
    smart_replace_v73 p mb pv w = (inr (b, cl), w')
    ∧ (∀ q, q ≠ p -> q ≠ backup_path p -> files w' !! q = files w !! q)
    ∧ (b = true -> settled_v7 w' p)
    ∧ (settled_v7 w p -> b = false ∧ files w' = files w).
Proof.
  unfold smart_replace_v73, try_except.
  destruct (files w !! p) as [[t|b]|] eqn:Hf.
  - rewrite (try_text_v73 _ _ _ _ _ Hf). cbv zeta.
    pose proof (rescan_v7 t) as Hre. cbv zeta in Hre.
    assert (Hset : settled_v7 w p ->
                   (scan_v7 (readlines (universal_newlines t))).2 = [])
      by (intros H; now apply H).
    destruct (scan_v7 (readlines (universal_newlines t))) as [nl cl].
    simpl in Hre, Hset.
    destruct cl as [|c cl]; simpl is_nil; cbv iota.
    { exists false, [], (log (EvRead p) w). repeat split; auto; discriminate. }
    assert (Hno : ¬ settled_v7 w p) by (intros H; now apply Hset in H).
    destruct mb; repeat (destruct (decide _)); simpl;
      eexists _, _, _; (split; [reflexivity|]); simpl;
      (split; [intros q H1 H2; now rewrite ?lookup_insert_ne by auto|]);
      (split; [|intros H; now destruct Hno]);
      first [ solve [intros [=]]
            | intros _ t'; unfold settled_v7, written, backed_up; simpl;
              rewrite lookup_insert_eq; intros [= <-]; now rewrite Hre ].
  - rewrite (try_binary_v73 _ _ _ _ _ Hf). simpl.
    eexists _, _, _. split; [reflexivity|]. repeat split; auto; discriminate.
  - rewrite (try_missing_v73 _ _ _ _ Hf). simpl.
    eexists _, _, _. split; [reflexivity|]. repeat split; auto; discriminate.
Qed.

(** X17. In the 7.3 script the preview flag decides what is printed and
    nothing else: the call with [preview=True] returns what the call with
    [preview=False] returns and leaves the same files and the same file
    operations behind.  So the loop that [main] calls the preview already
    rewrites every file that has a matching line and can be written, before
    the user is asked to confirm. *)
Theorem v73_preview_writes w p mb :
  (let shown := smart_replace_v73 p mb true w in
   let silent := smart_replace_v73 p mb false w in
   shown.1 = silent.1
   ∧ files shown.2 = files silent.2
   ∧ trace shown.2 = trace silent.2)
  ∧ (∀ t,
       files w !! p = Some (Text t) ->
       (scan_v7 (readlines (universal_newlines t))).2 ≠ [] ->
       p ∉ readonly w -> (mb = true -> backup_path p ∉ readonly w) ->
       ∃ w',
         smart_replace_v73 p mb true w
         = (inr (true, (scan_v7 (readlines (universal_newlines t))).2), w')
         ∧ files w' !! p
           = Some (Text (concat (scan_v7 (readlines (universal_newlines t))).1))
         ∧ EvWrite p ∈ trace w').
Proof.
  split.
  - cbv zeta. unfold smart_replace_v73, try_except.
    destruct (files w !! p) as [[t|b]|] eqn:Hf.
    + rewrite !(try_text_v73 _ _ _ _ _ Hf). cbv zeta.
      destruct (scan_v7 (readlines (universal_newlines t))) as [nl cl].
      destruct (is_nil cl); [simpl; auto|].
      destruct mb; repeat (destruct (decide _)); simpl; auto.
    + rewrite !(try_binary_v73 _ _ _ _ _ Hf). simpl. auto.
    + rewrite !(try_missing_v73 _ _ _ _ Hf). simpl. auto.
  - intros t Hf Hcl Hp Hb. unfold smart_replace_v73, try_except.
    rewrite (try_text_v73 _ _ _ _ _ Hf). cbv zeta.
    destruct (scan_v7 (readlines (universal_newlines t))) as [nl cl].
    simpl in Hcl |- *.
    destruct cl as [|c cl]; [contradiction|]. simpl is_nil. cbv iota.
    destruct mb.
    + destruct (decide _) as [H|_]; [now destruct Hb|].
      destruct (decide _) as [H|_]; [contradiction|].
      eexists. split; [reflexivity|]. simpl. split.
      * apply lookup_insert_eq.
      * apply elem_of_app. right. left.
    + destruct (decide _) as [H|_]; [contradiction|].
      eexists. split; [reflexivity|]. simpl. split.
      * apply lookup_insert_eq.
      * apply elem_of_app. right. left.
Qed.

(** C6. In 0.7.9 preview and apply are independent flags: the preview
    flag only changes what is printed, and without the apply flag the
    files are left as they were, the read being the only file operation;
    a call with both flags off does nothing but that read.  The 7.3
    script has no apply flag: there a call that previews a writable file
    with a matching line goes on to the backup, when asked for, and to
    the write. *)
Theorem preview_and_apply_independent :
  (∀ w p pd,
     (∀ mb ap,
        let r1 := smart_replace uni_alnum uni_decimal p mb true ap pd w in
        let r0 := smart_replace uni_alnum uni_decimal p mb false ap pd w in
        r1.1 = r0.1 ∧ files r1.2 = files r0.2 ∧ trace r1.2 = trace r0.2)
     ∧ (∀ mb pv,
          let r := smart_replace uni_alnum uni_decimal p mb pv false pd w in
          files r.2 = files w
          ∧ (trace r.2 = trace w ∨ trace r.2 = trace w ++ [EvRead p]))
     ∧ (∀ mb pv t,
          files w !! p = Some (Text t) ->
          let r := smart_replace uni_alnum uni_decimal p mb pv false pd w in
          files r.2 = files w
          ∧ trace r.2 = trace w ++ [EvRead p]
          ∧ (pv = false -> r.2 = log (EvRead p) w)))
  ∧ (∀ w p mb t,
       files w !! p = Some (Text t) ->
       (scan_v7 (readlines (universal_newlines t))).2 ≠ [] ->
       p ∉ readonly w -> (mb = true -> backup_path p ∉ readonly w) ->
       let lines := readlines (universal_newlines t) in
       let r := smart_replace_v73 p mb true w in
       r.1 = inr (true, (scan_v7 lines).2)
       ∧ files r.2 !! p = Some (Text (concat (scan_v7 lines).1))
       ∧ (mb = true -> files r.2 !! backup_path p = Some (Text t))
       ∧ trace r.2
         = trace w ++ [EvRead p]
           ++ (if mb then [EvCopy p (backup_path p)] else [])
           ++ [EvWrite p]).
Proof.
  split; [intros w p pd; apply preview_flags|].
  intros w p mb t Hf Hcl Hp Hb lines r. subst r lines.
  unfold smart_replace_v73, try_except.
  rewrite (try_text_v73 _ _ _ _ _ Hf). cbv zeta.
  destruct (scan_v7 (readlines (universal_newlines t))) as [nl cl].
  simpl in Hcl |- *.
  destruct cl as [|c cl]; [contradiction|]. simpl is_nil. cbv iota.
  pose proof (backup_path_neq p) as Hne.
  destruct mb.
  - destruct (decide _) as [H|_]; [now destruct Hb|].
    destruct (decide _) as [H|_]; [contradiction|].
    simpl. repeat split.
    + apply lookup_insert_eq.
    + intros _. rewrite lookup_insert_ne by auto. apply lookup_insert_eq.
    + now rewrite <- !app_assoc.
  - destruct (decide _) as [H|_]; [contradiction|].
    simpl. repeat split.
    + apply lookup_insert_eq.
    + discriminate.
    + now rewrite <- !app_assoc.
Qed.

(** ** The two loops of [main] *)

Lemma pass_v73_cons p l mb pv w :
  pass_v73 (p :: l) mb pv w
  = match smart_replace_v73 p mb pv w with
    | (inr (changed, _), w1) =>
        match pass_v73 l mb pv w1 with
        | (inr others, w2) => (inr (if changed then p :: others else others), w2)
        | (inl e, w2) => (inl e, w2)
        end
    | (inl e, w1) => (inl e, w1)
    end.
Proof.
  simpl. rewrite bind_run.
  destruct (smart_replace_v73 p mb pv w) as [[e|[changed cl]] w1]; [reflexivity|].
  now rewrite bind_run.
Qed.

Lemma pass_v73_settled mb pv l : ∀ w,
  (∀ p, p ∈ l -> settled_v7 w p) ->
  ∃ w', pass_v73 l mb pv w = (inr [], w') ∧ files w' = files w.
Proof.
  induction l as [|p l IH]; intros w H; [now exists w|].
  rewrite pass_v73_cons.
  destruct (v73_step w p mb pv) as (b & cl & w1 & E & _ & _ & Hs).
  destruct Hs as [-> Hf]; [apply H; left|].
  destruct (IH w1) as (w' & E' & Hf').
  { intros q Hq. apply (settled_v7_files w); [now rewrite Hf|].
    apply H. now right. }
  exists w'. split; [|congruence]. now rewrite E, E'.
Qed.

Lemma pass_v73_keeps mb pv p l : ∀ w r w',
  (∀ q, q ∈ l -> backup_path q ≠ p) ->
  settled_v7 w p -> pass_v73 l mb pv w = (r, w') -> settled_v7 w' p.
Proof.
  induction l as [|q l IH]; intros w r w' Hl Hp E.
  - injection E as _ <-. auto.
  - rewrite pass_v73_cons in E.
    destruct (v73_step w q mb pv) as (b & cl & w1 & E1 & Hfr & _ & Hs).
    rewrite E1 in E.
    destruct (pass_v73 l mb pv w1) as [[e|others] w2] eqn:E2.
    + injection E as _ <-. apply (IH w1 _ _) in E2; auto.
      * intros q' Hq'. apply Hl. now right.
      * destruct (decide (p = q)) as [->|Hne].
        -- destruct (Hs Hp) as [_ Hf].
           apply (settled_v7_files w); [now rewrite Hf|auto].
        -- apply (settled_v7_files w); [|auto]. apply Hfr; [auto|].
           intros Hb. apply (Hl q); [left|auto].
    + injection E as _ <-. apply (IH w1 _ _) in E2; auto.
      * intros q' Hq'. apply Hl. now right.
      * destruct (decide (p = q)) as [->|Hne].
        -- destruct (Hs Hp) as [_ Hf].
           apply (settled_v7_files w); [now rewrite Hf|auto].
        -- apply (settled_v7_files w); [|auto]. apply Hfr; [auto|].
           intros Hb. apply (Hl q); [left|auto].
Qed.

Lemma pass_v73_result mb pv l : ∀ w,
  (∀ p q, p ∈ l -> q ∈ l -> backup_path q ≠ p) ->
  ∃ l' w', pass_v73 l mb pv w = (inr l', w') ∧ ∀ p, p ∈ l' -> settled_v7 w' p.
Proof.
  induction l as [|p l IH]; intros w H.
  - exists [], w. split; [reflexivity|]. intros p Hp. inversion Hp.
  - rewrite pass_v73_cons.
    destruct (v73_step w p mb pv) as (b & cl & w1 & E & _ & Hb & _).
    destruct (IH w1) as (l' & w' & E' & Hl').
    { intros x y Hx Hy. apply H; now right. }
    exists (if b then p :: l' else l'), w'. split.
    + now rewrite E, E'.
    + destruct b; [|auto]. intros q [->|Hq]%elem_of_cons; [|auto].
      apply (pass_v73_keeps mb pv p l w1 _ _) in E'; auto.
      intros q Hq. apply H; [left|now right].
Qed.

(** X18. In the 7.3 script the second loop of [main], the one meant to
    apply the changes, never changes anything: the files it is given were
    rewritten by the preview loop, and a rewritten file has no line the
    pattern accepts.  Whatever the folder holds, the loop returns no
    modified file (the script then reports 0 files modified) and leaves
    every file as the preview loop left it. *)
Theorem v73_apply_loop_finds_nothing ini_files mb w :
  Forall (λ p, ends_with (str ".ini") (lower p) = true) ini_files ->
  ∃ files_to_modify w1 w2,
    pass_v73 ini_files mb true w = (inr files_to_modify, w1)
    ∧ pass_v73 files_to_modify mb false w1 = (inr [], w2)
    ∧ files w2 = files w1.
Proof.
  intros Hini.
  destruct (pass_v73_result mb true ini_files w) as (l & w1 & E & Hl).
  { intros p q Hp Hq Hb. rewrite Forall_forall in Hini.
    apply Hini in Hp. rewrite <- Hb in Hp.
    now rewrite (backup_path_not_ini uni_cased uni_ignorable uni_lower) in Hp. }
  destruct (pass_v73_settled mb false l w1 Hl) as (w2 & E2 & Hf).
  now exists l, w1, w2.
Qed.

Lemma changes_from_v7_within lines : ∀ start c,
  c ∈ changes_from_v7 start lines ->
  c ∈ changes_from uni_alnum uni_decimal start lines.
Proof.
  induction lines as [|l rest IH]; intros start c; simpl; [auto|].
  destruct (re_match pattern_v7 (rstrip_nl l)) as [m|] eqn:E.
  - rewrite (pattern_v7_within _ _ alnum_not_space _ _ E).
    intros [->|H]%elem_of_cons; [left|right; auto].
  - intros H%IH. destruct (re_match pattern (rstrip_nl l)); [right|]; auto.
Qed.

(** X20. On a file whose line boundaries are LF, CR LF and CR only, the
    7.3 script, which reads with [readlines], and the 0.7.9 script, which
    splits what it read with [splitlines], see the same lines; and every
    Match the older loop finds there, the newer loop finds with the same
    line number and the same texts. *)
Theorem older_matches_are_newer_matches t :
  Forall (λ c, is_linebreak c = true -> c = LF ∨ c = CR) t ->
  let content := universal_newlines t in
  readlines content = splitlines content
  ∧ ∀ c, c ∈ (scan_v7 (readlines content)).2 ->
         c ∈ (scan uni_alnum uni_decimal (splitlines content)).2.
Proof.
  intros Ht content.
  assert (E : readlines content = splitlines content).
  { symmetry. apply splitlines_readlines. subst content.
    apply universal_newlines_Forall; [auto|].
    eapply Forall_impl; [exact Ht|]. intros c H Hc Hl.
    destruct (H Hl); [auto|contradiction]. }
  split; [exact E|]. rewrite E, scan_v7_spec, scan_spec. simpl.
  apply changes_from_v7_within.
Qed.

End OlderEngine.

(** * Calls on different files *)

Lemma touch_lookup_ne k o m q : q ≠ k -> touch k o m !! q = m !! q.
Proof. intros H. destruct o; simpl; [now apply lookup_insert_ne|auto]. Qed.

Lemma touch_commute k1 o1 k2 o2 m :
  k1 ≠ k2 -> touch k1 o1 (touch k2 o2 m) = touch k2 o2 (touch k1 o1 m).
Proof.
  intros H. destruct o1, o2; simpl; auto. now apply insert_insert_ne.
Qed.

Section ApplyOrder.
Variable uni_alnum : char -> bool.
Variable uni_decimal : char -> bool.

Abbreviation smart_replace := (smart_replace uni_alnum uni_decimal).
Abbreviation scan := (scan uni_alnum uni_decimal).

(** A call sees the world through its own file and the two write
    permissions, and acts on its own file and its backup. *)
Lemma smart_replace_view p mb pv ap pd w w' :
  files w' !! p = files w !! p -> readonly w' = readonly w ->
  ∃ r ob op w1 w1',
    smart_replace p mb pv ap pd w = (inr r, w1)
    ∧ smart_replace p mb pv ap pd w' = (inr r, w1')
    ∧ readonly w1 = readonly w ∧ readonly w1' = readonly w'
    ∧ files w1 = touch p op (touch (backup_path p) ob (files w))
    ∧ files w1' = touch p op (touch (backup_path p) ob (files w')).
Proof.
  intros Hf Hro. unfold smart_replace, try_except.
  destruct (files w !! p) as [[t|b]|] eqn:E.
  - rewrite (try_text _ _ _ _ _ _ _ _ _ E), (try_text _ _ _ _ _ _ _ _ _ Hf).
    cbv zeta. rewrite Hro.
    destruct (contains DISABLED (universal_newlines t) && negb pd).
    { eexists _, None, None, _, _. repeat split; exact Hro. }
    destruct (scan (splitlines (universal_newlines t))) as [nl cl].
    destruct (is_nil cl).
    { eexists _, None, None, _, _. repeat split; exact Hro. }
    destruct ap; [|eexists _, None, None, _, _; repeat split; exact Hro].
    destruct mb.
    + destruct (decide (backup_path p ∈ readonly w)).
      { eexists _, None, None, _, _. repeat split; exact Hro. }
      destruct (decide (p ∈ readonly w)).
      * eexists _, (Some (Text t)), None, _, _. repeat split; exact Hro.
      * eexists _, (Some (Text t)), (Some (Text (concat nl))), _, _.
        repeat split; exact Hro.
    + destruct (decide (p ∈ readonly w)).
      * eexists _, None, None, _, _. repeat split; exact Hro.
      * eexists _, None, (Some (Text (concat nl))), _, _. repeat split; exact Hro.
  - rewrite (try_binary _ _ _ _ _ _ _ _ _ E), (try_binary _ _ _ _ _ _ _ _ _ Hf).
    eexists _, None, None, _, _. repeat split; exact Hro.
  - rewrite (try_missing _ _ _ _ _ _ _ _ E), (try_missing _ _ _ _ _ _ _ _ Hf).
    eexists _, None, None, _, _. repeat split; exact Hro.
Qed.

(** X19. Calls on two files commute when the files and their backups are
    four different paths: made in either order, each call returns the same
    and the folder ends up the same.  This is what lets [main] hand the
    files to a pool of threads without fixing the order. *)
Theorem calls_commute p q mb pv ap pd mb' pv' ap' pd' w :
  p ≠ q -> backup_path p ≠ q -> backup_path q ≠ p ->
  backup_path p ≠ backup_path q ->
  ∃ rp rq w1 w2 v1 v2,
    smart_replace p mb pv ap pd w = (inr rp, w1)
    ∧ smart_replace q mb' pv' ap' pd' w1 = (inr rq, w2)
    ∧ smart_replace q mb' pv' ap' pd' w = (inr rq, v1)
    ∧ smart_replace p mb pv ap pd v1 = (inr rp, v2)
    ∧ files w2 = files v2 ∧ readonly w2 = readonly v2.
Proof.
  intros H1 H2 H3 H4.
  destruct (smart_replace_view p mb pv ap pd w w eq_refl eq_refl)
    as (rp & ob & op & w1 & ? & Ep & _ & Rp & _ & Fp & _).
  destruct (smart_replace_view q mb' pv' ap' pd' w w1)
    as (rq & ob' & op' & v1 & w2 & Eq & Eq1 & Rq & Rq1 & Fq & Fq1); [|auto|].
  { rewrite Fp. now rewrite !touch_lookup_ne by auto. }
  destruct (smart_replace_view p mb pv ap pd w v1)
    as (rp' & ob2 & op2 & w1' & v2 & Ep' & Ep1 & _ & Rp1 & Fp' & Fp1); [|auto|].
  { rewrite Fq. now rewrite !touch_lookup_ne by auto. }
  rewrite Ep in Ep'. injection Ep' as <- <-.
  exists rp, rq, w1, w2, v1, v2. repeat split; auto.
  - rewrite Fq1, Fp', Fp1, Fq.
    rewrite (touch_commute (backup_path q) _ p),
      (touch_commute (backup_path q) _ (backup_path p)) by auto.
    now rewrite (touch_commute q _ p), (touch_commute q _ (backup_path p))
      by auto.
  - congruence.
Qed.

End ApplyOrder.

(** * The further properties at work on the small tree *)

Lemma sample_alnum_not_space c : is_space c = true -> sample_alnum c = false.
Proof.
  intros H. destruct (sample_alnum c) eqn:E; [exfalso|reflexivity].
  unfold is_space in H. unfold sample_alnum in E.
  unbool; lia.
Defined.

Lemma sample_lower_no_backslash c : 0x80 <= c -> 0x5C ∉ sample_lower c.
Proof.
  intros Hc H. unfold sample_lower in H.
  repeat (destruct (_ && _) in H);
    apply list_elem_of_singleton in H; lia.
Defined.

Lemma matches_numbered_witness :
  (2%nat, str "  ps-t0 = ResourceFaceDiffuse.normal",
   str "  this = ResourceFaceDiffuse.normal")
    ∈ (scan sample_alnum sample_decimal
         (splitlines (universal_newlines face_text))).2.
Proof.
  apply (proj2 (proj1 (matches_numbered sample_alnum sample_decimal _) _ _ _)).
  exists 1%nat, (str "  ps-t0 = ResourceFaceDiffuse.normal" ++ [LF]),
    (Some (str "ResourceFaceDiffuse.normal")).
  repeat split; vm_compute; reflexivity.
Defined.

Lemma written_text_keeps_lines_witness :
  splitlines
    (concat (scan sample_alnum sample_decimal (splitlines face_text)).1)
  = (scan sample_alnum sample_decimal (splitlines face_text)).1.
Proof.
  apply (proj1 (written_text_keeps_lines sample_alnum sample_decimal
                  sample_alnum_not_linebreak)).
Defined.

Lemma failed_write_leaves_backup_witness :
  let r := smart_replace sample_alnum sample_decimal locked_ini true false true
             false sample_world in
  r.1 = inr (false, [])
  ∧ files r.2 !! backup_path locked_ini
    = Some (Text (str "ps-t0 = ResourceFaceDiffuse" ++ [LF]))
  ∧ files r.2 !! locked_ini
    = Some (Text (str "ps-t0 = ResourceFaceDiffuse" ++ [LF]))
  ∧ trace r.2
    = trace sample_world
      ++ [EvRead locked_ini; EvCopy locked_ini (backup_path locked_ini)]
  ∧ last (console r.2)
    = Some (ErrorProcessing locked_ini (PermissionError locked_ini)).
Proof.
  apply (failed_write_leaves_backup sample_alnum sample_decimal sample_world
           locked_ini false false (str "ps-t0 = ResourceFaceDiffuse" ++ [LF])).
  - vm_compute. reflexivity.
  - left. vm_compute. reflexivity.
  - vm_compute. discriminate.
  - by_decide.
  - by_decide.
Defined.

Lemma failed_backup_blocks_write_witness :
  let r := smart_replace sample_alnum sample_decimal face_ini true false true
             false guarded_world in
  r.1 = inr (false, [])
  ∧ files r.2 = files guarded_world
  ∧ trace r.2 = trace guarded_world ++ [EvRead face_ini]
  ∧ last (console r.2)
    = Some (ErrorProcessing face_ini (PermissionError (backup_path face_ini))).
Proof.
  apply (failed_backup_blocks_write sample_alnum sample_decimal guarded_world
           face_ini false false face_text).
  - vm_compute. reflexivity.
  - left. vm_compute. reflexivity.
  - vm_compute. discriminate.
  - by_decide.
Defined.

Lemma unreadable_file_reported_witness :
  smart_replace sample_alnum sample_decimal missing_ini true true true false
    sample_world
  = (inr (false, []),
     emit (ErrorProcessing missing_ini (FileNotFoundError missing_ini))
       sample_world).
Proof.
  apply (proj1 (unreadable_file_reported sample_alnum sample_decimal
                  sample_world missing_ini true true true false)).
  vm_compute. reflexivity.
Defined.

Lemma process_disabled_needs_marker_witness :
  smart_replace sample_alnum sample_decimal face_ini true true true true
    sample_world
  = smart_replace sample_alnum sample_decimal face_ini true true true false
      sample_world.
Proof.
  apply (process_disabled_needs_marker sample_alnum sample_decimal sample_world
           face_ini true true true).
  intros t H. vm_compute in H. injection H as <-. vm_compute. reflexivity.
Defined.

Lemma apply_without_backup_witness :
  let lines := splitlines (universal_newlines face_text) in
  let r := smart_replace sample_alnum sample_decimal face_ini false false true
             false sample_world in
  r.1 = inr (true, (scan sample_alnum sample_decimal lines).2)
  ∧ files r.2
    = <[face_ini := Text (concat (scan sample_alnum sample_decimal lines).1)]>
        (files sample_world)
  ∧ trace r.2 = trace sample_world ++ [EvRead face_ini; EvWrite face_ini].
Proof.
  apply (apply_without_backup sample_alnum sample_decimal sample_world
           face_ini false false face_text).
  - vm_compute. reflexivity.
  - left. vm_compute. reflexivity.
  - vm_compute. discriminate.
  - by_decide.
Defined.

Lemma excluded_root_excludes_all_witness :
  collect sample_cased sample_ignorable sample_lower nested_walk [str "*od*"]
    false true sample_world
  = (inr [], sample_world).
Proof.
  apply (excluded_root_excludes_all sample_cased sample_ignorable sample_lower
           (str "mods")).
  - vm_compute. reflexivity.
  - constructor; [left; reflexivity|].
    constructor; [right; exists (str "new"); reflexivity|constructor].
Defined.

Lemma star_only_pattern_excludes_all_witness :
  should_exclude sample_cased sample_ignorable sample_lower (str "mods") [str "*_backup.bak"; str "**"]
  = true.
Proof.
  apply (proj1 (proj2 (star_only_pattern_excludes_all sample_cased sample_ignorable sample_lower))
           _ _ 2%nat).
  by_decide.
Defined.

Lemma backslash_pattern_never_matches_witness :
  should_exclude sample_cased sample_ignorable sample_lower (str "mods\old") [str "*mods\old*"] = false.
Proof.
  apply (backslash_pattern_never_matches sample_cased sample_ignorable sample_lower
           sample_lower_no_backslash).
  by_decide.
Defined.

Lemma exclusion_prompt_needs_blank_line_witness :
  ∃ w', get_exclusion_patterns unended_world = (inl EOFError, w')
        ∧ stdin w' = [] ∧ files w' = files unended_world.
Proof.
  apply (exclusion_prompt_needs_blank_line unended_world).
  repeat (constructor; [intros H; vm_compute in H; discriminate|]).
  constructor.
Defined.

Lemma backups_never_collected_witness :
  backup_path face_ini ∉ [str "mods/face.ini"; str "mods/plain.ini"].
Proof.
  apply (proj2 (backups_never_collected sample_cased sample_ignorable sample_lower)
           sample_world sample_walk [str "*_backup.bak"] false true _
           (collect sample_cased sample_ignorable sample_lower sample_walk [str "*_backup.bak"] false true
              sample_world).2).
  vm_compute. reflexivity.
Defined.

Lemma backup_is_sibling_witness :
  backup_path (str "mods.d" ++ SEP :: str "face.ini")
  = str "mods.d" ++ SEP :: backup_path (str "face.ini").
Proof.
  apply (proj2 (backup_is_sibling (str "mods.d") (str "face.ini")
                  ltac:(by_decide))).
Defined.

Lemma newer_pattern_widens_witness :
  scan_step sample_alnum sample_decimal ([], [])
    (1%nat, str "ps-t0 = ResourceFaceHeadDiffuse" ++ [LF])
  = scan_step_v7 sample_alnum sample_decimal ([], [])
      (1%nat, str "ps-t0 = ResourceFaceHeadDiffuse" ++ [LF]).
Proof.
  apply (proj1 (newer_pattern_widens sample_alnum sample_decimal
                  sample_alnum_not_space)
           ([], []) 1%nat _ (Some (str "ResourceFaceHeadDiffuse"))).
  vm_compute. reflexivity.
Defined.

Lemma v73_preview_writes_witness :
  ∃ w',
    smart_replace_v73 sample_alnum sample_decimal face_ini true true sample_world
    = (inr (true,
            (scan_v7 sample_alnum sample_decimal
               (readlines (universal_newlines face_text))).2), w')
    ∧ files w' !! face_ini
      = Some (Text (concat (scan_v7 sample_alnum sample_decimal
                              (readlines (universal_newlines face_text))).1))
    ∧ EvWrite face_ini ∈ trace w'.
Proof.
  apply (proj2 (v73_preview_writes sample_alnum sample_decimal sample_world
                  face_ini true) face_text).
  - vm_compute. reflexivity.
  - vm_compute. discriminate.
  - by_decide.
  - intros _. by_decide.
Defined.

Lemma v73_apply_loop_finds_nothing_witness :
  ∃ files_to_modify w1 w2,
    pass_v73 sample_alnum sample_decimal [face_ini; off_ini; plain_ini] true
      true sample_world
    = (inr files_to_modify, w1)
    ∧ pass_v73 sample_alnum sample_decimal files_to_modify true false w1
      = (inr [], w2)
    ∧ files w2 = files w1.
Proof.
  apply (v73_apply_loop_finds_nothing sample_alnum sample_decimal sample_cased sample_ignorable sample_lower
           sample_alnum_not_space).
  repeat (constructor; [vm_compute; reflexivity|]). constructor.
Defined.

Lemma calls_commute_witness :
  ∃ rp rq w1 w2 v1 v2,
    smart_replace sample_alnum sample_decimal face_ini true false true false
      sample_world = (inr rp, w1)
    ∧ smart_replace sample_alnum sample_decimal off_ini true false true true w1
      = (inr rq, w2)
    ∧ smart_replace sample_alnum sample_decimal off_ini true false true true
        sample_world = (inr rq, v1)
    ∧ smart_replace sample_alnum sample_decimal face_ini true false true false
        v1 = (inr rp, v2)
    ∧ files w2 = files v2 ∧ readonly w2 = readonly v2.
Proof.
  apply (calls_commute sample_alnum sample_decimal face_ini off_ini);
    by_decide.
Defined.

Lemma older_matches_are_newer_matches_witness :
  readlines (universal_newlines face_text)
  = splitlines (universal_newlines face_text).
Proof.
  apply (proj1 (older_matches_are_newer_matches sample_alnum sample_decimal
                  sample_alnum_not_space face_text ltac:(by_decide))).
Defined.

Lemma preview_and_apply_independent_witness :
  (let r := smart_replace sample_alnum sample_decimal face_ini true false false
              false sample_world in
   files r.2 = files sample_world
   ∧ trace r.2 = trace sample_world ++ [EvRead face_ini]
   ∧ (false = false -> r.2 = log (EvRead face_ini) sample_world))
  ∧ (let lines := readlines (universal_newlines face_text) in
     let r := smart_replace_v73 sample_alnum sample_decimal face_ini true true
                sample_world in
     r.1 = inr (true, (scan_v7 sample_alnum sample_decimal lines).2)
     ∧ files r.2 !! face_ini
       = Some (Text (concat (scan_v7 sample_alnum sample_decimal lines).1))
     ∧ (true = true -> files r.2 !! backup_path face_ini = Some (Text face_text))
     ∧ trace r.2
       = trace sample_world ++ [EvRead face_ini]
         ++ [EvCopy face_ini (backup_path face_ini)] ++ [EvWrite face_ini]).
Proof.
  split.
  - apply (proj2 (proj2 (proj1 (preview_and_apply_independent sample_alnum
                                  sample_decimal)
                           sample_world face_ini false))
             true false face_text).
    vm_compute. reflexivity.
  - apply (proj2 (preview_and_apply_independent sample_alnum sample_decimal)
             sample_world face_ini true face_text).
    + vm_compute. reflexivity.
    + vm_compute. discriminate.
    + by_decide.
    + intros _. by_decide.
Defined.
